(** * rpcchannel: a shallow embedding of the channel protocol core

    The development follows the source files of the repository:
    - [Utils]         utils.ts          ([isDefined], [isUndef])
    - [AddrMap]       addrmap.ts        (the wildcard-aware address trie)
    - [AccessControl] accesscontrol.ts  (the access controller family)
    - [Serializer]    serializer.ts     ([rpcSerialize])
    - [Registry]      registry.ts       (handler registry and [RpcChannel])
    - [PermissionControl] accesscontrol.ts (the lookup controller and the
                                        permission controller)
    - [Remap]         registry.ts       ([RemapArguments])
    - [Realm]         addrmap.ts        (the trie on plain objects, with
                                        the properties that a node inherits
                                        from [Object.prototype])
    - [Correlation]   registry.ts       ([nextSeqAddr] on a counter that is
                                        a JavaScript number)

    JavaScript objects used as dictionaries are finite maps ([gmap]) from
    string keys; the two symbol keys of a trie node ([WildcardEntryKey],
    [DefaultEntryKey]) are separate fields of the node record.  [AddrMap]
    looks a segment up among the own string keys of a node, which is what
    the code does for every segment that names no property of
    [Object.prototype]; [Realm] has the lookup of the code for every
    segment, and the statements about the address map are made there.
    Arrays that the code mutates in place ([addr], [wc_values]) are
    threaded through the functions that touch them and returned with the
    result. *)

From stdpp Require Import gmap strings list fin_maps pretty.
From Stdlib Require Import ZArith QArith Lia.

Set Warnings "-register-all,-clear-no-such-hyp".
Close Scope Q_scope.
Open Scope string_scope.
Open Scope list_scope.

(** ** JavaScript truthiness

    The source tests values with [!x], [x || y] and [if (x)].  The class
    gives the truthiness of a defined value of type [T]; an absent value
    ([undefined]) is [None] and always falsy. *)
Class Truthy (T : Type) := truthy : T -> bool.

Definition is_truthy {T} `{Truthy T} (v : option T) : bool :=
  match v with
  | Some x => truthy x
  | None => false
  end.

(** [a || b] on possibly-absent values. *)
Definition js_or {T} `{Truthy T} (a b : option T) : option T :=
  if is_truthy a then a else b.

#[export] Instance bool_truthy : Truthy bool := fun b => b.
#[export] Instance number_truthy : Truthy Z := fun z => negb (Z.eqb z 0).
#[export] Instance string_truthy : Truthy string :=
  fun s => negb (String.eqb s "").

(** ** utils.ts *)
Module Utils.

(** [isDefined(val)]: neither [undefined] nor [null]; both are [None]. *)
Definition isDefined {A} (val : option A) : bool :=
  match val with
  | Some _ => true
  | None => false
  end.

Definition isUndef {A} (val : option A) : bool := negb (isDefined val).

End Utils.

(** ** addrmap.ts

    The trie on its own properties.  The definitions of this module give
    [put] and [get] on addresses whose segments name no property of
    [Object.prototype] ([__proto__], [constructor], [toString], ...), in
    a realm where [Object.prototype] holds no entry of an address map:
    there every property that the code reads is an own property of a
    node.  [Realm], below, follows the code through the prototype chain
    and gives [put] and [get] on the other addresses; the two agree where
    this module applies ([Realm_get_own], [Realm_put_own]).  The channel
    is described with this module. *)
Module AddrMap.

(** [MultistringAddress = string[]]. *)
Abbreviation MultistringAddress := (list string).
(** [WildcardMultistringAddress = (string | undefined | null)[]]. *)
Abbreviation WildcardMultistringAddress := (list (option string)).

(** [AddressMapFlat<T>]: string-keyed children, the child under
    [WildcardEntryKey] and the value under [DefaultEntryKey]. *)
Inductive AddressMapFlat (T : Type) : Type :=
  Node { named : gmap string (AddressMapFlat T);
         wildcard_entry : option (AddressMapFlat T);
         default_entry : option T }.
Arguments Node {T} _ _ _.
Arguments named {T} _.
Arguments wildcard_entry {T} _.
Arguments default_entry {T} _.

(** The object literal [{}]. *)
Definition empty_table {T} : AddressMapFlat T := Node ∅ None None.

(** The result of a lookup: the returned value, the address array as the
    call leaves it, and the capture sink as the call leaves it. *)
Abbreviation LookupResult T :=
  (option T * MultistringAddress * option (list string))%type.

(** [wc_values.push(part)] under [if (wc_values)]. *)
Definition push_wc (wc_values : option (list string)) (part : string)
  : option (list string) :=
  match wc_values with
  | Some l => Some (l ++ [part])
  | None => None
  end.

Section Lookup.
Context {T : Type} `{Truthy T}.

(** [getFromAddrMapFlat(map, addr, wc_values)].

    [addr.shift()] removes the head of the array; [!part] holds when the
    array was empty ([part] is [undefined]) and also when the head is the
    empty string, and in both cases the function returns before
    [addr.unshift(part)].  The recursive calls go to children of [map];
    they are taken under [fmap] so that the recursion is structural in
    the trie ([getFromAddrMapFlat_unfold] gives the equation with the
    plain lookups [map[part]] and [map[WildcardEntryKey]]). *)
Fixpoint getFromAddrMapFlat (map : AddressMapFlat T)
  : MultistringAddress -> option (list string) -> LookupResult T :=
  let in_named := getFromAddrMapFlat <$> named map in
  let in_wildcard := getFromAddrMapFlat <$> wildcard_entry map in
  fun addr wc_values =>
    match addr with
    | [] => (default_entry map, [], wc_values)
    | part :: addr =>
      if String.eqb part "" then (default_entry map, addr, wc_values)
      else
        let '(data, addr, wc_values) :=
          match in_named !! part with
          | Some get_child => get_child addr wc_values
          | None => (None, addr, wc_values)
          end in
        let '(data, addr, wc_values) :=
          match is_truthy data, in_wildcard with
          | false, Some get_wild => get_wild addr (push_wc wc_values part)
          | _, _ => (data, addr, wc_values)
          end in
        (data, part :: addr, wc_values)
    end.
End Lookup.

(** [const key = part || WildcardEntryKey]: [None] is the wildcard key. *)
Definition key_of (part : option string) : option string :=
  match part with
  | Some s => if String.eqb s "" then None else Some s
  | None => None
  end.

(** The loop and the final assignment of [AddressMap.put], on the table:
    each step creates the child [{}] when it is missing and moves into it;
    at the end the default is deleted ([value] absent) or assigned. *)
Fixpoint put_flat {T} (last_table : AddressMapFlat T)
    (addr : WildcardMultistringAddress) (value : option T)
  : AddressMapFlat T :=
  match addr with
  | [] =>
    if Utils.isUndef value
    then Node (named last_table) (wildcard_entry last_table) None
    else Node (named last_table) (wildcard_entry last_table) value
  | part :: addr =>
    match key_of part with
    | Some key =>
      let child := default empty_table (named last_table !! key) in
      Node (<[key := put_flat child addr value]> (named last_table))
           (wildcard_entry last_table) (default_entry last_table)
    | None =>
      let child := default empty_table (wildcard_entry last_table) in
      Node (named last_table) (Some (put_flat child addr value))
           (default_entry last_table)
    end
  end.

(** [class AddressMap<T>]. *)
Record AddressMap (T : Type) := { table : AddressMapFlat T }.
Arguments table {T} _.
Arguments Build_AddressMap {T} _.

(** [new AddressMap()]. *)
Definition new {T} : AddressMap T := {| table := empty_table |}.

Definition put {T} (this : AddressMap T)
    (addr : WildcardMultistringAddress) (value : option T) : AddressMap T :=
  {| table := put_flat (table this) addr value |}.

(** [get]: [getFromAddrMapFlat(...) || this.table[DefaultEntryKey]]. *)
Definition get {T} `{Truthy T} (this : AddressMap T)
    (addr : MultistringAddress) (wc_values : option (list string))
  : LookupResult T :=
  let '(data, addr, wc_values) :=
    getFromAddrMapFlat (table this) addr wc_values in
  (js_or data (default_entry (table this)), addr, wc_values).

End AddrMap.

(** ** accesscontrol.ts *)
Module AccessControl.
Import AddrMap.

(** [type AccessPolicy = boolean]. *)
Definition AccessPolicy := bool.
Definition ALLOW : AccessPolicy := true.
Definition DENY : AccessPolicy := false.

(** [type OptAccessPolicy = AccessPolicy | undefined | null]; [undefined]
    and [null] (the constant [OptAccessPolicy.NONE]) are both [None]:
    the code tells them from a policy with [isDefined] only. *)
Definition OptAccessPolicy := option AccessPolicy.
Definition NONE : OptAccessPolicy := None.

Section Controllers.
(** [Opts] stands for [CanCallOpts], which the controllers of this
    section only pass on.  A [can] method is a JavaScript function and
    may have effects (the tests record calls in an array): it works on
    a [World], the state outside the controller. *)
Context {Opts World : Type}.

Definition AccessCanFunction : Type :=
  MultistringAddress -> Opts -> World -> OptAccessPolicy * World.

(** [interface AccessController]. *)
Record AccessController := { can : AccessCanFunction }.

Definition AllowAccessController : AccessController :=
  {| can := fun _ _ w => (Some ALLOW, w) |}.

Definition DenyAccessController : AccessController :=
  {| can := fun _ _ w => (Some DENY, w) |}.

Definition FunctionAccessController (f : AccessCanFunction)
  : AccessController := {| can := f |}.

(** [Array.prototype.some]: the callback runs on the elements in
    order until one of its results is truthy. *)
Fixpoint some_ {A St : Type} (callback : A -> St -> bool * St)
    (array : list A) (st : St) : bool * St :=
  match array with
  | [] => (false, st)
  | x :: array =>
    let '(found, st) := callback x st in
    if found then (true, st) else some_ callback array st
  end.

(** [class ChainedAccessController]. *)
Record ChainedAccessController := {
  access_chain : list AccessController;
  default_ap : OptAccessPolicy
}.

(** The callback [(ctrl) => isDefined((val = ctrl.can(addr, opts)))]
    of [ChainedAccessController.can]; its state is the local variable
    [val] with the world. *)
Definition chain_callback (addr : MultistringAddress) (opts : Opts)
    (ctrl : AccessController) (st : OptAccessPolicy * World)
  : bool * (OptAccessPolicy * World) :=
  let '(val, w) := can ctrl addr opts st.2 in
  (Utils.isDefined val, (val, w)).

(** [ChainedAccessController.can]. *)
Definition can_chained (this : ChainedAccessController)
    (addr : MultistringAddress) (opts : Opts) (w : World)
  : OptAccessPolicy * World :=
  let '(_, (val, w)) :=
    some_ (chain_callback addr opts) (access_chain this) (None, w) in
  (if Utils.isDefined val then val else default_ap this, w).

(** [class LegacyAccessController]: a policy lookup in an AddressMap
    ([to] is looked up without a capture sink). *)
Record LegacyAccessController := { legacy_map : AddressMap AccessPolicy }.

Definition can_legacy (this : LegacyAccessController)
    (to : MultistringAddress) : OptAccessPolicy :=
  (get (legacy_map this) to None).1.1.

(** The controllers of a list are invoked in order from the world [w],
    each answers UNDECIDED, and the world is [w'] afterwards. *)
Inductive all_undecided (addr : MultistringAddress) (opts : Opts)
  : list AccessController -> World -> World -> Prop :=
| all_undecided_nil w : all_undecided addr opts [] w w
| all_undecided_cons ctrl ctrls w w1 w2 :
    can ctrl addr opts w = (None, w1) ->
    all_undecided addr opts ctrls w1 w2 ->
    all_undecided addr opts (ctrl :: ctrls) w w2.
End Controllers.
Arguments AccessController : clear implicits.
Arguments ChainedAccessController : clear implicits.
Arguments AccessCanFunction : clear implicits.
End AccessControl.

(** ** serializer.ts *)
Module Serializer.

(** [type Primitive]; numbers are integers in the model. *)
Inductive Primitive :=
| PUndefined
| PNull
| PBoolean (b : bool)
| PNumber (n : Z)
| PString (s : string)
| PBigInt (n : Z).

(** A transport-native object (a buffer, a typed array, a message port),
    known by its identity. *)
Definition Transferable := nat.

(** [type SerializedData]. *)
Inductive SerializedData :=
| SPrimitive (p : Primitive)
| SArray (items : list SerializedData)
| SObject (fields : list (string * SerializedData))
| STransferable (t : Transferable).

(** The own properties of an [Error] that [rpcSerialize] reads.  The
    three positional properties exist in some runtimes only; an absent
    one reads as [undefined]. *)
Record ErrorFields := {
  name : string;
  message : string;
  stack : string;
  columnNumber : Primitive;
  lineNumber : Primitive;
  fileName : Primitive
}.

(** What a [toRpcSerialized] method returns, with the transferables it
    pushed: it is called with the value and the [xfer] array.  The model
    has the methods that return; a property [toRpcSerialized] that is
    truthy and not a function, or a method that throws, makes
    [rpcSerialize] throw at that point. *)
Definition SerializationFunction (Self : Type) : Type :=
  Self -> list Transferable -> SerializedData * list Transferable.

(** [type SerializableData], with the values that TypeScript lets in
    through casts (symbols, functions).  An object or an error may carry
    a [toRpcSerialized] method.  The values of the model are finite
    trees: on a value that contains itself [rpcSerialize] recurses until
    the stack is exhausted. *)
Inductive SerializableData :=
| DPrimitive (p : Primitive)
| DSymbol
| DFunction
| DCustom (hook : SerializationFunction unit)
| DTransferable (t : Transferable)
| DError (e : ErrorFields) (hook : option (SerializationFunction ErrorFields))
| DArray (items : list SerializableData)
| DObject (fields : list (string * SerializableData)).

(** A result or a thrown [TypeError] with its message. *)
Inductive Exc (A : Type) :=
| Ok (a : A)
| Throw (message : string).
Arguments Ok {A} _.
Arguments Throw {A} _.

Definition bind {A B} (m : Exc A) (f : A -> Exc B) : Exc B :=
  match m with
  | Ok a => f a
  | Throw msg => Throw msg
  end.

Definition redacted : string := "Stack trace redacted for security reasons".

(** [robj[k] = v] on the object [{}] under construction, [members] being
    the properties assigned after it.  The assignment creates an own
    property, except under the key [__proto__]: that is the setter
    inherited from [Object.prototype], which gives [robj] another
    prototype (when [v] is an object or [null]) and no property.  The
    prototype is not part of a serialized value. *)
Definition set_member (k : string) (v : SerializedData)
    (members : list (string * SerializedData))
  : list (string * SerializedData) :=
  if String.eqb k "__proto__" then members else (k, v) :: members.

(** [rpcSerialize(data, xfer)]: the serialized value and [xfer] after
    the pushes, or the exception thrown. *)
Fixpoint rpcSerialize (data : SerializableData) (xfer : list Transferable)
  : Exc (SerializedData * list Transferable) :=
  match data with
  | DCustom hook => Ok (hook tt xfer)
  | DError e (Some hook) => Ok (hook e xfer)
  | DPrimitive p => Ok (SPrimitive p, xfer)
  | DSymbol => Throw "Symbols cannot be serialized"
  | DFunction => Throw "Functions cannot be serialized"
  | DTransferable t => Ok (STransferable t, xfer ++ [t])
  | DError e None =>
    Ok (SObject [("name", SPrimitive (PString (name e)));
                 ("message", SPrimitive (PString (message e)));
                 ("stack", SPrimitive (PString redacted));
                 ("columnNumber", SPrimitive (columnNumber e));
                 ("lineNumber", SPrimitive (lineNumber e));
                 ("fileName", SPrimitive (fileName e))], xfer)
  | DArray items =>
    let fix map_items (items : list SerializableData) xfer :=
      match items with
      | [] => Ok ([], xfer)
      | e :: items =>
        bind (rpcSerialize e xfer) (fun '(v, xfer) =>
        bind (map_items items xfer) (fun '(vs, xfer) =>
        Ok (v :: vs, xfer)))
      end in
    bind (map_items items xfer) (fun '(vs, xfer) => Ok (SArray vs, xfer))
  | DObject fields =>
    let fix each_key (fields : list (string * SerializableData)) xfer :=
      match fields with
      | [] => Ok ([], xfer)
      | (k, e) :: fields =>
        bind (rpcSerialize e xfer) (fun '(v, xfer) =>
        bind (each_key fields xfer) (fun '(vs, xfer) =>
        Ok (set_member k v vs, xfer)))
      end in
    bind (each_key fields xfer) (fun '(vs, xfer) => Ok (SObject vs, xfer))
  end.

(** [args.map((d) => rpcSerialize(d, xfer))], as in [RpcChannel.send]. *)
Fixpoint rpcSerialize_all (args : list SerializableData)
    (xfer : list Transferable)
  : Exc (list SerializedData * list Transferable) :=
  match args with
  | [] => Ok ([], xfer)
  | d :: args =>
    bind (rpcSerialize d xfer) (fun '(v, xfer) =>
    bind (rpcSerialize_all args xfer) (fun '(vs, xfer) =>
    Ok (v :: vs, xfer)))
  end.

(** Two errors that differ at most in their [stack]. *)
Definition same_but_stack (e1 e2 : ErrorFields) : Prop :=
  name e1 = name e2 ∧ message e1 = message e2 ∧
  columnNumber e1 = columnNumber e2 ∧ lineNumber e1 = lineNumber e2 ∧
  fileName e1 = fileName e2.

End Serializer.

(** ** registry.ts

    The registry and the channel, for handlers that return or throw in
    the turn in which they are called.  [call] is modelled with its
    promise; [generate], [call_obj] and [registerAll] are not part of the
    model (the argument remapping decorator is modelled apart, below).
    Counters are natural numbers; the channel is described while its
    counter of correlation
    addresses is below 2^53, where JavaScript numbers are exact (see
    [Correlation] for the counter at 2^53). *)
Module Registry.
Import AddrMap AccessControl Serializer.

(** Truthiness of the values that travel in messages. *)
Definition primitive_truthy (p : Primitive) : bool :=
  match p with
  | PUndefined | PNull => false
  | PBoolean b => b
  | PNumber n | PBigInt n => negb (Z.eqb n 0)
  | PString s => negb (String.eqb s "")
  end.

#[export] Instance serialized_truthy : Truthy SerializedData :=
  fun v => match v with SPrimitive p => primitive_truthy p | _ => true end.

#[export] Instance serializable_truthy : Truthy SerializableData :=
  fun v => match v with DPrimitive p => primitive_truthy p | _ => true end.

Definition undefined : SerializableData := DPrimitive PUndefined.

(** [new E(message)] for the error classes of this file; the stack is
    whatever the runtime recorded. *)
Definition new_Error (name message : string) : SerializableData :=
  DError {| name := name; message := message; stack := "<stack>";
            columnNumber := PUndefined; lineNumber := PUndefined;
            fileName := PUndefined |} None.

Definition AccessDeniedError : SerializableData :=
  new_Error "AccessDeniedError" "Access denied".

Definition undefined_function_error : SerializableData :=
  new_Error "TypeError" "Function at address is undefined".

(** [error.name] on a received value: an own property of an object. *)
Definition name_of (error : SerializedData) : option SerializedData :=
  match error with
  | SObject fields =>
    snd <$> List.find (fun kv => String.eqb kv.1 "name") fields
  | _ => None
  end.

(** [interface RpcMessage]; [return_type] is ['promise' | 'generator']. *)
Inductive ReturnType := promise | generator.

Record RpcMessage := {
  to : MultistringAddress;
  args : list SerializedData;
  return_addr : option MultistringAddress;
  return_type : option ReturnType
}.

(** What calling a handler does: it returns a value or throws one.
    (Handlers that return a promise or an async generator are answered
    from later turns of the event loop, outside [receive].) *)
Inductive HandlerOutcome :=
| Returns (data : SerializableData)
| Throws (e : SerializableData).

(** [interface RpcFunction]: the closures the channel itself registers,
    and application functions with their optional [RpcRemappedFunction]
    pointer. *)
Inductive RpcFunction :=
| CloseHandler
| CallReturnHandler (id : N)
| UserFunction
    (body : list string -> list SerializedData -> HandlerOutcome)
    (remapped : option RpcFunction).

(** Functions are objects: always truthy. *)
#[export] Instance function_truthy : Truthy RpcFunction := fun _ => true.

(** [interface CanCallOpts] (the [channel] member is the receiver). *)
Record CanCallOpts := {
  opt_args : list SerializedData;
  opt_wc : list string;
  opt_func : option RpcFunction
}.

(** The controllers a channel consults do not change the channel.  A
    controller of the model returns its verdict; one that throws makes
    [receive] throw where it calls [can], before anything is sent. *)
Abbreviation Controller := (AccessController CanCallOpts unit).

(** [class RpcHandlerRegistry extends ChainedAccessController]. *)
Record RpcHandlerRegistry := {
  chain : ChainedAccessController CanCallOpts unit;
  map : AddressMap RpcFunction;
  return_seq_id : N
}.

(** [new RpcHandlerRegistry()]: [super(undefined)], an empty map, 0. *)
Definition new_registry : RpcHandlerRegistry :=
  {| chain := {| access_chain := []; default_ap := None |};
     map := AddrMap.new;
     return_seq_id := 0 |}.

(** [while (func[RpcRemappedFunction]) func = func[RpcRemappedFunction]]. *)
Fixpoint resolve_remapped (func : RpcFunction) : RpcFunction :=
  match func with
  | UserFunction _ (Some target) => resolve_remapped target
  | _ => func
  end.

Definition register (this : RpcHandlerRegistry)
    (address : WildcardMultistringAddress) (func : RpcFunction)
  : RpcHandlerRegistry :=
  {| chain := chain this;
     map := put (map this) address (Some (resolve_remapped func));
     return_seq_id := return_seq_id this |}.

Definition unregister (this : RpcHandlerRegistry)
    (address : WildcardMultistringAddress) : RpcHandlerRegistry :=
  {| chain := chain this;
     map := put (map this) address None;
     return_seq_id := return_seq_id this |}.

(** Modelled from the spec: [AddressMap.clear], which [clear] calls and
    the address map of this repository does not define; closing a channel
    "clears all registered handlers on the internal registry". *)
Definition AddressMap_clear {T} (m : AddressMap T) : AddressMap T :=
  AddrMap.new.

Definition clear (this : RpcHandlerRegistry) : RpcHandlerRegistry :=
  {| chain := chain this;
     map := AddressMap_clear (map this);
     return_seq_id := return_seq_id this |}.

(** The address [['_', 'ret', `id${n}`]]. *)
Definition seq_addr (n : N) : MultistringAddress :=
  ["_"; "ret"; "id" +:+ pretty n].

(** [nextSeqAddr()] while the counter is below 2^53, where [++] on a
    JavaScript number is exact: the address for the current counter, and
    the registry with the counter incremented.  This is the allocator as
    the channel uses it; [Correlation.nextSeqAddr] is the function on
    every counter value reached from 0 and agrees with this one below
    2^53. *)
Definition nextSeqAddr (this : RpcHandlerRegistry)
  : MultistringAddress * RpcHandlerRegistry :=
  (seq_addr (return_seq_id this),
   {| chain := chain this;
      map := map this;
      return_seq_id := return_seq_id this + 1 |}).

(** [interface RpcChannelOpts]; times are in milliseconds. *)
Record RpcChannelOpts := {
  timeout : option Z;
  keep_alive_interval : option Z;
  await_first_msg : option bool
}.

(** The value of the getter [opts]; [timeout / 2] need not be whole. *)
Record ReadOpts := {
  r_timeout : Z;
  r_keep_alive_interval : Q;
  r_await_first_msg : bool
}.

Inductive RpcState := INACTIVE | ACTIVE | CLOSED.

(** How a promise returned by [call] settles. *)
Inductive Rejection :=
| Forwarded (error : SerializedData)  (* a ForwardedError carrying [error] *)
| Raw (error : SerializedData)
| ChannelClosed                       (* Error('Channel closed') *)
| Thrown (message : string).          (* the executor threw *)

Inductive Settlement :=
| Resolved (data : SerializedData)
| Rejected (reason : Rejection).

(** What a channel does that its environment can see, in order. *)
Inductive Event :=
| Sent (msg : RpcMessage) (xfer : list Transferable)
| Invoked (func : RpcFunction) (wc : list string)
          (args : list SerializedData)
| StateChanged (state old_state : RpcState)
| Settled (id : N) (result : Settlement).

(** [class RpcChannel].  The fields of the class, then the state the
    class keeps in closures and in its event emitter: the promises of
    [call] that are not settled, the [onChannelClose] listeners of
    [call], the [start()] calls awaiting a first message, those whose
    wait has ended but that have not resumed, and the record of events
    ([c_send] appends the message it is given). *)
Record RpcChannel := {
  _i_reg : RpcHandlerRegistry;
  access_controller : option Controller;
  active_timeout : option Z;
  active_keepalive : option Q;
  _state : RpcState;
  default_policy : AccessPolicy;
  reg : RpcHandlerRegistry;
  _opts : RpcChannelOpts;
  pending : list N;
  close_listeners : list N;
  start_waiting : nat;
  start_ready : nat;
  events : list Event
}.

Definition set_i_reg (this : RpcChannel) (r : RpcHandlerRegistry) :=
  {| _i_reg := r; access_controller := access_controller this;
     active_timeout := active_timeout this;
     active_keepalive := active_keepalive this; _state := _state this;
     default_policy := default_policy this; reg := reg this;
     _opts := _opts this; pending := pending this;
     close_listeners := close_listeners this;
     start_waiting := start_waiting this; start_ready := start_ready this;
     events := events this |}.

Definition set_reg (this : RpcChannel) (r : RpcHandlerRegistry) :=
  {| _i_reg := _i_reg this; access_controller := access_controller this;
     active_timeout := active_timeout this;
     active_keepalive := active_keepalive this; _state := _state this;
     default_policy := default_policy this; reg := r;
     _opts := _opts this; pending := pending this;
     close_listeners := close_listeners this;
     start_waiting := start_waiting this; start_ready := start_ready this;
     events := events this |}.

Definition set_active_timeout (this : RpcChannel) (t : option Z) :=
  {| _i_reg := _i_reg this; access_controller := access_controller this;
     active_timeout := t;
     active_keepalive := active_keepalive this; _state := _state this;
     default_policy := default_policy this; reg := reg this;
     _opts := _opts this; pending := pending this;
     close_listeners := close_listeners this;
     start_waiting := start_waiting this; start_ready := start_ready this;
     events := events this |}.

Definition set_active_keepalive (this : RpcChannel) (t : option Q) :=
  {| _i_reg := _i_reg this; access_controller := access_controller this;
     active_timeout := active_timeout this;
     active_keepalive := t; _state := _state this;
     default_policy := default_policy this; reg := reg this;
     _opts := _opts this; pending := pending this;
     close_listeners := close_listeners this;
     start_waiting := start_waiting this; start_ready := start_ready this;
     events := events this |}.

Definition set_state (this : RpcChannel) (s : RpcState) :=
  {| _i_reg := _i_reg this; access_controller := access_controller this;
     active_timeout := active_timeout this;
     active_keepalive := active_keepalive this; _state := s;
     default_policy := default_policy this; reg := reg this;
     _opts := _opts this; pending := pending this;
     close_listeners := close_listeners this;
     start_waiting := start_waiting this; start_ready := start_ready this;
     events := events this |}.

Definition set_opts (this : RpcChannel) (o : RpcChannelOpts) :=
  {| _i_reg := _i_reg this; access_controller := access_controller this;
     active_timeout := active_timeout this;
     active_keepalive := active_keepalive this; _state := _state this;
     default_policy := default_policy this; reg := reg this;
     _opts := o; pending := pending this;
     close_listeners := close_listeners this;
     start_waiting := start_waiting this; start_ready := start_ready this;
     events := events this |}.

Definition set_pending (this : RpcChannel) (p : list N) :=
  {| _i_reg := _i_reg this; access_controller := access_controller this;
     active_timeout := active_timeout this;
     active_keepalive := active_keepalive this; _state := _state this;
     default_policy := default_policy this; reg := reg this;
     _opts := _opts this; pending := p;
     close_listeners := close_listeners this;
     start_waiting := start_waiting this; start_ready := start_ready this;
     events := events this |}.

Definition set_close_listeners (this : RpcChannel) (l : list N) :=
  {| _i_reg := _i_reg this; access_controller := access_controller this;
     active_timeout := active_timeout this;
     active_keepalive := active_keepalive this; _state := _state this;
     default_policy := default_policy this; reg := reg this;
     _opts := _opts this; pending := pending this;
     close_listeners := l;
     start_waiting := start_waiting this; start_ready := start_ready this;
     events := events this |}.

Definition set_start (this : RpcChannel) (waiting ready : nat) :=
  {| _i_reg := _i_reg this; access_controller := access_controller this;
     active_timeout := active_timeout this;
     active_keepalive := active_keepalive this; _state := _state this;
     default_policy := default_policy this; reg := reg this;
     _opts := _opts this; pending := pending this;
     close_listeners := close_listeners this;
     start_waiting := waiting; start_ready := ready;
     events := events this |}.

(** An event happens. *)
Definition emit (this : RpcChannel) (e : Event) :=
  {| _i_reg := _i_reg this; access_controller := access_controller this;
     active_timeout := active_timeout this;
     active_keepalive := active_keepalive this; _state := _state this;
     default_policy := default_policy this; reg := reg this;
     _opts := _opts this; pending := pending this;
     close_listeners := close_listeners this;
     start_waiting := start_waiting this; start_ready := start_ready this;
     events := events this ++ [e] |}.

(** [get opts()]. *)
Definition opts (this : RpcChannel) : ReadOpts :=
  let timeout := js_or (timeout (_opts this)) (Some 0%Z) in
  let timeout := default 0%Z timeout in
  {| r_timeout := timeout;
     r_keep_alive_interval :=
       match keep_alive_interval (_opts this) with
       | Some k => if truthy k then inject_Z k else (inject_Z timeout / 2)%Q
       | None => (inject_Z timeout / 2)%Q
       end;
     r_await_first_msg :=
       match await_first_msg (_opts this) with
       | Some b => b
       | None => false
       end |}.

(** A non-zero number. *)
Definition Q_truthy (q : Q) : bool := negb (Qeq_bool q 0).

(** [resetTimeout()]. *)
Definition resetTimeout (this : RpcChannel) : RpcChannel :=
  let this := set_active_timeout this None in
  match _state this with
  | ACTIVE =>
    if truthy (r_timeout (opts this))
    then set_active_timeout this (Some (r_timeout (opts this)))
    else this
  | _ => this
  end.

(** The transport hook [c_send(msg, xfer)]: the message leaves. *)
Definition c_send (this : RpcChannel) (msg : RpcMessage)
    (xfer : list Transferable) : RpcChannel :=
  emit this (Sent msg xfer).

(** [send(to, args, return_addr, return_type)]; it throws when an
    argument cannot be serialized. *)
Definition send (this : RpcChannel) (to : MultistringAddress)
    (args : list SerializableData)
    (return_addr : option MultistringAddress) (return_type : ReturnType)
  : Exc RpcChannel :=
  bind (rpcSerialize_all args []) (fun '(args, xfer) =>
  Ok (c_send this {| to := to; args := args; return_addr := return_addr;
                     return_type := Some return_type |} xfer)).

(** [try { this.send(...) } catch (e) {}]. *)
Definition try_send (this : RpcChannel) (to : MultistringAddress)
  : RpcChannel :=
  match send this to [] None promise with
  | Ok this => this
  | Throw _ => this
  end.

(** [sendKeepAlive()]. *)
Definition sendKeepAlive (this : RpcChannel) : RpcChannel :=
  if Q_truthy (r_keep_alive_interval (opts this))
  then try_send this ["_"; "keepalive"]
  else this.

(** [resetKeepAlive()]. *)
Definition resetKeepAlive (this : RpcChannel) : RpcChannel :=
  let this := sendKeepAlive this in
  let this := set_active_keepalive this None in
  if Q_truthy (r_keep_alive_interval (opts this))
  then set_active_keepalive this (Some (r_keep_alive_interval (opts this)))
  else this.

(** [setTimeout(timeout, keep_alive_interval)]. *)
Definition setTimeout (this : RpcChannel) (t k : option Z) : RpcChannel :=
  let this := set_opts this
    {| timeout := t; keep_alive_interval := k;
       await_first_msg := await_first_msg (_opts this) |} in
  resetKeepAlive (resetTimeout this).

(** [setAwaitFirstMsg(should)]. *)
Definition setAwaitFirstMsg (this : RpcChannel) (should : bool)
  : RpcChannel :=
  set_opts this
    {| timeout := timeout (_opts this);
       keep_alive_interval := keep_alive_interval (_opts this);
       await_first_msg := Some should |}.

(** A promise settles at most once: [resolve] and [reject] do nothing
    on a settled promise. *)
Definition settle (this : RpcChannel) (id : N) (result : Settlement)
  : RpcChannel :=
  if decide (id ∈ pending this)
  then emit (set_pending this (List.filter (fun i => negb (N.eqb i id))
                                           (pending this)))
            (Settled id result)
  else this.

(** [onDone] of [call]: [this.unregister(return_addr)] (on the
    application registry) and [this.off('close', onChannelClose)]. *)
Definition onDone (this : RpcChannel) (id : N) : RpcChannel :=
  let this := set_reg this (unregister (reg this) (Some <$> seq_addr id)) in
  set_close_listeners this
    (List.filter (fun i => negb (N.eqb i id)) (close_listeners this)).

(** [onChannelClose] of [call]. *)
Definition onChannelClose (this : RpcChannel) (id : N) : RpcChannel :=
  settle (onDone this id) id (Rejected ChannelClosed).

(** The waits of [start()] end (its listener [closefunc]). *)
Definition release_start (this : RpcChannel) : RpcChannel :=
  set_start this 0 (start_ready this + start_waiting this).

(** [emit('close')]: the listeners of [call], then those of [start]. *)
Definition emit_close (this : RpcChannel) : RpcChannel :=
  release_start (fold_left onChannelClose (close_listeners this) this).

(** [emit('rawmessage')]: [resetTimeout], then the listeners of
    [start]. *)
Definition emit_rawmessage (this : RpcChannel) : RpcChannel :=
  release_start (resetTimeout this).

(** [_stateChange(state)]. *)
Definition _stateChange (this : RpcChannel) (state : RpcState)
  : RpcChannel :=
  let old_state := _state this in
  let this := set_state this state in
  let this := emit this (StateChanged state old_state) in
  match state with
  | CLOSED => emit_close this
  | _ => this
  end.

(** [close(send = true)]. *)
Definition close (this : RpcChannel) (send : bool) : RpcChannel :=
  match _state this with
  | CLOSED => this
  | _ =>
    let this := if send then try_send this ["_"; "close"] else this in
    let this := _stateChange this CLOSED in
    let this := set_i_reg this (clear (_i_reg this)) in
    let this := set_active_timeout this None in
    set_active_keepalive this None
  end.

(** [start()] after its [await]. *)
Definition start_continue (this : RpcChannel) : RpcChannel :=
  match _state this with
  | INACTIVE => resetTimeout (_stateChange this ACTIVE)
  | _ => this
  end.

(** [start()] up to its first suspension. *)
Definition start (this : RpcChannel) : RpcChannel :=
  match _state this with
  | INACTIVE =>
    if r_await_first_msg (opts this)
    then set_start this (S (start_waiting this)) (start_ready this)
    else start_continue this
  | _ => this
  end.

(** A [start()] whose wait has ended resumes. *)
Definition resume_start (this : RpcChannel) : RpcChannel :=
  match start_ready this with
  | O => this
  | S n => start_continue (set_start this (start_waiting this) n)
  end.

(** [new RpcChannel(c_send, default_policy, reg, _opts)]. *)
Definition new_channel (default_policy : AccessPolicy)
    (reg : RpcHandlerRegistry) (_opts : RpcChannelOpts) : RpcChannel :=
  let this :=
    {| _i_reg := register new_registry [Some "_"; Some "close"] CloseHandler;
       access_controller :=
         Some {| can := can_chained
                          {| access_chain := []; default_ap := None |} |};
       active_timeout := None; active_keepalive := None;
       _state := INACTIVE; default_policy := default_policy;
       reg := reg; _opts := _opts; pending := []; close_listeners := [];
       start_waiting := 0; start_ready := 0; events := [] |} in
  resetKeepAlive this.

(** The default of the parameter [_opts]: [{}]. *)
Definition no_opts : RpcChannelOpts :=
  {| timeout := None; keep_alive_interval := None;
     await_first_msg := None |}.

(** [RpcChannel.can]. *)
Definition can (this : RpcChannel) (addr : MultistringAddress)
    (opts : CanCallOpts) : OptAccessPolicy :=
  let val :=
    match access_controller this with
    | Some ctrl => (AccessControl.can ctrl addr opts tt).1
    | None => None
    end in
  if Utils.isDefined val then val
  else
    let val := (can_chained (chain (_i_reg this)) addr opts tt).1 in
    if Utils.isDefined val then val
    else Some (default_policy this).

(** [call(to, args)]: the executor of the promise registers the return
    handler, listens for the close and sends.  The promise is known by
    the sequence number of its return address. *)
Definition call (this : RpcChannel) (to : MultistringAddress)
    (args : list SerializableData) : N * RpcChannel :=
  let id := return_seq_id (_i_reg this) in
  let '(return_addr, i_reg) := nextSeqAddr (_i_reg this) in
  let this := set_i_reg this i_reg in
  let this := set_pending this (pending this ++ [id]) in
  let this := set_i_reg this
    (register (_i_reg this) (Some <$> return_addr) (CallReturnHandler id)) in
  let this := set_close_listeners this (close_listeners this ++ [id]) in
  match send this to args (Some return_addr) promise with
  | Ok this => (id, this)
  | Throw msg => (id, settle this id (Rejected (Thrown msg)))
  end.

(** The handler that [call] registers at its return address, called by
    [receive] with [(this, wc, data, error)]. *)
Definition call_return (this : RpcChannel) (id : N)
    (args : list SerializedData) : RpcChannel :=
  let data := default (SPrimitive PUndefined) (args !! 0%nat) in
  let error := args !! 1%nat in
  let this :=
    if is_truthy error then
      let error := default (SPrimitive PUndefined) error in
      if is_truthy (name_of error)
      then settle this id (Rejected (Forwarded error))
      else settle this id (Rejected (Raw error))
    else settle this id (Resolved data) in
  onDone this id.

(** [func(this, wc, ...val.args)]. *)
Definition invoke (this : RpcChannel) (func : RpcFunction)
    (wc : list string) (args : list SerializedData)
  : RpcChannel * HandlerOutcome :=
  let this := emit this (Invoked func wc args) in
  match func with
  | CloseHandler => (close this false, Returns undefined)
  | CallReturnHandler id => (call_return this id args, Returns undefined)
  | UserFunction body _ => (this, body wc args)
  end.

(** The result of [receive]: the channel, and the message of the
    exception that escapes, if one does. *)
Abbreviation Outcome := (RpcChannel * option string)%type.

Definition send_or_throw (this : RpcChannel) (to : MultistringAddress)
    (args : list SerializableData) : Outcome :=
  match send this to args None promise with
  | Ok this => (this, None)
  | Throw msg => (this, Some msg)
  end.

(** [maybeReturn(data, error)] inside [receive(val)], for a handler
    result that is a plain value. *)
Definition maybeReturn (this : RpcChannel) (val : RpcMessage)
    (data error : SerializableData) : Outcome :=
  match return_addr val with
  | None => (this, None)
  | Some addr =>
    match return_type val with
    | Some generator =>
      if truthy error
      then send_or_throw this addr
             [undefined; error; DPrimitive (PBoolean true)]
      else
        match send_or_throw this addr
                [data; undefined; DPrimitive (PBoolean false)] with
        | (this, Some msg) => (this, Some msg)
        | (this, None) =>
          match send_or_throw this addr
                  [undefined; undefined; DPrimitive (PBoolean true)] with
          | (this, Some msg) => (this, Some msg)
          | (this, None) =>
            (set_reg this
               (unregister (reg this)
                  (Some <$> ("_" :: "stopgen" :: addr))), None)
          end
        end
    | _ =>
      if truthy error
      then send_or_throw this addr [undefined; error]
      else send_or_throw this addr [data; undefined]
    end
  end.

(** [const wc = []] and
    [this._i_reg.map.get(val.to, wc) || this.reg.map.get(val.to, wc)]:
    the handler, [val.to] and [wc] as the two lookups leave them. *)
Definition lookup_handler (this : RpcChannel) (to : MultistringAddress)
  : option RpcFunction * MultistringAddress * list string :=
  let '(func, to, wc) := get (map (_i_reg this)) to (Some []) in
  let '(func, to, wc) :=
    if is_truthy func then (func, to, wc)
    else get (map (reg this)) to wc in
  (func, to, default [] wc).

(** [receive(val)]. *)
Definition receive (this : RpcChannel) (val : RpcMessage) : Outcome :=
  match _state this with
  | CLOSED => (this, None)
  | _ =>
    let this := emit_rawmessage this in
    let '(func, to, wc) := lookup_handler this (to val) in
    let security_policy :=
      can this to {| opt_args := args val; opt_wc := wc;
                     opt_func := func |} in
    if decide (security_policy = Some DENY)
    then maybeReturn this val undefined AccessDeniedError
    else
      match func with
      | None => maybeReturn this val undefined undefined_function_error
      | Some func =>
        match invoke this func wc (args val) with
        | (this, Throws e) => maybeReturn this val undefined e
        | (this, Returns data) => maybeReturn this val data undefined
        end
      end
  end.

(** The operations on a channel and what each does to it. *)
Inductive Op :=
| OpStart
| OpResumeStart
| OpClose (send : bool)
| OpReceive (val : RpcMessage)
| OpTimerExpiry
| OpKeepAliveTick
| OpCall (to : MultistringAddress) (args : list SerializableData)
| OpSend (to : MultistringAddress) (args : list SerializableData)
| OpRegister (address : WildcardMultistringAddress) (func : RpcFunction)
| OpUnregister (address : WildcardMultistringAddress)
| OpSetTimeout (t k : option Z)
| OpSetAwaitFirstMsg (should : bool).

Definition step (this : RpcChannel) (op : Op) : RpcChannel :=
  match op with
  | OpStart => start this
  | OpResumeStart => resume_start this
  | OpClose send => close this send
  | OpReceive val => (receive this val).1
  | OpTimerExpiry =>
    match active_timeout this with
    | Some _ => set_active_timeout (close this true) None
    | None => this
    end
  | OpKeepAliveTick =>
    match active_keepalive this with
    | Some _ => sendKeepAlive this
    | None => this
    end
  | OpCall to args => (call this to args).2
  | OpSend to args => (send_or_throw this to args).1
  | OpRegister address func =>
    set_reg this (register (reg this) address func)
  | OpUnregister address => set_reg this (unregister (reg this) address)
  | OpSetTimeout t k => setTimeout this t k
  | OpSetAwaitFirstMsg should => setAwaitFirstMsg this should
  end.

Definition run (this : RpcChannel) (ops : list Op) : RpcChannel :=
  fold_left step ops this.

(** The order [INACTIVE -> ACTIVE -> CLOSED]. *)
Definition rank (s : RpcState) : nat :=
  match s with
  | INACTIVE => 0
  | ACTIVE => 1
  | CLOSED => 2
  end.

(** The message that answers a request with an error: to the return
    address, [[undefined, error]] under the promise protocol and
    [[undefined, error, true]] under the generator protocol, the error
    being the serialized form of an [Error] with this name and message. *)
Definition error_reply (addr : MultistringAddress)
    (protocol : option ReturnType) (name message : string) : RpcMessage :=
  let error :=
    SObject [("name", SPrimitive (PString name));
             ("message", SPrimitive (PString message));
             ("stack", SPrimitive (PString redacted));
             ("columnNumber", SPrimitive PUndefined);
             ("lineNumber", SPrimitive PUndefined);
             ("fileName", SPrimitive PUndefined)] in
  {| to := addr;
     args :=
       match protocol with
       | Some generator =>
         [SPrimitive PUndefined; error; SPrimitive (PBoolean true)]
       | _ => [SPrimitive PUndefined; error]
       end;
     return_addr := None;
     return_type := Some promise |}.

(** [c'] has the events of [c] and possibly more. *)
Definition extends (c c' : RpcChannel) : Prop :=
  exists rest, events c' = events c ++ rest.

(** The [message] property of a received error object. *)
Definition message_of (error : SerializedData) : option SerializedData :=
  match error with
  | SObject fields =>
    snd <$> List.find (fun kv => String.eqb kv.1 "message") fields
  | _ => None
  end.

End Registry.

(** ** registry.ts, continued: the counter of correlation addresses as a
    JavaScript number *)
Module Correlation.
Import AddrMap Registry.

(** [x++] on a number [x] that holds an integer between 0 and 2^53, as
    does every value that the counter reaches from 0: below 2^53 the sum
    [x + 1] is exact; at 2^53 it lies halfway between the two nearest
    numbers, 2^53 and 2^53 + 2, and is rounded to 2^53. *)
Definition post_increment (x : N) : N :=
  if (x <? 2 ^ 53)%N then (x + 1)%N else x.

(** [nextSeqAddr()]:
    [['_', 'ret', `id${this.return_seq_id++}`]]. *)
Definition nextSeqAddr (this : RpcHandlerRegistry)
  : MultistringAddress * RpcHandlerRegistry :=
  (seq_addr (return_seq_id this),
   {| chain := chain this;
      map := map this;
      return_seq_id := post_increment (return_seq_id this) |}).

(** [n] successive calls of [nextSeqAddr] on one registry: the addresses
    returned, in order, and the registry afterwards. *)
Fixpoint nextSeqAddr_times (n : nat) (this : RpcHandlerRegistry)
  : list MultistringAddress * RpcHandlerRegistry :=
  match n with
  | O => ([], this)
  | S n =>
    let '(addr, this) := nextSeqAddr this in
    let '(addrs, this) := nextSeqAddr_times n this in
    (addr :: addrs, this)
  end.

(** Registry instances live in a store, by object identity; a call of
    [nextSeqAddr] names the instance it is made on. *)
Definition nextSeqAddr_at (store : gmap nat RpcHandlerRegistry) (obj : nat)
  : option (MultistringAddress * gmap nat RpcHandlerRegistry) :=
  match store !! obj with
  | Some this =>
    let '(addr, this) := nextSeqAddr this in
    Some (addr, <[obj := this]> store)
  | None => None
  end.
End Correlation.

(** ** Reading a trie: the vocabulary of the statements about [AddrMap] *)
Module AddrMapSpec.
Import AddrMap.

(** A concrete address all of whose segments are non-empty strings. *)
Definition NoEmpty (addr : MultistringAddress) : Prop :=
  Forall (fun part => part ≠ "") addr.

(** The pattern [P] and the concrete address [A] differ only by wildcard
    segments: position by position, [P] has the segment of [A] or a
    wildcard. *)
Definition differs_by_wildcards
    (P : WildcardMultistringAddress) (A : MultistringAddress) : Prop :=
  Forall2 (fun p a => p = None ∨ p = Some a) P A.

(** The segments of [A] that stand at the wildcard positions of [P]. *)
Fixpoint wildcard_segments
    (P : WildcardMultistringAddress) (A : MultistringAddress)
  : list string :=
  match P, A with
  | p :: P, a :: A =>
    match key_of p with
    | None => a :: wildcard_segments P A
    | Some _ => wildcard_segments P A
    end
  | _, _ => []
  end.

Section Read.
Context {T : Type}.

(** The child of a node under a key ([None] is [WildcardEntryKey]). *)
Definition child (m : AddressMapFlat T) (key : option string)
  : option (AddressMapFlat T) :=
  match key with
  | Some s => named m !! s
  | None => wildcard_entry m
  end.

(** The node reached from [m] along a path of keys. *)
Fixpoint node_at (m : AddressMapFlat T) (path : list (option string))
  : option (AddressMapFlat T) :=
  match path with
  | [] => Some m
  | key :: path =>
    match child m key with
    | Some c => node_at c path
    | None => None
    end
  end.

(** The value stored at exactly the address [path]. *)
Definition stored_at (m : AddressMapFlat T) (path : list (option string))
  : option T :=
  match node_at m path with
  | Some n => default_entry n
  | None => None
  end.

(** Following the spec's words, "the next-most-specific ancestor's
    default": the value stored at the longest proper prefix of the
    address that stores one. *)
Fixpoint ancestor_default (m : AddressMapFlat T)
    (path : list (option string)) {struct path} : option T :=
  match path with
  | [] => None
  | key :: rest =>
    match rest, child m key with
    | _ :: _, Some c =>
      match ancestor_default c rest with
      | Some v => Some v
      | None => default_entry m
      end
    | _, _ => default_entry m
    end
  end.
End Read.

Section Walk.
Context {T : Type} `{Truthy T}.

(** The descent of [getFromAddrMapFlat] on an address without empty
    segments, written without the address array: the value found and
    what the descent pushes to the sink, the segments of abandoned
    wildcard branches included.  It serves the proofs; no statement
    takes it for what the sink should hold. *)
Fixpoint walk (m : AddressMapFlat T) (addr : MultistringAddress)
  : option T * list string :=
  match addr with
  | [] => (default_entry m, [])
  | part :: addr =>
    let '(data, seen) :=
      match named m !! part with
      | Some c => walk c addr
      | None => (None, [])
      end in
    if is_truthy data then (data, seen)
    else
      match wildcard_entry m with
      | Some w =>
        let '(data, seen_w) := walk w addr in
        (data, seen ++ part :: seen_w)
      | None => (data, seen)
      end
  end.

(** Two lookup results that a caller testing the value for truthiness
    cannot tell apart: the same address and sink, and values that are
    equal or both falsy. *)
Definition same_or_falsy (r1 r2 : LookupResult T) : Prop :=
  r1.1.2 = r2.1.2 ∧ r1.2 = r2.2 ∧
  (r1.1.1 = r2.1.1 ∨
   (is_truthy r1.1.1 = false ∧ is_truthy r2.1.1 = false)).
End Walk.
End AddrMapSpec.

(** ** addrmap.ts on the prototype chain

    The nodes of a trie are plain objects ([{}]): a property that a node
    does not own is read from [Object.prototype].  [Object.prototype]
    owns the accessor [__proto__] and eleven functions; it can also come
    to own entries of address maps, because [put] follows [__proto__]
    like any other key and then writes to [Object.prototype] itself.

    A realm is described by the entries that [Object.prototype] owns
    under string keys created by [put], under [WildcardEntryKey] and
    under [DefaultEntryKey]: a trie node of its own ([empty_table] while
    no [put] has reached it).  Nodes are created fresh and stored once,
    so the only object that two paths can share is [Object.prototype]
    together with what hangs below it.  The model follows the code into
    [Object.prototype]; it stops where the code reaches one of the
    built-in functions ([ReachesBuiltin]), whose properties it does not
    describe.  Entries written to [Object.prototype] by maps of another
    value type are not described either. *)
Module Realm.
Import AddrMap AddrMapSpec.

(** The function-valued properties of [Object.prototype]. *)
Definition inherited_functions : list string :=
  ["constructor"; "hasOwnProperty"; "isPrototypeOf";
   "propertyIsEnumerable"; "toLocaleString"; "toString"; "valueOf";
   "__defineGetter__"; "__defineSetter__"; "__lookupGetter__";
   "__lookupSetter__"].

Definition is_inherited_function (part : string) : bool :=
  existsb (String.eqb part) inherited_functions.

(** A segment that names no property of [Object.prototype]: on a plain
    object it can only name an own property. *)
Definition own_name (part : string) : Prop :=
  String.eqb part "__proto__" = false
  ∧ is_inherited_function part = false.

Definition own_names (addr : MultistringAddress) : Prop :=
  Forall own_name addr.

(** The same for a pattern, whose absent segments are the wildcard. *)
Definition own_keys (addr : WildcardMultistringAddress) : Prop :=
  Forall (fun part => match part with
                      | Some s => own_name s
                      | None => True
                      end) addr.

(** How a call ends: it returns, it throws a TypeError, it goes on
    inside a built-in function, or the bound on the number of nested
    calls was too small (which [getFromAddrMapFlat] below rules out). *)
Inductive Outcome (A : Type) :=
| Returns (a : A)
| ThrowsTypeError
| ReachesBuiltin
| Unfinished.
Arguments Returns {A} _.
Arguments ThrowsTypeError {A}.
Arguments ReachesBuiltin {A}.
Arguments Unfinished {A}.

Definition bind {A B} (m : Outcome A) (f : A -> Outcome B) : Outcome B :=
  match m with
  | Returns a => f a
  | ThrowsTypeError => ThrowsTypeError
  | ReachesBuiltin => ReachesBuiltin
  | Unfinished => Unfinished
  end.

(** Whether an object is [Object.prototype] itself or an object that
    inherits from it. *)
Inductive Place := Ordinary | ObjectPrototype.

(** A property read through the prototype chain: the own property, else
    the one of [Object.prototype]. *)
Definition inherit {X} (place : Place) (own inherited : option X)
  : option X :=
  match own, place with
  | Some x, _ => Some x
  | None, Ordinary => inherited
  | None, ObjectPrototype => None
  end.

Section Chain.
Context {T : Type} `{Truthy T}.

(** What [map[part]] is for a non-empty string [part]. *)
Inductive Property :=
| Undefined
| Null
| Object (map : AddressMapFlat T) (place : Place)
| BuiltinFunction.

(** [map[part]], [proto] being the entries of [Object.prototype] and
    [place] telling whether [map] is [Object.prototype].  The getter
    [__proto__] gives the prototype of the object: [Object.prototype]
    for a node, [null] for [Object.prototype]. *)
Definition read (proto map : AddressMapFlat T) (place : Place)
    (part : string) : Property :=
  if String.eqb part "__proto__" then
    match place with
    | Ordinary => Object proto ObjectPrototype
    | ObjectPrototype => Null
    end
  else if is_inherited_function part then BuiltinFunction
  else
    match inherit place (named map !! part) (named proto !! part) with
    | Some c => Object c Ordinary
    | None => Undefined
    end.

(** [getFromAddrMapFlat(map, addr, wc_values)], for at most [calls]
    nested calls.  As in the source, the address array is shared by
    the two recursive calls and is given back as the call leaves
    it. *)
Fixpoint getFromAddrMapFlat_within (calls : nat)
    (proto map : AddressMapFlat T) (place : Place)
    (addr : MultistringAddress) (wc_values : option (list string))
  : Outcome (LookupResult T) :=
  match calls with
  | O => Unfinished
  | S calls =>
    let default :=
      inherit place (default_entry map) (default_entry proto) in
    match addr with
    | [] => Returns (default, [], wc_values)
    | part :: addr =>
      if String.eqb part "" then Returns (default, addr, wc_values)
      else
        bind
          match read proto map place part with
          | Object child place =>
            getFromAddrMapFlat_within calls proto child place addr
                                      wc_values
          | BuiltinFunction => ReachesBuiltin
          | Undefined | Null => Returns (None, addr, wc_values)
          end
          (fun '(data, addr, wc_values) =>
        bind
          match is_truthy data,
                inherit place (wildcard_entry map) (wildcard_entry proto)
          with
          | false, Some wild =>
            getFromAddrMapFlat_within calls proto wild Ordinary addr
                                      (push_wc wc_values part)
          | _, _ => Returns (data, addr, wc_values)
          end
          (fun '(data, addr, wc_values) =>
        Returns (data, part :: addr, wc_values)))
    end
  end.

(** Every call removes a segment, so one more call than the address
    has segments is enough ([getFromAddrMapFlat_finishes]). *)
Definition getFromAddrMapFlat (proto map : AddressMapFlat T)
    (place : Place) (addr : MultistringAddress)
    (wc_values : option (list string)) : Outcome (LookupResult T) :=
  getFromAddrMapFlat_within (S (length addr)) proto map place addr
                            wc_values.

(** [AddressMap.get]:
    [getFromAddrMapFlat(this.table, addr, wc_values) ||
     this.table[DefaultEntryKey]]. *)
Definition get (proto : AddressMapFlat T) (this : AddressMap T)
    (addr : MultistringAddress) (wc_values : option (list string))
  : Outcome (LookupResult T) :=
  bind (getFromAddrMapFlat proto (table this) Ordinary addr wc_values)
       (fun '(data, addr, wc_values) =>
  Returns (js_or data (inherit Ordinary (default_entry (table this))
                               (default_entry proto)),
           addr, wc_values)).

(** [last_table[key] = child]. *)
Definition set_child (m : AddressMapFlat T) (key : option string)
    (c : AddressMapFlat T) : AddressMapFlat T :=
  match key with
  | Some s => Node (<[s := c]> (named m)) (wildcard_entry m)
                   (default_entry m)
  | None => Node (named m) (Some c) (default_entry m)
  end.

(** The variable [last_table] of [put]: the object it refers to, with
    the objects above it up to the root of its tree (each with the key
    under which the next one hangs, innermost first), whether that
    tree is [Object.prototype] or the table, and the other of the
    two. *)
Record Cursor := {
  in_prototype : bool;
  parents : list (option string * AddressMapFlat T);
  last_table : AddressMapFlat T;
  other : AddressMapFlat T
}.

(** The root of a tree after the changes made below it. *)
Fixpoint close (parents : list (option string * AddressMapFlat T))
    (node : AddressMapFlat T) : AddressMapFlat T :=
  match parents with
  | [] => node
  | (key, parent) :: parents => close parents (set_child parent key node)
  end.

Definition root (c : Cursor) : AddressMapFlat T :=
  close (parents c) (last_table c).

Definition prototype_of (c : Cursor) : AddressMapFlat T :=
  if in_prototype c then root c else other c.

Definition table_of (c : Cursor) : AddressMapFlat T :=
  if in_prototype c then other c else root c.

Definition place_of (c : Cursor) : Place :=
  match in_prototype c, parents c with
  | true, [] => ObjectPrototype
  | _, _ => Ordinary
  end.

(** One turn of the loop of [put]:
    [if (isUndef(last_table[key])) last_table[key] = {};
     last_table = last_table[key]].
    An own child is entered; a child inherited from [Object.prototype]
    is entered where it is, below [Object.prototype]; [__proto__]
    leads to [Object.prototype], and on [Object.prototype] it is
    [null], where the assignment of [{}] throws ([Object.prototype]
    cannot be given another prototype). *)
Definition enter (c : Cursor) (part : option string) : Outcome Cursor :=
  let key := key_of part in
  let down child :=
    Returns {| in_prototype := in_prototype c;
               parents := (key, last_table c) :: parents c;
               last_table := child; other := other c |} in
  let hop parents node :=
    Returns {| in_prototype := true; parents := parents;
               last_table := node; other := table_of c |} in
  let ordinary_key :=
    match child (last_table c) key with
    | Some own => down own
    | None =>
      match place_of c, child (prototype_of c) key with
      | Ordinary, Some inherited =>
        hop [(key, prototype_of c)] inherited
      | _, _ => down empty_table
      end
    end in
  match key with
  | Some s =>
    if String.eqb s "__proto__" then
      match place_of c with
      | Ordinary => hop [] (prototype_of c)
      | ObjectPrototype => ThrowsTypeError
      end
    else if is_inherited_function s then ReachesBuiltin
    else ordinary_key
  | None => ordinary_key
  end.

(** [addr.forEach(...)]. *)
Fixpoint enter_all (c : Cursor) (addr : WildcardMultistringAddress)
  : Outcome Cursor :=
  match addr with
  | [] => Returns c
  | part :: addr => bind (enter c part) (fun c => enter_all c addr)
  end.

(** [delete last_table[DefaultEntryKey]] or
    [last_table[DefaultEntryKey] = value]. *)
Definition assign (node : AddressMapFlat T) (value : option T)
  : AddressMapFlat T :=
  if Utils.isUndef value
  then Node (named node) (wildcard_entry node) None
  else Node (named node) (wildcard_entry node) value.

(** [AddressMap.put]: the entries of [Object.prototype] and the map
    afterwards. *)
Definition put (proto : AddressMapFlat T) (this : AddressMap T)
    (addr : WildcardMultistringAddress) (value : option T)
  : Outcome (AddressMapFlat T * AddressMap T) :=
  bind (enter_all {| in_prototype := false; parents := [];
                     last_table := table this; other := proto |} addr)
       (fun c =>
  let c := {| in_prototype := in_prototype c; parents := parents c;
              last_table := assign (last_table c) value;
              other := other c |} in
  Returns (prototype_of c, {| table := table_of c |})).
End Chain.

(** Successive calls of [put] on one map, in a realm. *)
Fixpoint put_all {T} (proto : AddressMapFlat T) (this : AddressMap T)
    (entries : list (WildcardMultistringAddress * option T))
  : Outcome (AddressMapFlat T * AddressMap T) :=
  match entries with
  | [] => Returns (proto, this)
  | (addr, value) :: entries =>
    bind (put proto this addr value) (fun '(proto, this) =>
    put_all proto this entries)
  end.

(** The same, followed by a call of [get]. *)
Definition get_after {T} `{Truthy T} (proto : AddressMapFlat T)
    (this : AddressMap T)
    (entries : list (WildcardMultistringAddress * option T))
    (addr : MultistringAddress) (wc_values : option (list string))
  : Outcome (LookupResult T) :=
  bind (put_all proto this entries) (fun '(proto, this) =>
  get proto this addr wc_values).

(** [LegacyAccessController.can]: [this.map.get(to)]. *)
Definition can_legacy (proto : AddressMapFlat bool)
    (map : AddressMap bool) (to : MultistringAddress)
  : Outcome (option bool * MultistringAddress) :=
  bind (get proto map to None) (fun '(val, to, _) => Returns (val, to)).

(** Successive calls of [put] on the map of a LegacyAccessController,
    followed by a call of [can]. *)
Definition can_legacy_after (proto : AddressMapFlat bool)
    (map : AddressMap bool)
    (entries : list (WildcardMultistringAddress * option bool))
    (to : MultistringAddress)
  : Outcome (option bool * MultistringAddress) :=
  bind (put_all proto map entries) (fun '(proto, map) =>
  can_legacy proto map to).

(** [Object.prototype] with no entry of an address map. *)
Definition clean {T} : AddressMapFlat T := empty_table.

End Realm.

(** ** Reading values: the vocabulary of the statements about
    [rpcSerialize] *)
Module SerializerSpec.
Import Serializer.

(** A value as it arrives from the wire, given to [rpcSerialize] again. *)
Fixpoint as_input (v : SerializedData) : SerializableData :=
  match v with
  | SPrimitive p => DPrimitive p
  | SArray items => DArray (List.map as_input items)
  | SObject fields =>
    DObject (List.map (fun kv => (kv.1, as_input kv.2)) fields)
  | STransferable t => DTransferable t
  end.

(** No object of the value has a property named [__proto__]. *)
Fixpoint proto_free (v : SerializedData) : bool :=
  match v with
  | SArray items => forallb proto_free items
  | SObject fields =>
    forallb (fun kv => negb (String.eqb kv.1 "__proto__") && proto_free kv.2)
            fields
  | _ => true
  end.

(** The transferables inside a serialized value, left to right. *)
Fixpoint transferables_in (v : SerializedData) : list Transferable :=
  match v with
  | SPrimitive _ => []
  | SArray items => List.flat_map transferables_in items
  | SObject fields =>
    List.flat_map (fun kv => transferables_in kv.2) fields
  | STransferable t => [t]
  end.

(** [Object.keys(data).forEach(...)]: the members of an object, one
    after the other. *)
Fixpoint rpcSerialize_members (fields : list (string * SerializableData))
    (xfer : list Transferable)
  : Exc (list (string * SerializedData) * list Transferable) :=
  match fields with
  | [] => Ok ([], xfer)
  | (k, e) :: fields =>
    bind (rpcSerialize e xfer) (fun '(v, xfer) =>
    bind (rpcSerialize_members fields xfer) (fun '(vs, xfer) =>
    Ok (set_member k v vs, xfer)))
  end.

(** No symbol and no function inside the value (a value with a
    [toRpcSerialized] method is not looked into). *)
Fixpoint supported (d : SerializableData) : bool :=
  match d with
  | DSymbol | DFunction => false
  | DArray items => forallb supported items
  | DObject fields => forallb (fun kv => supported kv.2) fields
  | _ => true
  end.

(** No [toRpcSerialized] method anywhere in the value. *)
Fixpoint plain (d : SerializableData) : bool :=
  match d with
  | DCustom _ | DError _ (Some _) => false
  | DArray items => forallb plain items
  | DObject fields => forallb (fun kv => plain kv.2) fields
  | _ => true
  end.

(** The transferables inside a value, left to right. *)
Fixpoint transferables_of (d : SerializableData) : list Transferable :=
  match d with
  | DTransferable t => [t]
  | DArray items => List.flat_map transferables_of items
  | DObject fields =>
    List.flat_map (fun kv => transferables_of kv.2) fields
  | _ => []
  end.

(** The value with the stack of every error that has no
    [toRpcSerialized] method replaced by [s]. *)
Fixpoint with_stacks (s : string) (d : SerializableData)
  : SerializableData :=
  match d with
  | DError e None =>
    DError {| name := name e; message := message e; stack := s;
              columnNumber := columnNumber e; lineNumber := lineNumber e;
              fileName := fileName e |} None
  | DArray items => DArray (List.map (with_stacks s) items)
  | DObject fields =>
    DObject (List.map (fun kv => (kv.1, with_stacks s kv.2)) fields)
  | _ => d
  end.
End SerializerSpec.

(** ** accesscontrol.ts, continued: the lookup controller and the
    permission controller *)
Module PermissionControl.
Import AddrMap AccessControl.

Section Controllers.
Context {Opts World : Type}.

(** Functions are objects: always truthy. *)
#[export] Instance can_function_truthy
  : Truthy (AccessCanFunction Opts World) := fun _ => true.

(** [class FunctionLookupAccessController]. *)
Record FunctionLookupAccessController := {
  lookup_map : AddressMap (AccessCanFunction Opts World)
}.

(** [FunctionLookupAccessController.can]:
    [(func && func(to, opts)) || OptAccessPolicy.NONE], the function
    being called with [to] as [get] left it. *)
Definition can_lookup (this : FunctionLookupAccessController)
    (to : MultistringAddress) (opts : Opts) (w : World)
  : OptAccessPolicy * World :=
  let '(func, to, _) := get (lookup_map this) to None in
  match func with
  | Some func =>
    let '(verdict, w) := func to opts w in
    (js_or verdict NONE, w)
  | None => (NONE, w)
  end.

(** [type PermissionedAccessCanFunction]: called with the address and
    with [opts] extended by [perms] and [require]; besides its verdict
    it gives the permissions it passed to [require], in call order.
    It reads [perms] and does not change it. *)
Definition PermissionedAccessCanFunction : Type :=
  MultistringAddress -> gset string -> Opts -> World ->
  (OptAccessPolicy * list string) * World.

(** What the controller reads of [opts.func]: the properties
    [RequiresPermissions] (an iterable of strings) and
    [CanCallFunction]. *)
Record AnnotatedFunction := {
  RequiresPermissions : option (list string);
  CanCallFunction : option PermissionedAccessCanFunction
}.

(** [class AutoFunctionAccessController]. *)
Record AutoFunctionAccessController := { perms : gset string }.

(** [for (const requirement of ...) if (!this.perms.has(requirement))
    return DENY]: some requirement is missing. *)
Definition missing (this : AutoFunctionAccessController)
    (requirements : list string) : bool :=
  existsb (fun requirement => bool_decide (requirement ∉ perms this))
          requirements.

(** [AutoFunctionAccessController.can], with [opts.func]. *)
Definition can_auto (this : AutoFunctionAccessController)
    (to : MultistringAddress) (func : option AnnotatedFunction)
    (opts : Opts) (w : World) : OptAccessPolicy * World :=
  let obj := func ≫= RequiresPermissions in
  if missing this (default [] obj) then (Some DENY, w)
  else
    match func ≫= CanCallFunction with
    | Some can_call =>
      let '((result, requirements), w) := can_call to (perms this) opts w in
      if missing this requirements then (Some DENY, w)
      else (if Utils.isDefined result then result else NONE, w)
    | None => (NONE, w)
    end.
End Controllers.
Arguments FunctionLookupAccessController : clear implicits.
Arguments PermissionedAccessCanFunction : clear implicits.
Arguments AnnotatedFunction : clear implicits.
End PermissionControl.

(** ** registry.ts, continued: the argument remapping of
    [RemapArguments] *)
Module Remap.
Import Serializer.

(** The entries of a mapping: ['pass' | 'drop' | 'expand']. *)
Inductive Directive := pass | drop | expand.

#[global] Instance Directive_eq_dec : EqDecision Directive :=
  ltac:(solve_decision).

(** What [v[Symbol.iterator]] is for an argument [v]: a method that
    produces these elements; absent; or not readable at all, [v] being
    [undefined] or [null]. *)
Inductive Iteration (V : Type) :=
| Elements (elems : list V)
| NotIterable
| NoProperties.
Arguments Elements {V} _.
Arguments NotIterable {V}.
Arguments NoProperties {V}.

Section Arguments.
(** The arguments are any values; [iterate] tells how each behaves
    under the iteration protocol. *)
Context {V : Type} (iterate : V -> Iteration V).

(** The [do ... while] loop of the ['expand'] case: [elems] is what is
    left of the iterator of the argument, [it] what is left of the
    iterator of the mapping.  It gives the array, and [value] with the
    mapping iterator as the loop leaves them. *)
Fixpoint expand_loop (it : list Directive) (elems array : list V)
    {struct elems}
  : Exc (list V * option Directive * list Directive) :=
  match elems with
  | [] => Throw "Expand reached end of array"
  | x :: elems =>
    let array := array ++ [x] in
    match it with
    | expand :: it => expand_loop it elems array
    | value :: it => Ok (array, Some value, it)
    | [] => Ok (array, None, [])
    end
  end.

(** [args.flatMap((v) => ...)] with the iterator [it] of the mapping
    and the variable [value] shared by the callbacks. *)
Fixpoint remap_from (it : list Directive) (value : option Directive)
    (args : list V) : Exc (list V) :=
  match args with
  | [] => Ok []
  | v :: args =>
    let '(value, it) :=
      match value with
      | Some _ => (value, it)
      | None => (head it, tail it)
      end in
    match value with
    | Some expand =>
      match iterate v with
      | NoProperties => Throw "Cannot read properties of undefined"
      | NotIterable => Throw "Attempted to expand non-iterable"
      | Elements elems =>
        bind (expand_loop it elems []) (fun '(array, value, it) =>
        bind (remap_from it value args) (fun rest =>
        Ok (array ++ rest)))
      end
    | Some drop => remap_from it None args
    | _ => bind (remap_from it None args) (fun rest => Ok (v :: rest))
    end
  end.

(** The arguments that the function remapped by
    [RemapArguments(mapping)] passes on. *)
Definition remap (mapping : list Directive) (args : list V)
  : Exc (list V) :=
  remap_from mapping None args.

(** The arguments kept by a mapping without ['expand']: position by
    position, all but those under ['drop']. *)
Fixpoint kept (mapping : list Directive) (args : list V) : list V :=
  match mapping, args with
  | _, [] => []
  | [], _ => args
  | drop :: mapping, _ :: args => kept mapping args
  | _ :: mapping, v :: args => v :: kept mapping args
  end.
End Arguments.
End Remap.

(** ** Reading a channel: the vocabulary of the statements about
    [RpcChannel] *)
Module ChannelSpec.
Import AddrMap AccessControl Serializer Registry.

(** The messages handed to the transport, in order. *)
Definition sent (this : RpcChannel)
  : list (RpcMessage * list Transferable) :=
  omap (fun e => match e with
                 | Sent msg xfer => Some (msg, xfer)
                 | _ => None
                 end) (events this).

(** The handlers called, in order. *)
Definition invoked (this : RpcChannel) : list RpcFunction :=
  omap (fun e => match e with
                 | Invoked func _ _ => Some func
                 | _ => None
                 end) (events this).

(** How the promise of the call numbered [id] has settled. *)
Definition settlements (this : RpcChannel) (id : N) : list Settlement :=
  omap (fun e => match e with
                 | Settled i result => if N.eqb i id then Some result else None
                 | _ => None
                 end) (events this).

(** The request that [call(to, args)] sends for the call numbered [id]. *)
Definition request (to : MultistringAddress) (args : list SerializedData)
    (id : N) : RpcMessage :=
  {| to := to; args := args; return_addr := Some (seq_addr id);
     return_type := Some promise |}.

(** A message of [send(addr, args)]. *)
Definition message (addr : MultistringAddress) (args : list SerializedData)
  : RpcMessage :=
  {| to := addr; args := args; return_addr := None;
     return_type := Some promise |}.

(** The transport between two channels: the message that [sender] sent
    last is received by [receiver]. *)
Definition last_sent (this : RpcChannel) : option RpcMessage :=
  fst <$> last (sent this).

Definition deliver (sender receiver : RpcChannel) : RpcChannel :=
  match last_sent sender with
  | Some msg => (receive receiver msg).1
  | None => receiver
  end.

(** What the inactivity timer depends on. *)
Definition timer_view (this : RpcChannel)
  : option Z * RpcState * option Z :=
  (active_timeout this, _state this, timeout (_opts this)).

(** The inactivity timer is armed only on an ACTIVE channel, with the
    configured timeout, which is not 0. *)
Definition timer_ok (this : RpcChannel) : Prop :=
  forall t, active_timeout this = Some t ->
    _state this = ACTIVE ∧ t = r_timeout (opts this) ∧ t ≠ 0%Z.

(** A closed channel on which the counter of correlation addresses has
    passed [id] and the promise of the call [id] has settled as [seen]
    tells. *)
Definition closed_with (id : N) (seen : list Settlement)
    (this : RpcChannel) : Prop :=
  _state this = CLOSED
  ∧ (id < return_seq_id (_i_reg this))%N
  ∧ settlements this id = seen.

(** What the access decision depends on. *)
Definition policy_view (this : RpcChannel)
  : option Controller * ChainedAccessController CanCallOpts unit
    * AccessPolicy :=
  (access_controller this, chain (_i_reg this), default_policy this).

(** The access decision and the handlers called so far. *)
Definition access_view (this : RpcChannel) :=
  (policy_view this, invoked this).

(** Every message is denied. *)
Definition denies_all (this : RpcChannel) : Prop :=
  forall addr opts, can this addr opts = Some DENY.
End ChannelSpec.

(** ** Fixtures: the scenarios of the test suite *)
Module Fixtures.
Import AccessControl Serializer Registry.

(** A controller that records its number in the call log and answers
    [verdict]. *)
Definition logging (i : nat) (verdict : OptAccessPolicy)
  : AccessController unit (list nat) :=
  FunctionAccessController (fun _ _ calls => (verdict, calls ++ [i])).

(** [new RpcChannel(c_send)]. *)
Definition fresh_channel : RpcChannel :=
  new_channel ALLOW new_registry no_opts.

(** A function that returns 42, one that throws an [Error], and one
    that throws the number 0. *)
Definition answer : RpcFunction :=
  UserFunction (fun _ _ => Returns (DPrimitive (PNumber 42))) None.

Definition failing : RpcFunction :=
  UserFunction (fun _ _ => Throws (new_Error "Error" "no")) None.

Definition throwing_zero : RpcFunction :=
  UserFunction (fun _ _ => Throws (DPrimitive (PNumber 0))) None.

(** A channel that serves the three at [net.x.f], [net.x.g] and
    [net.x.h]. *)
Definition serving_channel : RpcChannel :=
  run fresh_channel
    [OpRegister [Some "net"; Some "x"; Some "f"] answer;
     OpRegister [Some "net"; Some "x"; Some "g"] failing;
     OpRegister [Some "net"; Some "x"; Some "h"] throwing_zero].

(** The request that [fresh_channel.call(["net","x","missing"])] sends. *)
Definition missing_call : RpcMessage :=
  {| to := ["net"; "x"; "missing"]; args := [];
     return_addr := Some ["_"; "ret"; "id0"];
     return_type := Some promise |}.
End Fixtures.

(** * Properties *)

Import AddrMap.

Section AddrMapFacts.
Context {T : Type} {HT : Truthy T}.
Implicit Types (m : AddressMapFlat T) (addr : list string)
  (wc : option (list string)).

(** One step of [getFromAddrMapFlat], with the lookups of the source. *)
Lemma getFromAddrMapFlat_unfold m addr wc :
  getFromAddrMapFlat m addr wc =
  match addr with
  | [] => (default_entry m, [], wc)
  | part :: addr =>
    if String.eqb part "" then (default_entry m, addr, wc)
    else
      let '(data, addr, wc) :=
        match named m !! part with
        | Some child => getFromAddrMapFlat child addr wc
        | None => (None, addr, wc)
        end in
      let '(data, addr, wc) :=
        match is_truthy data, wildcard_entry m with
        | false, Some wild => getFromAddrMapFlat wild addr (push_wc wc part)
        | _, _ => (data, addr, wc)
        end in
      (data, part :: addr, wc)
  end.
Proof.
  destruct m as [n w d]; destruct addr as [|part rest]; simpl; [done|].
  destruct (String.eqb part ""); [done|].
  rewrite lookup_fmap.
  destruct (n !! part) as [c|]; simpl.
  - destruct (getFromAddrMapFlat c rest wc) as [[data a] w'].
    destruct (is_truthy data); [done|]. by destruct w.
  - by destruct w.
Qed.
End AddrMapFacts.

Import AddrMapSpec.

Section AddrMapFacts2.
Context {T : Type} {HT : Truthy T}.
Implicit Types (m : AddressMapFlat T) (addr : list string)
  (wc : option (list string)).

Lemma push_wc_app wc (l : list string) part :
  push_wc ((.++ l) <$> wc) part = (.++ (l ++ [part])) <$> wc.
Proof. destruct wc; simpl; [|done]. by rewrite <- app_assoc. Qed.

(** On an address without empty segments the lookup is the descent
    [walk]: it restores the address and appends the wildcard-consumed
    segments to the sink. *)
Lemma getFromAddrMapFlat_walk addr : 
  NoEmpty addr -> forall m wc,
  getFromAddrMapFlat m addr wc =
    ((walk m addr).1, addr, (.++ (walk m addr).2) <$> wc).
Proof.
  induction 1 as [|part rest Hpart Hrest IH]; intros m wc;
    rewrite getFromAddrMapFlat_unfold.
  - simpl. destruct wc; simpl; by rewrite ?app_nil_r.
  - apply String.eqb_neq in Hpart. rewrite Hpart. simpl.
    destruct (named m !! part) as [c|].
    + rewrite IH. destruct (walk c rest) as [data seen]. simpl.
      destruct (is_truthy data); [done|].
      destruct (wildcard_entry m) as [w|]; [|done].
      rewrite push_wc_app, IH. destruct (walk w rest) as [data' seen']; simpl.
      f_equal. destruct wc; simpl; [|done]. by rewrite <- !app_assoc.
    + simpl. destruct (wildcard_entry m) as [w|].
      * rewrite IH. destruct (walk w rest) as [data' seen']; simpl.
        destruct wc; simpl; [|done]. by rewrite <- app_assoc.
      * destruct wc; simpl; by rewrite ?app_nil_r.
Qed.
End AddrMapFacts2.

Section PutFacts.
Context {T : Type}.
Implicit Types (m : AddressMapFlat T) (P : list (option string))
  (path : list (option string)) (v : option T).

Lemma put_flat_nil m v :
  put_flat m [] v = Node (named m) (wildcard_entry m) v.
Proof. by destruct v. Qed.

Lemma child_put_flat_same m p P v :
  child (put_flat m (p :: P) v) (key_of p) =
    Some (put_flat (default empty_table (child m (key_of p))) P v).
Proof.
  simpl. destruct (key_of p) as [k|]; simpl; [|done].
  by rewrite lookup_insert_eq.
Qed.

Lemma child_put_flat_other m p P v key :
  key ≠ key_of p -> child (put_flat m (p :: P) v) key = child m key.
Proof.
  intros Hne. simpl. destruct (key_of p) as [k|], key as [k'|]; simpl;
    try done.
  apply lookup_insert_ne. congruence.
Qed.

Lemma default_put_flat_cons m p P v :
  default_entry (put_flat m (p :: P) v) = default_entry m.
Proof. simpl. by destruct (key_of p). Qed.

(** [put] writes the default of the node at the address ... *)
Lemma node_at_put_flat_same P : forall m v,
  node_at (put_flat m P v) (key_of <$> P) =
    let n := default empty_table (node_at m (key_of <$> P)) in
    Some (Node (named n) (wildcard_entry n) v).
Proof.
  induction P as [|p P IH]; intros m v.
  - by rewrite put_flat_nil.
  - rewrite fmap_cons. cbn [node_at]. rewrite child_put_flat_same, IH.
    destruct (child m (key_of p)) as [c|]; simpl; [done|].
    clear. destruct (key_of <$> P) as [|[k|] ks]; simpl; try done.
Qed.

Lemma stored_at_put_flat_same P m v :
  stored_at (put_flat m P v) (key_of <$> P) = v.
Proof. unfold stored_at. by rewrite node_at_put_flat_same. Qed.

(** ... and no other stored value. *)
Lemma stored_at_put_flat_other P : forall m v path,
  path ≠ key_of <$> P ->
  stored_at (put_flat m P v) path = stored_at m path.
Proof.
  unfold stored_at.
  induction P as [|p P IH]; intros m v path Hne.
  - rewrite put_flat_nil. destruct path as [|key path]; [done|].
    by destruct key.
  - destruct path as [|key path].
    + cbn [node_at]. by rewrite default_put_flat_cons.
    + cbn [node_at]. destruct (decide (key = key_of p)) as [->|Hk].
      * rewrite child_put_flat_same.
        rewrite IH by (intros ->; by apply Hne).
        destruct (child m (key_of p)) as [c|]; simpl; [done|].
        clear. destruct path as [|[k|] ks]; simpl; try done.
      * by rewrite child_put_flat_other.
Qed.

(** Nodes are never pruned. *)
Lemma node_at_put_flat_is_Some P : forall m v path,
  is_Some (node_at m path) -> is_Some (node_at (put_flat m P v) path).
Proof.
  induction P as [|p P IH]; intros m v path Hn.
  - rewrite put_flat_nil. destruct path as [|[k|] ks]; simpl in *; eauto.
  - destruct path as [|key path]; [by eauto|]. cbn [node_at] in *.
    destruct (decide (key = key_of p)) as [->|Hk].
    + rewrite child_put_flat_same.
      destruct (child m (key_of p)) as [c|]; simpl; [by apply IH|].
      by destruct Hn.
    + by rewrite child_put_flat_other.
Qed.

(** A later [put] at the same address replaces the earlier one. *)
Lemma put_flat_put_flat P : forall m v v',
  put_flat (put_flat m P v) P v' = put_flat m P v'.
Proof.
  induction P as [|p P IH]; intros m v v'.
  - by rewrite !put_flat_nil.
  - simpl. destruct (key_of p) as [k|]; simpl.
    + rewrite lookup_insert_eq, insert_insert_eq. simpl. by rewrite IH.
    + by rewrite IH.
Qed.
End PutFacts.

Section WalkFacts.
Context {T : Type} {HT : Truthy T}.
Implicit Types (m : AddressMapFlat T) (addr A : list string)
  (wc : option (list string)).

(** A truthy value stored along the literal path is what the descent
    finds, with no wildcard segment consumed. *)
Lemma walk_literal A : forall m x,
  stored_at m (Some <$> A) = Some x -> truthy x = true ->
  walk m A = (Some x, []).
Proof.
  unfold stored_at.
  induction A as [|part rest IH]; intros m x Hst Hx; simpl in *.
  - by rewrite Hst.
  - destruct (named m !! part) as [c|]; [|done].
    rewrite (IH c x) by done. simpl. by rewrite Hx.
Qed.

(** When no segment was consumed via the wildcard branch, the descent
    returns what is stored along the literal path. *)
Lemma walk_no_capture A : forall m,
  (walk m A).2 = [] -> (walk m A).1 = stored_at m (Some <$> A).
Proof.
  unfold stored_at.
  induction A as [|part rest IH]; intros m; simpl; [done|].
  destruct (named m !! part) as [c|].
  - specialize (IH c). destruct (walk c rest) as [data seen]; simpl in *.
    destruct (is_truthy data); simpl; [done|].
    destruct (wildcard_entry m) as [w|]; simpl; [|done].
    destruct (walk w rest); simpl. intros Happ.
    by apply app_eq_nil in Happ as [_ ?].
  - simpl. destruct (wildcard_entry m) as [w|]; simpl; [|done].
    by destruct (walk w rest).
Qed.

Lemma NoEmpty_key_of A :
  NoEmpty A -> key_of <$> (Some <$> A) = Some <$> A.
Proof.
  induction 1 as [|part rest Hpart _ IH]; [done|].
  rewrite !fmap_cons, IH. simpl.
  apply String.eqb_neq in Hpart. by rewrite Hpart.
Qed.

Lemma get_walk (this : AddressMap T) A wc :
  NoEmpty A ->
  get this A wc =
    (js_or (walk (table this) A).1 (default_entry (table this)), A,
     (.++ (walk (table this) A).2) <$> wc).
Proof. intros HA. unfold get. by rewrite getFromAddrMapFlat_walk. Qed.
End WalkFacts.

Section FalsyFacts.
Context {T : Type} {HT : Truthy T}.
Implicit Types (m : AddressMapFlat T) (Q : list string)
  (wc : option (list string)).

Lemma same_or_falsy_refl r : same_or_falsy r r.
Proof. unfold same_or_falsy; auto. Qed.

Lemma falsy_put_flat (x : T) (Hx : truthy x = false) P : forall m Q wc,
  same_or_falsy (getFromAddrMapFlat (put_flat m P (Some x)) Q wc)
                (getFromAddrMapFlat (put_flat m P None) Q wc).
Proof.
  induction P as [|p P IH]; intros m Q wc.
  - rewrite !put_flat_nil, !(getFromAddrMapFlat_unfold (Node _ _ _)).
    destruct Q as [|part rest]; simpl.
    + unfold same_or_falsy; simpl. auto.
    + destruct (String.eqb part "").
      * unfold same_or_falsy; simpl. auto.
      * apply same_or_falsy_refl.
  - rewrite !(getFromAddrMapFlat_unfold (put_flat _ _ _)).
    destruct Q as [|part rest].
    + rewrite !default_put_flat_cons. apply same_or_falsy_refl.
    + destruct (String.eqb part ""); 
        [rewrite !default_put_flat_cons; apply same_or_falsy_refl|].
      change (named ?n !! part) with (child n (Some part)).
      change (wildcard_entry ?n) with (child n None).
      destruct (decide (Some part = key_of p)) as [Heq|Hne].
      * rewrite Heq, !child_put_flat_same.
        rewrite !child_put_flat_other by (rewrite <- Heq; done).
        set (c := default empty_table _).
        destruct (IH c rest wc) as (Ha & Hw & Hv).
        destruct (getFromAddrMapFlat (put_flat c P (Some x)) rest wc)
          as [[d1 a1] w1],
          (getFromAddrMapFlat (put_flat c P None) rest wc) as [[d2 a2] w2].
        simpl in *. subst a2 w2.
        destruct Hv as [->|[Hf1 Hf2]]; [apply same_or_falsy_refl|].
        rewrite Hf1, Hf2.
        destruct (wildcard_entry m); [apply same_or_falsy_refl|].
        unfold same_or_falsy; simpl; auto.
      * rewrite !(child_put_flat_other _ _ _ _ (Some part)) by done.
        destruct (match child m (Some part) with
                  | Some c => getFromAddrMapFlat c rest wc
                  | None => (None, rest, wc)
                  end) as [[d a] w].
        destruct (is_truthy d); [apply same_or_falsy_refl|].
        destruct (decide (None = key_of p)) as [Heq|Hne'].
        -- rewrite Heq, !child_put_flat_same.
           set (c := default empty_table _).
           destruct (IH c a (push_wc w part)) as (Ha & Hw & Hv).
           destruct (getFromAddrMapFlat (put_flat c P (Some x)) _ _)
             as [[d1 a1] w1],
             (getFromAddrMapFlat (put_flat c P None) _ _) as [[d2 a2] w2].
           simpl in *. subst a2 w2. unfold same_or_falsy; simpl; auto.
        -- rewrite !(child_put_flat_other _ _ _ _ None) by done.
           apply same_or_falsy_refl.
Qed.

Lemma js_or_same_or_falsy (r1 r2 : LookupResult T) d :
  same_or_falsy r1 r2 -> js_or r1.1.1 d = js_or r2.1.1 d.
Proof.
  intros (_ & _ & [->|[H1 H2]]); [done|]. unfold js_or. by rewrite H1, H2.
Qed.
End FalsyFacts.

Section GetFacts.
Context {T : Type} {HT : Truthy T}.
Implicit Types (this : AddressMap T) (A : list string)
  (wc : option (list string)).

(** On an address without empty segments, a truthy value stored along the
    literal path is returned, whatever the wildcard branches hold. *)
Lemma get_literal this A x wc :
  NoEmpty A -> stored_at (table this) (Some <$> A) = Some x ->
  truthy x = true -> get this A wc = (Some x, A, wc).
Proof.
  intros HA Hst Hx. rewrite get_walk by done.
  rewrite (walk_literal A _ x) by done. simpl.
  unfold js_or. simpl. rewrite Hx. destruct wc; simpl; by rewrite ?app_nil_r.
Qed.

Lemma key_of_concrete_inv (P : list (option string)) A :
  NoEmpty A -> key_of <$> P = Some <$> A -> P = Some <$> A.
Proof.
  intros HA. revert P. induction HA as [|a A Ha _ IH]; intros [|p P] Heq;
    try done.
  rewrite !fmap_cons in Heq. injection Heq as Hp HP.
  rewrite fmap_cons. f_equal; [|by apply IH].
  destruct p as [s|]; simpl in Hp; [|done].
  destruct (String.eqb s ""); congruence.
Qed.
End GetFacts.


(** * The trie on the prototype chain *)

Ltac solve_differs :=
  unfold differs_by_wildcards;
  repeat first [ left; reflexivity | right; reflexivity | constructor ].

Section RealmFacts.
Context {T : Type} {HT : Truthy T}.
Implicit Types (m proto : AddressMapFlat T) (addr : list string)
  (wc : option (list string)).

(** The address array after a lookup is no longer than before and made
    of segments of the address. *)
Lemma getFromAddrMapFlat_addr (P : string -> Prop) (n : nat) :
  forall addr m wc,
    length addr <= n -> Forall P addr ->
    length (getFromAddrMapFlat m addr wc).1.2 <= length addr
    ∧ Forall P (getFromAddrMapFlat m addr wc).1.2.
Proof.
  induction n as [|n IH]; intros addr m wc Hlen HP;
    rewrite getFromAddrMapFlat_unfold.
  - destruct addr; [done|simpl in Hlen; lia].
  - destruct addr as [|part rest]; [done|].
    simpl in Hlen. apply Forall_cons in HP as [Hpart HP].
    destruct (String.eqb part "").
    { cbn [fst snd length]. split; [lia|done]. }
    assert (Hlit :
      length (match named m !! part with
              | Some child => getFromAddrMapFlat child rest wc
              | None => (None, rest, wc)
              end).1.2 <= length rest
      ∧ Forall P (match named m !! part with
                  | Some child => getFromAddrMapFlat child rest wc
                  | None => (None, rest, wc)
                  end).1.2).
    { destruct (named m !! part) as [c|]; [apply IH; [lia|done]|done]. }
    destruct (match named m !! part with
              | Some child => getFromAddrMapFlat child rest wc
              | None => (None, rest, wc)
              end) as [[d a] w]. cbn [fst snd] in Hlit.
    destruct Hlit as [Hla HPa].
    destruct (is_truthy d).
    { cbn [fst snd length]. split; [lia|by constructor]. }
    destruct (wildcard_entry m) as [wild|].
    + destruct (IH a wild (push_wc w part) ltac:(lia) HPa) as [Hl2 HP2].
      destruct (getFromAddrMapFlat wild a _) as [[d' a'] w'].
      cbn [fst snd length] in *. split; [lia|by constructor].
    + cbn [fst snd length]. split; [lia|by constructor].
Qed.

Lemma inherit_clean {X} (own : option X) :
  Realm.inherit Realm.Ordinary own None = own.
Proof. by destruct own. Qed.

Lemma read_own m part :
  Realm.own_name part ->
  Realm.read Realm.clean m Realm.Ordinary part
  = match named m !! part with
    | Some c => Realm.Object c Realm.Ordinary
    | None => Realm.Undefined
    end.
Proof.
  intros [Hp Hf]. unfold Realm.read. rewrite Hp, Hf.
  change (named (@Realm.clean T) !! part)
    with ((∅ : gmap string (AddressMapFlat T)) !! part).
  by rewrite lookup_empty, inherit_clean.
Qed.

(** In a realm whose [Object.prototype] holds no entry, on an address
    whose segments name no inherited property, the lookup reads own
    properties only. *)
Lemma Realm_get_within_own (calls : nat) : forall addr m wc,
  length addr < calls -> Realm.own_names addr ->
  Realm.getFromAddrMapFlat_within calls Realm.clean m Realm.Ordinary addr wc
  = Realm.Returns (getFromAddrMapFlat m addr wc).
Proof.
  induction calls as [|calls IH]; intros addr m wc Hlen Hown; [lia|].
  rewrite getFromAddrMapFlat_unfold.
  cbn [Realm.getFromAddrMapFlat_within].
  change (default_entry (@Realm.clean T)) with (@None T).
  change (wildcard_entry (@Realm.clean T)) with (@None (AddressMapFlat T)).
  rewrite !inherit_clean.
  destruct addr as [|part rest]; [done|].
  simpl in Hlen. apply Forall_cons in Hown as [Hpart Hown].
  destruct (String.eqb part ""); [done|].
  rewrite read_own by done.
  pose proof (fun c => getFromAddrMapFlat_addr Realm.own_name (length rest)
                rest c wc (le_n _) Hown) as Haddr.
  assert (Hlit :
    match
      match named m !! part with
      | Some c => Realm.Object c Realm.Ordinary
      | None => Realm.Undefined
      end
    with
    | Realm.Object child place =>
      Realm.getFromAddrMapFlat_within calls Realm.clean child place rest wc
    | Realm.BuiltinFunction => Realm.ReachesBuiltin
    | _ => Realm.Returns (None, rest, wc)
    end
    = Realm.Returns
        match named m !! part with
        | Some child => getFromAddrMapFlat child rest wc
        | None => (None, rest, wc)
        end).
  { destruct (named m !! part) as [c|]; [|done]. apply IH; [lia|done]. }
  rewrite Hlit. cbn [Realm.bind].
  assert (Hres :
    length (match named m !! part with
            | Some child => getFromAddrMapFlat child rest wc
            | None => (None, rest, wc)
            end).1.2 <= length rest
    ∧ Realm.own_names (match named m !! part with
                       | Some child => getFromAddrMapFlat child rest wc
                       | None => (None, rest, wc)
                       end).1.2).
  { destruct (named m !! part) as [c|]; [apply Haddr|done]. }
  destruct (match named m !! part with
            | Some child => getFromAddrMapFlat child rest wc
            | None => (None, rest, wc)
            end) as [[d a] w]. cbn [fst snd] in Hres.
  destruct Hres as [Hla Hoa].
  destruct (is_truthy d); [done|].
  destruct (wildcard_entry m) as [wild|]; [|done].
  rewrite IH by (done || lia). cbn [Realm.bind].
  by destruct (getFromAddrMapFlat wild a _) as [[d' a'] w'].
Qed.

(** The bound on the nested calls of [Realm.getFromAddrMapFlat] is never
    reached, in any realm and on any address. *)
Lemma getFromAddrMapFlat_within_finishes (calls : nat) :
  forall addr proto m place wc,
    length addr < calls ->
    match Realm.getFromAddrMapFlat_within calls proto m place addr wc with
    | Realm.Unfinished => False
    | Realm.Returns r => length r.1.2 <= length addr
    | _ => True
    end.
Proof.
  induction calls as [|calls IH]; intros addr proto m place wc Hlen; [lia|].
  cbn [Realm.getFromAddrMapFlat_within].
  destruct addr as [|part rest]; [done|]. simpl in Hlen.
  destruct (String.eqb part ""); [cbn; lia|].
  assert (Hlit :
    match
      match Realm.read proto m place part with
      | Realm.Object child place' =>
        Realm.getFromAddrMapFlat_within calls proto child place' rest wc
      | Realm.BuiltinFunction => Realm.ReachesBuiltin
      | _ => Realm.Returns (None, rest, wc)
      end
    with
    | Realm.Unfinished => False
    | Realm.Returns r => length r.1.2 <= length rest
    | _ => True
    end).
  { destruct (Realm.read proto m place part) as [| |c pl|]; try done.
    apply IH. lia. }
  destruct (match Realm.read proto m place part with
            | Realm.Object child place' =>
              Realm.getFromAddrMapFlat_within calls proto child place' rest wc
            | Realm.BuiltinFunction => Realm.ReachesBuiltin
            | _ => Realm.Returns (None, rest, wc)
            end) as [[[d a] w]| | |]; try done.
  cbn [Realm.bind fst snd] in *.
  destruct (is_truthy d); [cbn; lia|].
  destruct (Realm.inherit place (wildcard_entry m) (wildcard_entry proto))
    as [wild|]; [|cbn; lia].
  pose proof (IH a proto wild Realm.Ordinary (push_wc w part) ltac:(lia))
    as Hw.
  destruct (Realm.getFromAddrMapFlat_within calls proto wild _ a _)
    as [[[d' a'] w']| | |]; try done.
  cbn [Realm.bind fst snd length] in *. lia.
Qed.

Lemma getFromAddrMapFlat_finishes proto m place addr wc :
  Realm.getFromAddrMapFlat proto m place addr wc ≠ Realm.Unfinished.
Proof.
  unfold Realm.getFromAddrMapFlat. intros Hu.
  pose proof (getFromAddrMapFlat_within_finishes (S (length addr)) addr
                proto m place wc ltac:(lia)) as Hf.
  by rewrite Hu in Hf.
Qed.

Lemma Realm_get_own (this : AddressMap T) addr wc :
  Realm.own_names addr ->
  Realm.get Realm.clean this addr wc = Realm.Returns (get this addr wc).
Proof.
  intros Hown. unfold Realm.get, Realm.getFromAddrMapFlat, get.
  rewrite Realm_get_within_own by (done || lia). cbn [Realm.bind].
  destruct (getFromAddrMapFlat (table this) addr wc) as [[d a] w].
  change (default_entry (@Realm.clean T)) with (@None T).
  by rewrite inherit_clean.
Qed.

(** The loop of [put] below a node of the table, on keys that name no
    inherited property, in a realm whose [Object.prototype] holds no
    entry: it stays in the table and does what [put_flat] does. *)
Lemma enter_all_own (P : list (option string)) :
  forall parents node (value : option T),
    Realm.own_keys P ->
    exists c,
      Realm.enter_all
        {| Realm.in_prototype := false; Realm.parents := parents;
           Realm.last_table := node; Realm.other := Realm.clean |} P
      = Realm.Returns c
      ∧ Realm.in_prototype c = false
      ∧ Realm.other c = Realm.clean
      ∧ Realm.close (Realm.parents c)
          (Realm.assign (Realm.last_table c) value)
        = Realm.close parents (put_flat node P value).
Proof.
  induction P as [|part P IH]; intros parents node value Hown.
  - eexists. split; [reflexivity|]. by split_and!.
  - apply Forall_cons in Hown as [Hpart Hown].
    cbn [Realm.enter_all].
    assert (Realm.enter
              {| Realm.in_prototype := false; Realm.parents := parents;
                 Realm.last_table := node; Realm.other := Realm.clean |}
              part
            = Realm.Returns
                {| Realm.in_prototype := false;
                   Realm.parents := (key_of part, node) :: parents;
                   Realm.last_table :=
                     default empty_table (child node (key_of part));
                   Realm.other := Realm.clean |}) as ->.
    { unfold Realm.enter.
      cbn [Realm.in_prototype Realm.parents Realm.last_table Realm.other
           Realm.place_of Realm.prototype_of].
      assert (forall key,
                child (@Realm.clean T) key = None) as Hclean.
      { intros [s|]; [apply lookup_empty|done]. }
      destruct part as [s|]; cbn [key_of].
      - destruct (String.eqb s "") eqn:Hs.
        + rewrite Hclean. by destruct (child node None).
        + destruct Hpart as [-> ->]. rewrite Hclean.
          by destruct (child node (Some s)).
      - rewrite Hclean. by destruct (child node None). }
    cbn [Realm.bind].
    destruct (IH ((key_of part, node) :: parents)
                 (default empty_table (child node (key_of part)))
                 value Hown) as (c & Hc & Hin & Hot & Hcl).
    exists c. split_and!; try done.
    rewrite Hcl. cbn [Realm.close put_flat]. f_equal.
    by destruct (key_of part).
Qed.

Lemma Realm_put_own (this : AddressMap T) (P : list (option string))
    (value : option T) :
  Realm.own_keys P ->
  Realm.put Realm.clean this P value
  = Realm.Returns (Realm.clean, put this P value).
Proof.
  intros Hown. unfold Realm.put.
  destruct (enter_all_own P [] (table this) value Hown)
    as (c & -> & Hin & Hot & Hcl).
  cbn [Realm.bind]. unfold Realm.prototype_of, Realm.table_of, Realm.root.
  cbn [Realm.in_prototype Realm.parents Realm.last_table Realm.other].
  by rewrite Hin, Hot, Hcl.
Qed.

Lemma Realm_put_all_own (entries : list (list (option string) * option T)) :
  forall (this : AddressMap T),
    Forall (fun e => Realm.own_keys e.1) entries ->
    Realm.put_all Realm.clean this entries
    = Realm.Returns
        (Realm.clean, foldl (fun this e => put this e.1 e.2) this entries).
Proof.
  induction entries as [|[P v] entries IH]; intros this Hown; [done|].
  apply Forall_cons in Hown as [HP Hown].
  cbn [Realm.put_all foldl fst snd].
  rewrite Realm_put_own by done. cbn [Realm.bind]. by apply IH.
Qed.

Lemma own_keys_Some (A : list string) :
  Realm.own_names A -> Realm.own_keys (Some <$> A).
Proof. intros HA. unfold Realm.own_keys. by rewrite Forall_fmap. Qed.
End RealmFacts.


(** ** C1: the literal child and the wildcard child *)

(** C1 (the code at the failing inputs).  A value stored under the
    concrete address does not dominate the pattern when it is falsy:
    with a truthy [y] under [["a", *, "c"]] and a falsy [x] (DENY, 0, the
    empty string) under [["a","b","c"]], in either order, [get] of
    [["a","b","c"]] returns [y], the value of the pattern, and captures
    "b".  Nor does it when the two addresses end in [__proto__]: [put] at
    [["a","__proto__"]] and [put] at [[*,"__proto__"]] both write the
    default of [Object.prototype], so after [y] under the first and [z]
    under the second, [get] of [["a","__proto__"]] returns [z]. *)
Theorem C1_falsy_literal_loses_to_wildcard :
  forall (T : Type) `(Truthy T) (x y z : T) (wc : option (list string)),
    truthy x = false -> truthy y = true -> truthy z = true ->
    Realm.get_after Realm.clean new
      [([Some "a"; None; Some "c"], Some y);
       ([Some "a"; Some "b"; Some "c"], Some x)]
      ["a"; "b"; "c"] wc
    = Realm.Returns (Some y, ["a"; "b"; "c"], push_wc wc "b")
    ∧ Realm.get_after Realm.clean new
        [([Some "a"; Some "b"; Some "c"], Some x);
         ([Some "a"; None; Some "c"], Some y)]
        ["a"; "b"; "c"] wc
      = Realm.Returns (Some y, ["a"; "b"; "c"], push_wc wc "b")
    ∧ Realm.get_after Realm.clean new
        [([Some "a"; Some "__proto__"], Some y);
         ([None; Some "__proto__"], Some z)]
        ["a"; "__proto__"] wc
      = Realm.Returns (Some z, ["a"; "__proto__"], wc).
Proof.
  intros T HT x y z wc Hx Hy Hz. unfold truthy in Hx, Hy, Hz.
  split_and!;
    repeat (vm_compute; first [rewrite Hx | rewrite Hy | rewrite Hz]);
    vm_compute; by destruct wc.
Qed.

Lemma C1_falsy_literal_loses_to_wildcard_witness :
  Realm.get_after Realm.clean new
    [([Some "a"; None; Some "c"], Some AccessControl.ALLOW);
     ([Some "a"; Some "b"; Some "c"], Some AccessControl.DENY)]
    ["a"; "b"; "c"] (Some [])
  = Realm.Returns (Some AccessControl.ALLOW, ["a"; "b"; "c"], Some ["b"]).
Proof.
  refine (proj1 (C1_falsy_literal_loses_to_wildcard bool bool_truthy
                   AccessControl.DENY AccessControl.ALLOW AccessControl.ALLOW
                   (Some []) _ _ _)); reflexivity.
Defined.

(** A truthy value under the concrete address is found before the
    wildcard branch is looked at: the example of the specification. *)
Example specificity_example :
  Realm.get_after Realm.clean (@new Z)
    [([Some "a"; None; Some "c"], Some 1%Z);
     ([Some "a"; Some "b"; Some "c"], Some 2%Z)] ["a"; "b"; "c"] (Some [])
  = Realm.Returns (Some 2%Z, ["a"; "b"; "c"], Some [])
  ∧ Realm.get_after Realm.clean (@new Z)
      [([Some "a"; None; Some "c"], Some 1%Z);
       ([Some "a"; Some "b"; Some "c"], Some 2%Z)] ["a"; "z"; "c"] (Some [])
    = Realm.Returns (Some 1%Z, ["a"; "z"; "c"], Some ["z"]).
Proof. split; vm_compute; reflexivity. Qed.

(** ** C9: the input address of [get] *)

(** C9 (the code at the failing input).  [get] on the address [[""]]
    leaves the caller's array empty, and on [["a"; ""; "c"]], in a map that
    holds [["a"]], leaves [["a"; "c"]]: the empty segment is shifted off
    and the early return skips the [unshift]. *)
Theorem C9_get_drops_empty_segment :
  (get (@new Z) [""] None).1.2 = []
  ∧ (get (put (@new Z) [Some "a"] (Some 1%Z)) ["a"; ""; "c"] None).1.2
      = ["a"; "c"].
Proof. split; vm_compute; reflexivity. Qed.


(** ** C10: falsy stored values *)

Lemma get_put_falsy {T : Type} {HT : Truthy T} (this : AddressMap T)
    (A : list (option string)) (x : T) Q wc :
  truthy x = false -> A ≠ [] ->
  get (put this A (Some x)) Q wc = get (put this A None) Q wc.
Proof.
  intros Hx HA. unfold get, put. simpl.
  pose proof (falsy_put_flat x Hx A (table this) Q wc) as Hs.
  pose proof (js_or_same_or_falsy _ _ (default_entry (table this)) Hs) as Hor.
  destruct Hs as (Ha & Hw & _).
  destruct A as [|p A]; [done|]. rewrite !default_put_flat_cons.
  destruct (getFromAddrMapFlat (put_flat _ _ (Some x)) Q wc) as [[d1 a1] w1],
    (getFromAddrMapFlat (put_flat _ _ None) Q wc) as [[d2 a2] w2].
  simpl in *. subst a2 w2. by rewrite Hor.
Qed.

Lemma get_after_own {T : Type} {HT : Truthy T} (this : AddressMap T)
    (A : list (option string)) (v : option T) Q wc :
  Realm.own_keys A -> Realm.own_names Q ->
  Realm.get_after Realm.clean this [(A, v)] Q wc
  = Realm.Returns (get (put this A v) Q wc).
Proof.
  intros HA HQ. unfold Realm.get_after.
  rewrite Realm_put_all_own by (by repeat constructor).
  cbn [Realm.bind foldl fst snd]. by apply Realm_get_own.
Qed.

(** C10 (as amended).  In a realm whose [Object.prototype] holds no entry
    of an address map, for every AddressMap and every address other than
    the root address [[]] whose segments name no property inherited from
    [Object.prototype]: a falsy value stored there is treated by [get] as
    if nothing were stored there.  Every lookup (of an address with such
    segments) returns, and gives the same value, address and sink as
    after the entry was deleted; in particular a DENY stored at such an
    address in the map of a LegacyAccessController cannot be told from an
    absent entry.  A falsy value stored at the root address is still
    returned as the final fallback. *)
Theorem C10_falsy_value_is_absent :
  forall (T : Type) `(Truthy T) (this : AddressMap T)
         (A : list (option string)) (x : T),
    truthy x = false -> Realm.own_keys A ->
    (A ≠ [] ->
     forall Q wc, Realm.own_names Q ->
       Realm.get_after Realm.clean this [(A, Some x)] Q wc
       = Realm.get_after Realm.clean this [(A, None)] Q wc
       ∧ exists r,
           Realm.get_after Realm.clean this [(A, None)] Q wc
           = Realm.Returns r)
    ∧ (A ≠ [] ->
       forall (map : AddressMap bool) (to : list string),
         Realm.own_names to ->
         Realm.can_legacy_after Realm.clean map
           [(A, Some AccessControl.DENY)] to
         = Realm.can_legacy_after Realm.clean map [(A, None)] to
         ∧ exists r,
             Realm.can_legacy_after Realm.clean map [(A, None)] to
             = Realm.Returns r)
    ∧ (forall Q wc, Realm.own_names Q ->
         exists r,
           Realm.get_after Realm.clean this [([], Some x)] Q wc
           = Realm.Returns r
           ∧ (is_truthy r.1.1 = false -> r.1.1 = Some x)).
Proof.
  intros T HT this A x Hx HA. split_and!.
  - intros Hne Q wc HQ. rewrite !get_after_own by done.
    split; [|by eexists]. f_equal. by apply get_put_falsy.
  - intros Hne map to Hto. unfold Realm.can_legacy_after, Realm.can_legacy.
    rewrite !Realm_put_all_own by (by repeat constructor).
    cbn [Realm.bind foldl fst snd]. rewrite !Realm_get_own by done.
    cbn [Realm.bind].
    rewrite (get_put_falsy map A AccessControl.DENY to None eq_refl Hne).
    split; [done|].
    destruct (get (put map A None) to None) as [[d a] w]. by eexists.
  - intros Q wc HQ.
    rewrite get_after_own by (done || constructor). eexists.
    split; [done|].
    unfold get, put. cbn [table]. rewrite put_flat_nil.
    destruct (getFromAddrMapFlat (Node _ _ _) Q wc) as [[d a] w].
    cbn [fst snd default_entry].
    unfold js_or. destruct (is_truthy d) eqn:Hd; [congruence|done].
Qed.

Lemma C10_falsy_value_is_absent_witness :
  Realm.get_after Realm.clean (@new bool) [([Some "a"], Some false)]
    ["a"] None
  = Realm.get_after Realm.clean (@new bool) [([Some "a"], None)] ["a"] None.
Proof.
  refine (proj1 (proj1 (C10_falsy_value_is_absent bool bool_truthy new
                          [Some "a"] false _ _) _ ["a"] None _)).
  - reflexivity.
  - by repeat constructor.
  - discriminate.
  - by repeat constructor.
Defined.

(** C10 as stated fails at the root address: [put([], false)] makes
    [get([])] return [false], while an absent entry gives [undefined]. *)
Lemma C10_counterexample_root :
  ~ (forall (this : AddressMap bool) (A : list string) (x : bool)
            (Q : list string) (wc : option (list string)),
       truthy x = false ->
       Realm.get_after Realm.clean this [(Some <$> A, Some x)] Q wc
       = Realm.get_after Realm.clean this [(Some <$> A, None)] Q wc).
Proof.
  intros Hclaim. specialize (Hclaim new [] false [] None eq_refl).
  vm_compute in Hclaim. discriminate Hclaim.
Qed.

(** The same happens at the address [["__proto__"]], which is the default
    of [Object.prototype] and so the final fallback of every map: a
    falsy value stored there is returned by the lookup of any address
    that finds nothing. *)
Example falsy_value_on_Object_prototype :
  Realm.get_after Realm.clean (@new bool) [([Some "__proto__"], Some false)]
    ["zzz"] None
  = Realm.Returns (Some false, ["zzz"], None)
  ∧ Realm.get_after Realm.clean (@new bool) [([Some "__proto__"], None)]
      ["zzz"] None
    = Realm.Returns (None, ["zzz"], None).
Proof. split; vm_compute; reflexivity. Qed.

Section SinkFacts.
Context {T : Type} {HT : Truthy T}.
Implicit Types (m : AddressMapFlat T) (addr : list string).

(** A single pattern in a fresh table: a matching address finds its
    value and captures the segments at the wildcard positions. *)
Lemma walk_single_pattern (x : T) : truthy x = true ->
  forall P A, differs_by_wildcards P A -> NoEmpty A ->
  walk (put_flat empty_table P (Some x)) A = (Some x, wildcard_segments P A).
Proof.
  intros Hx. induction 1 as [|p a P A Hpa HPA IH]; intros HA.
  - done.
  - apply Forall_cons in HA as [Ha HA]. specialize (IH HA).
    apply String.eqb_neq in Ha.
    destruct Hpa as [->| ->]; cbn [put_flat key_of walk]; rewrite ?Ha;
      cbn [named wildcard_entry];
      change (named (@empty_table T))
        with (∅ : gmap string (AddressMapFlat T));
      change (wildcard_entry (@empty_table T))
        with (@None (AddressMapFlat T)).
    + rewrite lookup_empty. cbn [is_truthy default]. by rewrite IH.
    + rewrite lookup_insert_eq, lookup_empty. cbn [default].
      rewrite IH. cbn [is_truthy wildcard_segments key_of].
      by rewrite Hx, Ha.
Qed.
End SinkFacts.

Section MatchFacts.
Context {T : Type} {HT : Truthy T}.
Implicit Types (m : AddressMapFlat T) (A : list string)
  (path : list (option string)).

(** Whatever the descent returns is stored at a path of keys that
    matches the address (a key is the segment or the wildcard key). *)
Lemma walk_sound A : forall m v,
  (walk m A).1 = Some v ->
  exists path, differs_by_wildcards path A ∧ stored_at m path = Some v.
Proof.
  unfold stored_at, differs_by_wildcards.
  induction A as [|part rest IH]; intros m v Hw; simpl in Hw.
  - exists []. split; [constructor | done].
  - assert (Hlit : forall c d seen,
              named m !! part = Some c -> walk c rest = (d, seen) ->
              d = Some v ->
              exists path, Forall2 (fun p a => p = None ∨ p = Some a)
                             path (part :: rest)
                ∧ match node_at m path with
                  | Some n => default_entry n
                  | None => None
                  end = Some v).
    { intros c d seen Hc Hwc ->.
      destruct (IH c v) as (path & Hm & Hs); [by rewrite Hwc|].
      exists (Some part :: path). split; [constructor; auto|].
      simpl. by rewrite Hc. }
    destruct (named m !! part) as [c|] eqn:Hc.
    + destruct (walk c rest) as [d seen] eqn:Hwc.
      destruct (is_truthy d) eqn:Hd; simpl in Hw; [by eapply Hlit|].
      destruct (wildcard_entry m) as [w|] eqn:Hwild; [|by eapply Hlit].
      destruct (walk w rest) as [d' seen'] eqn:Hww. simpl in Hw. subst d'.
      destruct (IH w v) as (path & Hm & Hs); [by rewrite Hww|].
      exists (None :: path). split; [constructor; auto|].
      simpl. by rewrite Hwild.
    + simpl in Hw. destruct (wildcard_entry m) as [w|] eqn:Hwild; [|done].
      destruct (walk w rest) as [d' seen'] eqn:Hww. simpl in Hw. subst d'.
      destruct (IH w v) as (path & Hm & Hs); [by rewrite Hww|].
      exists (None :: path). split; [constructor; auto|].
      simpl. by rewrite Hwild.
Qed.

(** A truthy value stored at a matching path makes the descent return
    a truthy value. *)
Lemma walk_complete path A : differs_by_wildcards path A ->
  forall m v, stored_at m path = Some v -> truthy v = true ->
  is_truthy (walk m A).1 = true.
Proof.
  unfold stored_at.
  induction 1 as [|key part path rest Hkey Hm IH]; intros m v Hs Hv.
  - simpl in *. by rewrite Hs.
  - simpl in Hs. simpl.
    destruct Hkey as [-> | ->]; simpl in Hs.
    + destruct (wildcard_entry m) as [w|]; [|done].
      specialize (IH w v Hs Hv).
      destruct (match named m !! part with
                | Some c => walk c rest
                | None => (None, [])
                end) as [d seen].
      destruct (is_truthy d) eqn:Hd; [done|].
      by destruct (walk w rest).
    + destruct (named m !! part) as [c|]; [|done].
      specialize (IH c v Hs Hv).
      destruct (walk c rest) as [d seen]. simpl in IH. by rewrite IH.
Qed.

(** Two [put]s at addresses with different keys can be swapped. *)
Lemma put_flat_commute P : forall m Q (x y : option T),
  key_of <$> P ≠ key_of <$> Q ->
  put_flat (put_flat m P x) Q y = put_flat (put_flat m Q y) P x.
Proof.
  induction P as [|p P IH]; intros m [|q Q] x y Hne; try done.
  - rewrite !put_flat_nil. simpl. by destruct (key_of q).
  - rewrite !put_flat_nil. simpl. by destruct (key_of p).
  - rewrite !fmap_cons in Hne. simpl.
    destruct (key_of p) as [kp|] eqn:Hp, (key_of q) as [kq|] eqn:Hq;
      simpl; try done.
    + destruct (decide (kp = kq)) as [->|Hk].
      * rewrite !lookup_insert_eq, !insert_insert_eq. simpl.
        rewrite IH; [done|]. intros Heq. apply Hne. by rewrite Heq.
      * rewrite !lookup_insert_ne by done.
        f_equal. by apply insert_insert_ne.
    + rewrite IH; [done|]. intros Heq. apply Hne. by rewrite Heq.
Qed.
End MatchFacts.


(** ** C6: deleting with [put(addr, absent)] *)

Lemma own_names_of_keys (A : list string) :
  Realm.own_keys (Some <$> A) -> Realm.own_names A.
Proof. unfold Realm.own_keys, Realm.own_names. by rewrite Forall_fmap. Qed.

(** C6 (as amended).  In a realm whose [Object.prototype] holds no entry
    of an address map, for every AddressMap and every address [P] at which
    a value is stored and whose segments name no property inherited from
    [Object.prototype]: [put(P, absent)] returns and deletes only the
    default value at that exact address.  The node stays with its children
    in place, every other stored value is unchanged, no node is pruned
    and [Object.prototype] is not touched; the deleted value leaves no
    trace (the map is the one in which the entry was deleted whatever
    value it held).  A subsequent [get] of the concrete address [A = P]
    returns, with [A] unchanged, and what it returns does not come from
    the deleted entry: it is a value stored under another pattern that
    matches [A] (reached through a wildcard branch), or else the root's
    default value, not the default of an intermediate ancestor. *)
Theorem C6_put_absent_deletes_only_default :
  forall (T : Type) `(Truthy T) (this : AddressMap T)
         (P : list (option string)) (x : T),
    Realm.own_keys P ->
    stored_at (table this) (key_of <$> P) = Some x ->
    exists deleted : AddressMap T,
      Realm.put Realm.clean this P None
        = Realm.Returns (Realm.clean, deleted)
      ∧ (exists n, node_at (table this) (key_of <$> P) = Some n
           ∧ node_at (table deleted) (key_of <$> P)
               = Some (Node (named n) (wildcard_entry n) None))
      ∧ (forall path, path ≠ key_of <$> P ->
           stored_at (table deleted) path = stored_at (table this) path)
      ∧ (forall path, is_Some (node_at (table this) path) ->
           is_Some (node_at (table deleted) path))
      ∧ (forall y,
           Realm.put_all Realm.clean this [(P, Some y); (P, None)]
           = Realm.Returns (Realm.clean, deleted))
      ∧ (forall A wc,
           P = Some <$> A -> NoEmpty A ->
           exists r wc',
             Realm.get Realm.clean deleted A wc = Realm.Returns (r, A, wc')
             ∧ stored_at (table deleted) (Some <$> A) = None
             ∧ ((exists path v,
                   r = Some v ∧ truthy v = true ∧ path ≠ Some <$> A
                   ∧ differs_by_wildcards path A
                   ∧ stored_at (table deleted) path = Some v)
                ∨ r = default_entry (table deleted))).
Proof.
  intros T HT this P x Hown Hst. exists (put this P None).
  split; [by apply Realm_put_own|]. split_and!.
  - unfold stored_at in Hst.
    destruct (node_at (table this) (key_of <$> P)) as [n|] eqn:Hn; [|done].
    exists n. split; [done|]. simpl.
    by rewrite node_at_put_flat_same, Hn.
  - intros path Hne. by apply stored_at_put_flat_other.
  - intros path. apply node_at_put_flat_is_Some.
  - intros y. rewrite Realm_put_all_own by (by repeat constructor).
    cbn [foldl fst snd]. unfold put. cbn [table].
    by rewrite put_flat_put_flat.
  - intros A wc -> HA.
    assert (Hgone : stored_at (table (put this (Some <$> A) None))
                              (Some <$> A) = None).
    { unfold put. cbn [table].
      rewrite <- (NoEmpty_key_of A) at 2 by done.
      by rewrite stored_at_put_flat_same. }
    rewrite Realm_get_own by by apply own_names_of_keys.
    rewrite get_walk by done.
    set (m := table (put this (Some <$> A) None)) in *.
    eexists _, _. split; [reflexivity|]. split; [done|].
    unfold js_or.
    destruct (is_truthy (walk m A).1) eqn:Ht; [left|by right].
    destruct (walk m A).1 as [v|] eqn:Hw; [|done].
    destruct (walk_sound A m v Hw) as (path & Hm & Hs).
    exists path, v. split_and!; try done.
    intros ->. congruence.
Qed.

Lemma C6_put_absent_deletes_only_default_witness :
  exists deleted : AddressMap Z,
    Realm.put Realm.clean
      (foldl (fun this e => put this e.1 e.2) (@new Z)
         [([Some "a"], Some 1%Z); ([Some "a"; Some "b"], Some 2%Z);
          ([None; Some "b"], Some 3%Z)])
      [Some "a"; Some "b"] None
    = Realm.Returns (Realm.clean, deleted)
    ∧ Realm.get Realm.clean deleted ["a"; "b"] (Some [])
      = Realm.Returns (Some 3%Z, ["a"; "b"], Some ["a"]).
Proof.
  destruct (C6_put_absent_deletes_only_default Z number_truthy
    (foldl (fun this e => put this e.1 e.2) (@new Z)
       [([Some "a"], Some 1%Z); ([Some "a"; Some "b"], Some 2%Z);
        ([None; Some "b"], Some 3%Z)])
    [Some "a"; Some "b"] 2%Z) as (deleted & Hput & _).
  - by repeat constructor.
  - vm_compute. reflexivity.
  - exists deleted. split; [exact Hput|].
    vm_compute in Hput. injection Hput as <-. vm_compute. reflexivity.
Defined.

(** C6 as stated fails: after [put(["a"], 1)], [put(["a","b"], 2)] and
    [put(["a","b"], absent)], [get(["a","b"])] is [undefined], while the
    next-most-specific ancestor [["a"]] holds the default [1]. *)
Lemma C6_counterexample_ancestor_default :
  ~ (forall (this : AddressMap Z) (A : list string) (x : Z)
            (wc : option (list string)),
       stored_at (table this) (Some <$> A) = Some x ->
       forall proto deleted r,
         Realm.put Realm.clean this (Some <$> A) None
           = Realm.Returns (proto, deleted) ->
         Realm.get proto deleted A wc = Realm.Returns r ->
         r.1.1 = ancestor_default (table deleted) (Some <$> A)).
Proof.
  intros Hclaim.
  specialize (Hclaim
    (put (put new [Some "a"] (Some 1%Z)) [Some "a"; Some "b"] (Some 2%Z))
    ["a"; "b"] 2%Z None).
  vm_compute in Hclaim.
  specialize (Hclaim eq_refl _ _ _ eq_refl eq_refl). discriminate Hclaim.
Qed.

(** ** C3: the chained access controller *)

Section ChainFacts.
Import AccessControl.
Context {Opts World : Type}.
Implicit Types (ctrl : AccessController Opts World)
  (ctrls pre post : list (AccessController Opts World)).

Lemma some_all_undecided addr opts pre : forall w w1 val0 rest,
  all_undecided addr opts pre w w1 ->
  some_ (chain_callback addr opts) (pre ++ rest) (val0, w)
    = some_ (chain_callback addr opts) rest
        (match pre with [] => val0 | _ => None end, w1).
Proof.
  induction pre as [|c pre IH]; intros w w1 val0 rest Hall;
    inversion Hall; subst; [done|].
  simpl. unfold chain_callback at 1. simpl.
  match goal with Hc : can c _ _ _ = _ |- _ => rewrite Hc end. simpl.
  erewrite IH by eassumption. by destruct pre.
Qed.
End ChainFacts.

(** C3.  For every ChainedAccessController, [can] invokes the
    sub-controllers in list order and stops at the first one that returns a
    non-UNDECIDED verdict: when the controllers before [ctrl] all answer
    UNDECIDED and [ctrl] answers ALLOW or DENY, the result is that verdict
    and the world is the one [ctrl] left, whatever controllers follow (none
    of them is invoked).  If every sub-controller answers UNDECIDED, the
    configured default is returned (which may itself be UNDECIDED). *)
Theorem C3_chain_stops_at_first_verdict :
  forall (Opts World : Type)
         (this : AccessControl.ChainedAccessController Opts World)
         (addr : list string) (opts : Opts) (w : World),
    (forall pre ctrl post w1 verdict w2,
       AccessControl.access_chain this = pre ++ ctrl :: post ->
       AccessControl.all_undecided addr opts pre w w1 ->
       AccessControl.can ctrl addr opts w1 = (Some verdict, w2) ->
       AccessControl.can_chained this addr opts w = (Some verdict, w2))
    ∧ (forall w',
         AccessControl.all_undecided addr opts
           (AccessControl.access_chain this) w w' ->
         AccessControl.can_chained this addr opts w
           = (AccessControl.default_ap this, w')).
Proof.
  intros Opts World this addr opts w. split.
  - intros pre ctrl post w1 verdict w2 Hchain Hpre Hctrl.
    unfold AccessControl.can_chained. rewrite Hchain.
    erewrite some_all_undecided by eassumption.
    simpl. unfold AccessControl.chain_callback at 1. simpl.
    rewrite Hctrl. by simpl.
  - intros w' Hall. unfold AccessControl.can_chained.
    rewrite <- (app_nil_r (AccessControl.access_chain this)).
    erewrite some_all_undecided by eassumption. simpl.
    by destruct (AccessControl.access_chain this).
Qed.

(** The test of the repository: three controllers that record their
    number; the second one denies, the third one is never called. *)
Lemma C3_chain_stops_at_first_verdict_witness :
  AccessControl.can_chained
    {| AccessControl.access_chain :=
         [Fixtures.logging 1 None;
          Fixtures.logging 2 (Some AccessControl.DENY);
          Fixtures.logging 3 None];
       AccessControl.default_ap := Some AccessControl.ALLOW |}
    ["net"; "kb1rd"; "test"] tt []
  = (Some AccessControl.DENY, [1; 2]).
Proof.
  refine (proj1 (C3_chain_stops_at_first_verdict unit (list nat) _
                   ["net"; "kb1rd"; "test"] tt [])
            [Fixtures.logging 1 None]
            (Fixtures.logging 2 (Some AccessControl.DENY))
            [Fixtures.logging 3 None] [1] AccessControl.DENY [1; 2] _ _ _).
  - reflexivity.
  - eapply AccessControl.all_undecided_cons;
      [reflexivity | apply AccessControl.all_undecided_nil].
  - reflexivity.
Defined.

(** ** C5: serialization of errors *)

(** C5 (as amended).  For every Error value that carries no custom
    serialization method, [rpcSerialize] gives the object
    [{ name, message, stack, columnNumber, lineNumber, fileName }] whose
    [stack] is the fixed redaction string, with the positional fields
    passed through as they are (absent ones as [undefined]) and nothing
    pushed to the transfer list; two such errors that differ only in their
    stack serialize to identical outputs.  An Error that carries the
    method is serialized by the method alone. *)
Theorem C5_error_stack_redacted :
  forall (e : Serializer.ErrorFields) (xfer : list Serializer.Transferable),
    Serializer.rpcSerialize (Serializer.DError e None) xfer
      = Serializer.Ok
          (Serializer.SObject
             [("name", Serializer.SPrimitive
                         (Serializer.PString (Serializer.name e)));
              ("message", Serializer.SPrimitive
                            (Serializer.PString (Serializer.message e)));
              ("stack", Serializer.SPrimitive
                          (Serializer.PString
                             "Stack trace redacted for security reasons"));
              ("columnNumber", Serializer.SPrimitive
                                 (Serializer.columnNumber e));
              ("lineNumber", Serializer.SPrimitive (Serializer.lineNumber e));
              ("fileName", Serializer.SPrimitive (Serializer.fileName e))],
           xfer)
    ∧ (forall e', Serializer.same_but_stack e e' ->
         Serializer.rpcSerialize (Serializer.DError e None) xfer
           = Serializer.rpcSerialize (Serializer.DError e' None) xfer)
    ∧ (forall hook,
         Serializer.rpcSerialize (Serializer.DError e (Some hook)) xfer
           = Serializer.Ok (hook e xfer)).
Proof.
  intros e xfer. split_and!; [reflexivity| |reflexivity].
  intros e' (Hn & Hm & Hc & Hl & Hf). simpl.
  by rewrite Hn, Hm, Hc, Hl, Hf.
Qed.

Lemma C5_error_stack_redacted_witness :
  Serializer.rpcSerialize
    (Serializer.DError
       {| Serializer.name := "Error"; Serializer.message := "boom";
          Serializer.stack := "at secret.js:1";
          Serializer.columnNumber := Serializer.PUndefined;
          Serializer.lineNumber := Serializer.PNumber 7;
          Serializer.fileName := Serializer.PUndefined |} None) []
  = Serializer.rpcSerialize
      (Serializer.DError
         {| Serializer.name := "Error"; Serializer.message := "boom";
            Serializer.stack := "at other.js:2";
            Serializer.columnNumber := Serializer.PUndefined;
            Serializer.lineNumber := Serializer.PNumber 7;
            Serializer.fileName := Serializer.PUndefined |} None) [].
Proof.
  refine (proj1 (proj2 (C5_error_stack_redacted _ [])) _ _).
  repeat split.
Defined.

(** C5 as stated fails for an Error that carries a [toRpcSerialized]
    method: [rpcSerialize] delegates to it before any other rule, so a
    method returning [this.stack] puts the stack on the wire, and two such
    errors that differ only in their stack serialize differently. *)
Lemma C5_counterexample_custom_hook :
  ~ (forall (e e' : Serializer.ErrorFields)
            (hook : option (Serializer.SerializationFunction
                              Serializer.ErrorFields))
            (xfer : list Serializer.Transferable),
       Serializer.same_but_stack e e' ->
       Serializer.rpcSerialize (Serializer.DError e hook) xfer
         = Serializer.rpcSerialize (Serializer.DError e' hook) xfer).
Proof.
  intros Hclaim.
  set (err := fun st =>
    {| Serializer.name := "Error"; Serializer.message := "boom";
       Serializer.stack := st;
       Serializer.columnNumber := Serializer.PUndefined;
       Serializer.lineNumber := Serializer.PUndefined;
       Serializer.fileName := Serializer.PUndefined |}).
  specialize (Hclaim (err "at secret.js:1") (err "at other.js:2")
    (Some (fun e xfer =>
             (Serializer.SPrimitive (Serializer.PString (Serializer.stack e)),
              xfer))) []).
  assert (Hs : Serializer.same_but_stack (err "at secret.js:1")
                 (err "at other.js:2")) by (repeat split).
  specialize (Hclaim Hs). simpl in Hclaim. discriminate Hclaim.
Qed.

(** ** The channel: what each method does to [_state] *)

Section StateFacts.
Import Serializer Registry.
Implicit Types (c : RpcChannel).

Lemma state_emit c e : _state (emit c e) = _state c.
Proof. done. Qed.

Lemma state_send c to args ra rt c' :
  send c to args ra rt = Ok c' -> _state c' = _state c.
Proof.
  unfold send. destruct (rpcSerialize_all args []) as [[sargs xfer]|];
    simpl; [|done]. by intros [= <-].
Qed.

Lemma state_try_send c to : _state (try_send c to) = _state c.
Proof.
  unfold try_send. destruct (send c to [] None promise) as [c'|] eqn:Hs;
    [|done]. by apply state_send in Hs.
Qed.

Lemma state_send_or_throw c to args :
  _state (send_or_throw c to args).1 = _state c.
Proof.
  unfold send_or_throw.
  destruct (send c to args None promise) as [c'|] eqn:Hs; [|done].
  by apply state_send in Hs.
Qed.

Lemma state_resetTimeout c : _state (resetTimeout c) = _state c.
Proof.
  unfold resetTimeout. simpl. destruct (_state c) eqn:Hs; try done.
  by destruct (truthy _).
Qed.

Lemma state_sendKeepAlive c : _state (sendKeepAlive c) = _state c.
Proof.
  unfold sendKeepAlive. destruct (Q_truthy _); [|done].
  apply state_try_send.
Qed.

Lemma state_resetKeepAlive c : _state (resetKeepAlive c) = _state c.
Proof.
  unfold resetKeepAlive. destruct (Q_truthy _); simpl;
    apply state_sendKeepAlive.
Qed.

Lemma state_settle c id r : _state (settle c id r) = _state c.
Proof. unfold settle. by destruct (decide _). Qed.

Lemma state_onChannelClose c id : _state (onChannelClose c id) = _state c.
Proof. unfold onChannelClose. by rewrite state_settle. Qed.

Lemma state_fold_onChannelClose ids : forall c,
  _state (fold_left onChannelClose ids c) = _state c.
Proof.
  induction ids as [|id ids IH]; intros c; simpl; [done|].
  by rewrite IH, state_onChannelClose.
Qed.

Lemma state_emit_close c : _state (emit_close c) = _state c.
Proof. unfold emit_close. simpl. apply state_fold_onChannelClose. Qed.

Lemma state_emit_rawmessage c : _state (emit_rawmessage c) = _state c.
Proof. unfold emit_rawmessage. simpl. apply state_resetTimeout. Qed.

Lemma state_stateChange c s : _state (_stateChange c s) = s.
Proof.
  unfold _stateChange. destruct s; try done. by rewrite state_emit_close.
Qed.

(** [close] always ends in [CLOSED] ... *)
Lemma state_close c s : _state (close c s) = CLOSED.
Proof.
  unfold close. destruct (_state c) eqn:Hs; [| |done];
    unfold set_active_keepalive, set_active_timeout, set_i_reg;
    cbn [_state]; apply state_stateChange.
Qed.

(** ... and does nothing on a closed channel. *)
Lemma close_closed c s : _state c = CLOSED -> close c s = c.
Proof. intros Hs. unfold close. by rewrite Hs. Qed.

Lemma state_start_continue c :
  rank (_state c) <= rank (_state (start_continue c)).
Proof.
  unfold start_continue. destruct (_state c) eqn:Hs; rewrite ?Hs; try done.
  rewrite state_resetTimeout, state_stateChange. simpl. lia.
Qed.

Lemma state_call_return c id args :
  _state (call_return c id args) = _state c.
Proof.
  unfold call_return, onDone. simpl.
  destruct (is_truthy (args !! 1%nat)); [destruct (is_truthy _)|];
    apply state_settle.
Qed.

Lemma state_invoke c f wc args :
  rank (_state c) <= rank (_state (invoke c f wc args).1).
Proof.
  unfold invoke. destruct f as [|id|body r]; cbn [fst].
  - rewrite state_close. destruct (_state c); simpl; lia.
  - by rewrite state_call_return.
  - done.
Qed.

Lemma state_maybeReturn c val data error :
  _state (maybeReturn c val data error).1 = _state c.
Proof.
  unfold maybeReturn. destruct (return_addr val) as [addr|]; [|done].
  destruct (return_type val) as [[]|];
    try (destruct (truthy error); apply state_send_or_throw).
  destruct (truthy error); [apply state_send_or_throw|].
  destruct (send_or_throw c addr _) as [c1 [msg|]] eqn:H1;
    pose proof (state_send_or_throw c addr
      [data; undefined; DPrimitive (PBoolean false)]) as E1;
    rewrite H1 in E1; simpl in E1; [done|].
  destruct (send_or_throw c1 addr _) as [c2 [msg|]] eqn:H2;
    pose proof (state_send_or_throw c1 addr
      [undefined; undefined; DPrimitive (PBoolean true)]) as E2;
    rewrite H2 in E2; simpl in *; congruence.
Qed.

Lemma state_receive c val :
  rank (_state c) <= rank (_state (receive c val).1).
Proof.
  unfold receive. destruct (_state c) eqn:Hs; [| |simpl; by rewrite Hs].
  all: destruct (lookup_handler _ _) as [[func to'] wc].
  all: destruct (decide _);
    [by rewrite state_maybeReturn, state_emit_rawmessage, Hs|].
  all: destruct func as [f|];
    [|by rewrite state_maybeReturn, state_emit_rawmessage, Hs].
  all: pose proof (state_invoke (emit_rawmessage c) f wc (args val)) as Hi.
  all: rewrite state_emit_rawmessage, Hs in Hi.
  all: destruct (invoke _ f wc (args val)) as [c' [d|e]];
    by rewrite state_maybeReturn.
Qed.

Lemma state_call c to args : _state (call c to args).2 = _state c.
Proof.
  unfold call. simpl.
  destruct (send _ to args _ promise) as [c'|] eqn:Hsend; simpl.
  - by apply state_send in Hsend.
  - by rewrite state_settle.
Qed.

(** No operation moves the state backwards. *)
Lemma state_step c op : rank (_state c) <= rank (_state (step c op)).
Proof.
  destruct op; simpl.
  - unfold start. destruct (_state c) eqn:Hs; rewrite ?Hs; try done.
    destruct (r_await_first_msg _); simpl; [by rewrite Hs|].
    pose proof (state_start_continue c) as H. by rewrite Hs in H.
  - unfold resume_start. destruct (start_ready c); [done|].
    apply (state_start_continue (set_start c (start_waiting c) n)).
  - rewrite state_close. destruct (_state c); simpl; lia.
  - apply state_receive.
  - destruct (active_timeout c); [|done]. simpl.
    rewrite state_close. destruct (_state c); simpl; lia.
  - destruct (active_keepalive c); [|done]. by rewrite state_sendKeepAlive.
  - by rewrite state_call.
  - by rewrite state_send_or_throw.
  - done.
  - done.
  - unfold setTimeout. by rewrite state_resetKeepAlive, state_resetTimeout.
  - done.
Qed.

Lemma state_run ops : forall c, rank (_state c) <= rank (_state (run c ops)).
Proof.
  unfold run. induction ops as [|op ops IH]; intros c; simpl; [done|].
  etransitivity; [apply state_step | apply IH].
Qed.
End StateFacts.

(** ** C4: the channel state is monotone, [close] is idempotent *)

(** C4.  Along every sequence of operations (start and its resumption,
    close, receive, timer expiry, keepalive tick, call, send, register,
    unregister, the option setters) the state only moves forward in
    [INACTIVE -> ACTIVE -> CLOSED]: a channel that is CLOSED stays CLOSED
    and no state returns to INACTIVE.  A second [close()] changes nothing:
    no message is sent, the state does not change, no handler is cleared
    and no listener runs (the channel is the same value as after the first
    call); a [receive] on a closed channel does nothing either, and a timer
    expiry sends nothing. *)
Theorem C4_state_monotone_close_idempotent :
  forall (c : Registry.RpcChannel),
    (forall ops,
       Registry.rank (Registry._state c)
         <= Registry.rank (Registry._state (Registry.run c ops)))
    ∧ (forall ops, Registry._state c = Registry.CLOSED ->
         Registry._state (Registry.run c ops) = Registry.CLOSED)
    ∧ (forall ops, Registry._state c ≠ Registry.INACTIVE ->
         Registry._state (Registry.run c ops) ≠ Registry.INACTIVE)
    ∧ (forall send1 send2,
         Registry.close (Registry.close c send1) send2
           = Registry.close c send1)
    ∧ (Registry._state c = Registry.CLOSED ->
       forall val,
         Registry.step c (Registry.OpReceive val) = c
         ∧ Registry.events (Registry.step c Registry.OpTimerExpiry)
             = Registry.events c).
Proof.
  intros c. split_and!.
  - intros ops. apply state_run.
  - intros ops Hc. pose proof (state_run ops c) as H. rewrite Hc in H.
    destruct (Registry._state (Registry.run c ops)); simpl in H; done || lia.
  - intros ops Hc Hi. pose proof (state_run ops c) as H. rewrite Hi in H.
    destruct (Registry._state c); simpl in H; done || lia.
  - intros send1 send2. apply close_closed, state_close.
  - intros Hc val. split.
    + simpl. unfold Registry.receive. by rewrite Hc.
    + simpl. destruct (Registry.active_timeout c) eqn:Ht; [|done].
      rewrite close_closed by done. done.
Qed.

Lemma C4_state_monotone_close_idempotent_witness :
  Registry._state
    (Registry.run (Registry.close Fixtures.fresh_channel true)
       [Registry.OpStart; Registry.OpReceive Fixtures.missing_call;
        Registry.OpResumeStart; Registry.OpTimerExpiry;
        Registry.OpClose true])
  = Registry.CLOSED.
Proof.
  refine (proj1 (proj2 (C4_state_monotone_close_idempotent
    (Registry.close Fixtures.fresh_channel true))) _ _).
  reflexivity.
Defined.

(** ** C8: correlation addresses *)

Section SeqFacts.
Import Registry.

Lemma seq_addr_inj : Inj (=) (=) seq_addr.
Proof.
  intros n1 n2 Heq. unfold seq_addr in Heq.
  injection Heq as Heq. apply (inj (String.app "")) in Heq.
  by apply (inj pretty) in Heq.
Qed.

Lemma post_increment_min k :
  (k <= 2 ^ 53)%N ->
  Correlation.post_increment k = N.min (k + 1) (2 ^ 53).
Proof.
  unfold Correlation.post_increment. set (b := (2 ^ 53)%N).
  intros Hk. destruct (N.ltb_spec k b); lia.
Qed.

(** From any counter value [k] that the counter can hold, [n] calls give
    the addresses for [k, k+1, ...], with 2^53 for every value from 2^53
    on, and leave the counter at [k+n], or at 2^53 from there on. *)
Lemma nextSeqAddr_times_from n : forall this,
  (return_seq_id this <= 2 ^ 53)%N ->
  (Correlation.nextSeqAddr_times n this).1
    = (fun i => seq_addr (N.min (return_seq_id this + N.of_nat i) (2 ^ 53)))
        <$> seq 0 n
  ∧ return_seq_id (Correlation.nextSeqAddr_times n this).2
    = N.min (return_seq_id this + N.of_nat n) (2 ^ 53)
  ∧ map (Correlation.nextSeqAddr_times n this).2 = map this
  ∧ chain (Correlation.nextSeqAddr_times n this).2 = chain this.
Proof.
  set (b := (2 ^ 53)%N).
  induction n as [|n IH]; intros this Hk.
  - simpl. split_and!; try done. lia.
  - cbn [Correlation.nextSeqAddr_times]. unfold Correlation.nextSeqAddr.
    set (this' := {| chain := chain this; map := map this;
                     return_seq_id :=
                       Correlation.post_increment (return_seq_id this) |}).
    assert (Hk' : (return_seq_id this' <= b)%N).
    { subst this'. cbn [return_seq_id].
      rewrite post_increment_min by done. fold b. lia. }
    destruct (IH this' Hk') as (Ha & Hc & Hm & Hch).
    destruct (Correlation.nextSeqAddr_times n this') as [addrs this''].
    subst this'. cbn [fst snd return_seq_id map chain] in *.
    rewrite post_increment_min in Ha, Hc by done. fold b in Ha, Hc.
    split_and!; try done.
    + rewrite Ha. cbn [seq fmap list_fmap]. f_equal; [f_equal; lia|].
      change (list_fmap nat MultistringAddress ?f ?l) with (f <$> l).
      rewrite <- fmap_S_seq, <- list_fmap_compose.
      apply list_fmap_ext. intros i x _. simpl. f_equal. lia.
    + rewrite Hc. lia.
Qed.
End SeqFacts.

(** C8 (as amended).  The counter is a JavaScript number: [x++] is exact
    below 2^53 and leaves 2^53 as it is.  For every RpcHandlerRegistry
    instance whose counter holds [k] and every [n] with [k + n <= 2^53],
    [n] successive calls of [nextSeqAddr] return the addresses
    ["_","ret","id<k>"] through ["_","ret","id<k+n-1>"], in order and
    pairwise distinct (no gaps or repeats), and leave the counter at
    [k + n]; on an instance on which
    the allocator has not been called (the counter starts at 0) these are
    exactly ["_","ret","id0"] through ["_","ret","id(n-1)"].  The counter
    belongs to the instance and is stored in it: of two distinct registry
    objects, a call on the first returns the address of its counter, a call
    on the second then returns the address of the second's counter, a
    further call on the first returns the address of the first's
    incremented counter, and a call on one object leaves every other
    object as it was.  On an instance whose counter has reached 2^53,
    every call returns ["_","ret","id9007199254740992"]. *)
Theorem C8_correlation_addresses :
  forall (this : Registry.RpcHandlerRegistry) (n : nat),
    (Registry.return_seq_id this + N.of_nat n <= 2 ^ 53)%N ->
    (Correlation.nextSeqAddr_times n this).1
      = (fun i =>
           ["_"; "ret";
            "id" +:+ pretty (Registry.return_seq_id this + N.of_nat i)%N])
          <$> seq 0 n
    ∧ NoDup (Correlation.nextSeqAddr_times n this).1
    ∧ Registry.return_seq_id (Correlation.nextSeqAddr_times n this).2
      = (Registry.return_seq_id this + N.of_nat n)%N
    ∧ Registry.return_seq_id Registry.new_registry = 0%N
    ∧ (Registry.return_seq_id this = 0%N ->
       (Correlation.nextSeqAddr_times n this).1
         = (fun i => ["_"; "ret"; "id" +:+ pretty (N.of_nat i)]) <$> seq 0 n)
    ∧ (forall (store : gmap nat Registry.RpcHandlerRegistry)
              (obj other : nat) (that : Registry.RpcHandlerRegistry),
         obj ≠ other ->
         store !! obj = Some this -> store !! other = Some that ->
         exists store1 store2 store3,
           Correlation.nextSeqAddr_at store obj
             = Some (Registry.seq_addr (Registry.return_seq_id this), store1)
           ∧ Correlation.nextSeqAddr_at store1 other
             = Some (Registry.seq_addr (Registry.return_seq_id that), store2)
           ∧ Correlation.nextSeqAddr_at store2 obj
             = Some (Registry.seq_addr
                       (Correlation.post_increment
                          (Registry.return_seq_id this)), store3)
           ∧ store1 !! other = Some that)
    ∧ (forall (store store' : gmap nat Registry.RpcHandlerRegistry)
              (obj other : nat) addr,
         Correlation.nextSeqAddr_at store obj = Some (addr, store') ->
         other ≠ obj -> store' !! other = store !! other)
    ∧ (forall (that : Registry.RpcHandlerRegistry) (m : nat),
         Registry.return_seq_id that = (2 ^ 53)%N ->
         (Correlation.nextSeqAddr_times m that).1
           = replicate m ["_"; "ret"; "id9007199254740992"]).
Proof.
  intros this n Hn.
  set (b := (2 ^ 53)%N) in *.
  assert (Hk : (Registry.return_seq_id this <= b)%N) by lia.
  destruct (nextSeqAddr_times_from n this Hk) as (Ha & Hc & _ & _).
  fold b in Ha, Hc.
  assert (Ha' : (Correlation.nextSeqAddr_times n this).1
      = (fun i => Registry.seq_addr (Registry.return_seq_id this + N.of_nat i))
          <$> seq 0 n).
  { rewrite Ha. apply list_fmap_ext. intros i x Hix.
    apply lookup_seq in Hix as [-> Hlt]. simpl. f_equal. lia. }
  split_and!.
  - exact Ha'.
  - rewrite Ha'. apply NoDup_fmap_2; [|apply NoDup_seq].
    intros i j Hij. apply seq_addr_inj in Hij. lia.
  - rewrite Hc. lia.
  - reflexivity.
  - intros H0. rewrite Ha', H0. apply list_fmap_ext. intros i x _.
    unfold Registry.seq_addr. by rewrite N.add_0_l.
  - intros store obj other that Hne Hobj Hother.
    unfold Correlation.nextSeqAddr_at.
    rewrite Hobj. cbn [Correlation.nextSeqAddr].
    eexists _, _, _. split; [reflexivity|].
    rewrite lookup_insert_ne by done. rewrite Hother. cbn.
    split; [reflexivity|].
    rewrite lookup_insert_ne by done. rewrite lookup_insert_eq. cbn.
    split; [reflexivity|done].
  - intros store store' obj other addr Hat Hne.
    unfold Correlation.nextSeqAddr_at in Hat.
    destruct (store !! obj) as [r|]; [|done]. simpl in Hat.
    injection Hat as _ <-. by rewrite lookup_insert_ne.
  - intros that m Hthat.
    change ["_"; "ret"; "id9007199254740992"] with (Registry.seq_addr b).
    destruct (nextSeqAddr_times_from m that) as (Hm & _).
    { rewrite Hthat. reflexivity. }
    rewrite Hm, Hthat. fold b. clear. generalize 0%nat.
    induction m as [|m IH]; intros start; [done|].
    cbn [seq fmap list_fmap replicate]. f_equal; [f_equal; lia|apply IH].
Qed.

Lemma C8_correlation_addresses_witness :
  (Correlation.nextSeqAddr_times 3 Registry.new_registry).1
    = [["_"; "ret"; "id0"]; ["_"; "ret"; "id1"]; ["_"; "ret"; "id2"]]
  ∧ NoDup (Correlation.nextSeqAddr_times 3 Registry.new_registry).1.
Proof.
  assert (H : (Registry.return_seq_id Registry.new_registry + N.of_nat 3
               <= 2 ^ 53)%N) by (vm_compute; discriminate).
  split.
  - exact (proj1 (proj2 (proj2 (proj2 (proj2
      (C8_correlation_addresses Registry.new_registry 3 H))))) eq_refl).
  - exact (proj1 (proj2
      (C8_correlation_addresses Registry.new_registry 3 H))).
Defined.

(** C8 as stated fails for large [N]: on a new registry, the calls number
    2^53 + 1 and 2^53 + 2 both return ["_","ret","id9007199254740992"],
    since the counter stays at 2^53 once it has reached it. *)
Lemma C8_counterexample_counter_saturates :
  ~ (forall n : nat,
       NoDup (Correlation.nextSeqAddr_times n Registry.new_registry).1).
Proof.
  intros Hclaim.
  assert (Hfrom : forall n,
    (Correlation.nextSeqAddr_times n Registry.new_registry).1
      = (fun i => Registry.seq_addr (N.min (N.of_nat i) (2 ^ 53)))
          <$> seq 0 n).
  { intros n.
    destruct (nextSeqAddr_times_from n Registry.new_registry) as (Ha & _).
    - apply N.le_0_l.
    - exact Ha. }
  revert Hfrom. generalize (2 ^ 53)%N. intros b Hfrom.
  specialize (Hclaim (N.to_nat (b + 2))).
  rewrite Hfrom, NoDup_alt in Hclaim.
  specialize (Hclaim (N.to_nat b) (N.to_nat (b + 1)) (Registry.seq_addr b)).
  assert (N.to_nat b = N.to_nat (b + 1)) as Heq; [|lia].
  apply Hclaim; rewrite list_lookup_fmap.
  - rewrite lookup_seq_lt by lia. cbn [fmap option_fmap option_map plus].
    do 2 f_equal. lia.
  - rewrite lookup_seq_lt by lia. cbn [fmap option_fmap option_map plus].
    do 2 f_equal. lia.
Qed.

(** ** The channel: events are only appended *)

Section EventFacts.
Import Serializer Registry.
Implicit Types (c : RpcChannel).

Lemma extends_refl c : extends c c.
Proof. exists []. by rewrite app_nil_r. Qed.

Lemma extends_trans c1 c2 c3 : extends c1 c2 -> extends c2 c3 -> extends c1 c3.
Proof.
  intros [r1 H1] [r2 H2]. exists (r1 ++ r2). by rewrite H2, H1, app_assoc.
Qed.

Lemma extends_same c c' : events c' = events c -> extends c c'.
Proof. intros He. exists []. by rewrite app_nil_r. Qed.

Lemma extends_emit c e : extends c (emit c e).
Proof. by exists [e]. Qed.

Lemma extends_send c to args ra rt c' :
  send c to args ra rt = Ok c' -> extends c c'.
Proof.
  unfold send. destruct (rpcSerialize_all args []) as [[sargs xfer]|];
    simpl; [|done]. intros [= <-]. apply extends_emit.
Qed.

Lemma extends_try_send c to : extends c (try_send c to).
Proof.
  unfold try_send. destruct (send c to [] None promise) as [c'|] eqn:Hs;
    [by apply extends_send in Hs | apply extends_refl].
Qed.

Lemma extends_send_or_throw c to args :
  extends c (send_or_throw c to args).1.
Proof.
  unfold send_or_throw.
  destruct (send c to args None promise) as [c'|] eqn:Hs;
    [by apply extends_send in Hs | apply extends_refl].
Qed.

Lemma extends_settle c id r : extends c (settle c id r).
Proof.
  unfold settle. destruct (decide _); [|apply extends_refl].
  by exists [Settled id r].
Qed.

Lemma extends_onChannelClose c id : extends c (onChannelClose c id).
Proof.
  unfold onChannelClose.
  eapply extends_trans; [|apply extends_settle]. by apply extends_same.
Qed.

Lemma extends_fold_onChannelClose ids : forall c,
  extends c (fold_left onChannelClose ids c).
Proof.
  induction ids as [|id ids IH]; intros c; simpl; [apply extends_refl|].
  eapply extends_trans; [apply extends_onChannelClose | apply IH].
Qed.

Lemma extends_stateChange c s : extends c (_stateChange c s).
Proof.
  unfold _stateChange.
  assert (He : extends c (emit (set_state c s) (StateChanged s (_state c))))
    by (by exists [StateChanged s (_state c)]).
  destruct s; try done.
  eapply extends_trans; [exact He|]. unfold emit_close.
  eapply extends_trans; [apply extends_fold_onChannelClose|].
  by apply extends_same.
Qed.

Lemma extends_close c s : extends c (close c s).
Proof.
  unfold close. destruct (_state c); try apply extends_refl.
  all: eapply extends_trans; [|by apply extends_same].
  all: eapply extends_trans; [|by apply extends_same].
  all: eapply extends_trans; [|by apply extends_same].
  all: eapply extends_trans; [|apply extends_stateChange].
  all: destruct s; [apply extends_try_send | apply extends_refl].
Qed.

Lemma extends_call_return c id args : extends c (call_return c id args).
Proof.
  unfold call_return.
  eapply extends_trans; [|by apply extends_same].
  destruct (is_truthy (args !! 1%nat)); [destruct (is_truthy _)|];
    apply extends_settle.
Qed.

Lemma extends_maybeReturn c val data error :
  extends c (maybeReturn c val data error).1.
Proof.
  unfold maybeReturn. destruct (return_addr val) as [addr|];
    [|apply extends_refl].
  destruct (return_type val) as [[]|];
    try (destruct (truthy error); apply extends_send_or_throw).
  destruct (truthy error); [apply extends_send_or_throw|].
  pose proof (extends_send_or_throw c addr
    [data; undefined; DPrimitive (PBoolean false)]) as E1.
  destruct (send_or_throw c addr _) as [c1 [msg|]]; [done|].
  pose proof (extends_send_or_throw c1 addr
    [undefined; undefined; DPrimitive (PBoolean true)]) as E2.
  destruct (send_or_throw c1 addr _) as [c2 [msg|]]; simpl in *.
  - by eapply extends_trans.
  - eapply extends_trans; [exact E1|].
    eapply extends_trans; [exact E2|]. by apply extends_same.
Qed.

Lemma events_emit_rawmessage c : events (emit_rawmessage c) = events c.
Proof.
  unfold emit_rawmessage, resetTimeout. simpl.
  destruct (_state c); try done. by destruct (truthy _).
Qed.

(** A handler that is called is called first, with the wildcard values
    and the arguments of the message. *)
Lemma invoke_events c f wc args :
  exists rest,
    events (invoke c f wc args).1 = events c ++ Invoked f wc args :: rest.
Proof.
  unfold invoke. destruct f as [|id|body r]; cbn [fst].
  - destruct (extends_close (emit c (Invoked CloseHandler wc args)) false)
      as [rest Hr]. exists rest. rewrite Hr. simpl. by rewrite <- app_assoc.
  - destruct (extends_call_return
                (emit c (Invoked (CallReturnHandler id) wc args)) id args)
      as [rest Hr]. exists rest. rewrite Hr. simpl. by rewrite <- app_assoc.
  - by exists [].
Qed.

Lemma receive_open c val :
  _state c ≠ CLOSED ->
  receive c val =
    let this := emit_rawmessage c in
    let '(func, to, wc) := lookup_handler this (to val) in
    let security_policy :=
      can this to {| opt_args := args val; opt_wc := wc;
                     opt_func := func |} in
    if decide (security_policy = Some AccessControl.DENY)
    then maybeReturn this val undefined AccessDeniedError
    else
      match func with
      | None => maybeReturn this val undefined undefined_function_error
      | Some func =>
        match invoke this func wc (args val) with
        | (this, Throws e) => maybeReturn this val undefined e
        | (this, Returns data) => maybeReturn this val data undefined
        end
      end.
Proof. intros Hs. unfold receive. by destruct (_state c). Qed.

Lemma receive_invokes c val f to' wc :
  _state c ≠ CLOSED ->
  lookup_handler (emit_rawmessage c) (to val) = (Some f, to', wc) ->
  can (emit_rawmessage c) to'
      {| opt_args := args val; opt_wc := wc; opt_func := Some f |}
    ≠ Some AccessControl.DENY ->
  exists rest,
    events (receive c val).1 = events c ++ Invoked f wc (args val) :: rest.
Proof.
  intros Hs Hl Hcan. rewrite receive_open by done. cbn zeta.
  rewrite Hl. destruct (decide _); [done|].
  destruct (invoke_events (emit_rawmessage c) f wc (args val)) as [r1 Hr1].
  rewrite events_emit_rawmessage in Hr1.
  destruct (invoke _ f wc (args val)) as [c' [d|e]]; simpl in Hr1.
  - destruct (extends_maybeReturn c' val d undefined) as [r2 Hr2].
    exists (r1 ++ r2). rewrite Hr2, Hr1. by rewrite <- app_assoc.
  - destruct (extends_maybeReturn c' val undefined e) as [r2 Hr2].
    exists (r1 ++ r2). rewrite Hr2, Hr1. by rewrite <- app_assoc.
Qed.

(** The answer to a request with an error of the classes of this file. *)
Lemma maybeReturn_error c val addr name message :
  return_addr val = Some addr ->
  maybeReturn c val undefined (new_Error name message)
    = (c_send c (error_reply addr (return_type val) name message) [], None).
Proof.
  intros Ha. unfold maybeReturn. rewrite Ha.
  by destruct (return_type val) as [[]|].
Qed.
End EventFacts.

(** ** C2: access is decided before the handler is looked at *)



(** ** C7: wildcard captures *)

Section ChannelFields.
Import Registry.

Lemma sendKeepAlive_fields c :
  (_state (sendKeepAlive c), _i_reg (sendKeepAlive c),
   reg (sendKeepAlive c), access_controller (sendKeepAlive c),
   default_policy (sendKeepAlive c))
  = (_state c, _i_reg c, reg c, access_controller c, default_policy c).
Proof. unfold sendKeepAlive. by destruct (Q_truthy _). Qed.

Lemma resetKeepAlive_fields c :
  (_state (resetKeepAlive c), _i_reg (resetKeepAlive c),
   reg (resetKeepAlive c), access_controller (resetKeepAlive c),
   default_policy (resetKeepAlive c))
  = (_state c, _i_reg c, reg c, access_controller c, default_policy c).
Proof.
  unfold resetKeepAlive.
  match goal with |- context [if ?b then _ else _] => destruct b end;
    apply sendKeepAlive_fields.
Qed.

Lemma new_channel_fields p r o :
  _state (new_channel p r o) = INACTIVE
  ∧ _i_reg (new_channel p r o)
      = register new_registry [Some "_"; Some "close"] CloseHandler
  ∧ reg (new_channel p r o) = r
  ∧ access_controller (new_channel p r o)
      = Some {| AccessControl.can :=
                  AccessControl.can_chained
                    {| AccessControl.access_chain := [];
                       AccessControl.default_ap := None |} |}
  ∧ default_policy (new_channel p r o) = p.
Proof.
  unfold new_channel.
  match goal with |- context [resetKeepAlive ?c] =>
    pose proof (resetKeepAlive_fields c) as Hf end.
  by injection Hf as -> -> -> -> ->.
Qed.

Lemma fields_emit_rawmessage c :
  _i_reg (emit_rawmessage c) = _i_reg c
  ∧ reg (emit_rawmessage c) = reg c
  ∧ access_controller (emit_rawmessage c) = access_controller c
  ∧ default_policy (emit_rawmessage c) = default_policy c.
Proof.
  unfold emit_rawmessage, resetTimeout. simpl.
  destruct (_state c); try done. by destruct (truthy _).
Qed.
End ChannelFields.

Lemma own_keys_matching (P : list (option string)) (A : list string) :
  differs_by_wildcards P A -> Realm.own_names A -> Realm.own_keys P.
Proof.
  unfold Realm.own_keys, Realm.own_names.
  induction 1 as [|p a P A Hpa _ IH]; intros HA; [done|].
  apply Forall_cons in HA as [Ha HA]. constructor; [|by apply IH].
  by destruct Hpa as [->| ->].
Qed.

(** C7 (the code departs from the claim).  [getFromAddrMapFlat] pushes a
    segment when it enters a wildcard branch and does not take it back
    when that branch yields nothing.  With a handler [x] at
    ["a",wildcard,"q"] and a handler [y] at [wildcard,"b"], the lookup of
    ["a","b"] first descends into ["a"], consumes "b" through the wildcard
    below it, finds nothing, and then finds [y] through the wildcard of
    the root: the sink receives "b" and "a", while the one wildcard of the
    pattern that matched stands for "a".  End to end, the handler at
    [wildcard,"b"] is invoked with the capture list ["b","a"].  Where no
    branch is abandoned the claim holds: a map that holds one pattern
    captures, for an address that matches it (of non-empty segments that
    name no property inherited from [Object.prototype]), the segments at
    the wildcard positions, in order; and a handler registered alone at
    ["net","x",wildcard] that receives the message to ["net","x","hello"]
    is invoked with the capture list ["hello"]. *)
Theorem C7_capture_keeps_abandoned_branch :
  forall (T : Type) `(Truthy T) (x y : T) (wc : list string),
    truthy y = true ->
    Realm.get_after Realm.clean new
      [([Some "a"; None; Some "q"], Some x); ([None; Some "b"], Some y)]
      ["a"; "b"] (Some wc)
    = Realm.Returns (Some y, ["a"; "b"], Some (wc ++ ["b"; "a"]))
    ∧ wildcard_segments [None; Some "b"] ["a"; "b"] = ["a"]
    ∧ ~ differs_by_wildcards [Some "a"; None; Some "q"] ["a"; "b"]
    ∧ (forall (o : Registry.RpcChannelOpts) (f g : Registry.RpcFunction)
              (val : Registry.RpcMessage),
         Registry.to val = ["a"; "b"] ->
         let channel :=
           Registry.new_channel AccessControl.ALLOW
             (Registry.register
                (Registry.register Registry.new_registry
                   [Some "a"; None; Some "q"] f)
                [None; Some "b"] g) o in
         exists rest,
           Registry.events (Registry.receive channel val).1
             = Registry.events channel
               ++ Registry.Invoked (Registry.resolve_remapped g) ["b"; "a"]
                    (Registry.args val) :: rest)
    ∧ (forall (P : list (option string)) (addr : list string),
         differs_by_wildcards P addr -> NoEmpty addr ->
         Realm.own_names addr ->
         Realm.get_after Realm.clean new [(P, Some y)] addr (Some wc)
         = Realm.Returns
             (Some y, addr, Some (wc ++ wildcard_segments P addr)))
    ∧ (forall (o : Registry.RpcChannelOpts) (f : Registry.RpcFunction)
              (val : Registry.RpcMessage),
         Registry.to val = ["net"; "x"; "hello"] ->
         let channel :=
           Registry.new_channel AccessControl.ALLOW
             (Registry.register Registry.new_registry
                [Some "net"; Some "x"; None] f) o in
         exists rest,
           Registry.events (Registry.receive channel val).1
             = Registry.events channel
               ++ Registry.Invoked (Registry.resolve_remapped f) ["hello"]
                    (Registry.args val) :: rest).
Proof.
  intros T HT x y wc Hy. split_and!.
  - change (HT y = true) in Hy.
    assert (Hwc : (wc ++ ["b"]) ++ ["a"] = wc ++ ["b"; "a"])
      by by rewrite <- app_assoc.
    revert Hwc. generalize (wc ++ ["b"; "a"]). intros ? <-.
    repeat (vm_compute; rewrite Hy). vm_compute. reflexivity.
  - reflexivity.
  - intros Hd. apply Forall2_length in Hd. discriminate Hd.
  - intros o f g val Hto channel.
    destruct (new_channel_fields AccessControl.ALLOW
                (Registry.register
                   (Registry.register Registry.new_registry
                      [Some "a"; None; Some "q"] f)
                   [None; Some "b"] g) o)
      as (Hst & Hi & Hr & Hac & Hdp).
    destruct (fields_emit_rawmessage channel) as (Hi' & Hr' & Hac' & Hdp').
    apply (receive_invokes channel val _ ["a"; "b"]).
    + subst channel. by rewrite Hst.
    + unfold Registry.lookup_handler. rewrite Hi', Hr', Hto.
      subst channel. rewrite Hi, Hr. vm_compute. reflexivity.
    + unfold Registry.can. rewrite Hi', Hac', Hdp'.
      subst channel. rewrite Hi, Hac, Hdp. vm_compute. discriminate.
  - intros P addr HP HA Hown.
    rewrite get_after_own; [|by eapply own_keys_matching|done].
    rewrite get_walk by done. simpl.
    rewrite walk_single_pattern by done. simpl.
    unfold js_or. simpl. by rewrite Hy.
  - intros o f val Hto channel.
    destruct (new_channel_fields AccessControl.ALLOW
                (Registry.register Registry.new_registry
                   [Some "net"; Some "x"; None] f) o)
      as (Hst & Hi & Hr & Hac & Hdp).
    destruct (fields_emit_rawmessage channel) as (Hi' & Hr' & Hac' & Hdp').
    apply (receive_invokes channel val _ ["net"; "x"; "hello"]).
    + subst channel. by rewrite Hst.
    + unfold Registry.lookup_handler. rewrite Hi', Hr', Hto.
      subst channel. rewrite Hi, Hr. vm_compute. reflexivity.
    + unfold Registry.can. rewrite Hi', Hac', Hdp'.
      subst channel. rewrite Hi, Hac, Hdp. vm_compute. discriminate.
Qed.

Lemma C7_capture_keeps_abandoned_branch_witness :
  Realm.get_after Realm.clean (@new Z)
    [([Some "a"; None; Some "q"], Some 1%Z); ([None; Some "b"], Some 2%Z)]
    ["a"; "b"] (Some [])
  = Realm.Returns (Some 2%Z, ["a"; "b"], Some ["b"; "a"]).
Proof.
  exact (proj1 (C7_capture_keeps_abandoned_branch Z number_truthy
                  1%Z 2%Z [] eq_refl)).
Defined.

(** * Further properties of the address map *)

(** X1.  Lookup is sound.  In a realm whose [Object.prototype] holds no
    entry of an address map, on a concrete address of non-empty segments
    that name no property inherited from [Object.prototype], [get]
    returns, with the address unchanged, and whatever value it returns is
    stored in the map, either at a pattern that matches the address
    position by position (the segment itself or a wildcard) or as the
    root default. *)
Theorem X1_get_returns_stored_value :
  forall (T : Type) `(Truthy T) (this : AddressMap T) (A : list string)
         (wc : option (list string)),
    NoEmpty A -> Realm.own_names A ->
    exists r wc',
      Realm.get Realm.clean this A wc = Realm.Returns (r, A, wc')
      ∧ forall v, r = Some v ->
          (exists path, differs_by_wildcards path A
                        ∧ stored_at (table this) path = Some v)
          ∨ default_entry (table this) = Some v.
Proof.
  intros T HT this A wc HA Hown. rewrite Realm_get_own by done.
  rewrite get_walk by done. eexists _, _. split; [reflexivity|].
  intros v. unfold js_or.
  destruct (is_truthy (walk (table this) A).1); [|by right].
  intros Hw. left. by apply walk_sound.
Qed.

Lemma X1_get_returns_stored_value_witness :
  exists r wc',
    Realm.get Realm.clean
      (put (@new Z) [Some "a"; None; Some "c"] (Some 1%Z))
      ["a"; "z"; "c"] (Some [])
    = Realm.Returns (r, ["a"; "z"; "c"], wc')
    ∧ r = Some 1%Z.
Proof.
  destruct (X1_get_returns_stored_value Z number_truthy
              (put (@new Z) [Some "a"; None; Some "c"] (Some 1%Z))
              ["a"; "z"; "c"] (Some [])) as (r & wc' & Hget & _).
  - repeat constructor; discriminate.
  - by repeat constructor.
  - exists r, wc'. split; [exact Hget|].
    vm_compute in Hget. by injection Hget as <- _.
Defined.

(** X2.  Lookup is complete.  In a realm whose [Object.prototype] holds
    no entry of an address map, on a concrete address of non-empty
    segments that name no property inherited from [Object.prototype],
    [get] returns, with the address unchanged, and it returns a truthy
    value exactly when a truthy value is stored at some pattern matching
    the address or as the root default. *)
Theorem X2_get_finds_a_match_iff_one_exists :
  forall (T : Type) `(Truthy T) (this : AddressMap T) (A : list string)
         (wc : option (list string)),
    NoEmpty A -> Realm.own_names A ->
    exists r wc',
      Realm.get Realm.clean this A wc = Realm.Returns (r, A, wc')
      ∧ (is_truthy r = true
         <-> ((exists path v, differs_by_wildcards path A
                              ∧ stored_at (table this) path = Some v
                              ∧ truthy v = true)
              ∨ is_truthy (default_entry (table this)) = true)).
Proof.
  intros T HT this A wc HA Hown. rewrite Realm_get_own by done.
  rewrite get_walk by done. eexists _, _. split; [reflexivity|].
  unfold js_or. split.
  - destruct (is_truthy (walk (table this) A).1) eqn:Hw; [|by right].
    intros _. left.
    destruct (walk (table this) A).1 as [v|] eqn:Hv; [|done].
    destruct (walk_sound A (table this) v Hv) as (path & Hm & Hs).
    by exists path, v.
  - intros [(path & v & Hm & Hs & Hv)|Hroot].
    + by rewrite (walk_complete path A Hm (table this) v Hs Hv),
                 (walk_complete path A Hm (table this) v Hs Hv).
    + by destruct (is_truthy (walk (table this) A).1) eqn:Hw.
Qed.

Lemma X2_get_finds_a_match_iff_one_exists_witness :
  exists r wc',
    Realm.get Realm.clean (put (@new Z) [Some "a"; None] (Some 5%Z))
      ["a"; "b"] None
    = Realm.Returns (r, ["a"; "b"], wc')
    ∧ is_truthy r = true.
Proof.
  destruct (X2_get_finds_a_match_iff_one_exists Z number_truthy
              (put (@new Z) [Some "a"; None] (Some 5%Z)) ["a"; "b"] None)
    as (r & wc' & Hget & Hiff).
  - repeat constructor; discriminate.
  - by repeat constructor.
  - exists r, wc'. split; [exact Hget|].
    apply Hiff. left. exists [Some "a"; None], 5%Z. split_and!.
    + solve_differs.
    + vm_compute. reflexivity.
    + reflexivity.
Defined.

(** X3.  Registration order does not matter for different addresses.  In
    a realm whose [Object.prototype] holds no entry of an address map, two
    [put]s whose addresses name no property inherited from
    [Object.prototype] and differ in some key (after empty and absent
    segments are read as the wildcard) both return, and give the same map
    in either order, and leave [Object.prototype] as it was. *)
Theorem X3_put_commutes :
  forall (T : Type) (this : AddressMap T) (P Q : list (option string))
         (x y : option T),
    Realm.own_keys P -> Realm.own_keys Q ->
    key_of <$> P ≠ key_of <$> Q ->
    exists both : AddressMap T,
      Realm.put_all Realm.clean this [(P, x); (Q, y)]
        = Realm.Returns (Realm.clean, both)
      ∧ Realm.put_all Realm.clean this [(Q, y); (P, x)]
        = Realm.Returns (Realm.clean, both).
Proof.
  intros T this P Q x y HP HQ Hne.
  exists (put (put this P x) Q y).
  rewrite !Realm_put_all_own by (by repeat constructor).
  cbn [foldl fst snd]. split; [done|].
  unfold put. simpl. by rewrite put_flat_commute.
Qed.

Lemma X3_put_commutes_witness :
  exists both : AddressMap Z,
    Realm.put_all Realm.clean new
      [([Some "a"; None], Some 1%Z); ([Some "a"; Some "b"], None)]
      = Realm.Returns (Realm.clean, both)
    ∧ Realm.put_all Realm.clean new
        [([Some "a"; Some "b"], None); ([Some "a"; None], Some 1%Z)]
      = Realm.Returns (Realm.clean, both).
Proof.
  refine (X3_put_commutes Z new [Some "a"; None] [Some "a"; Some "b"]
            (Some 1%Z) None _ _ _).
  - by repeat constructor.
  - by repeat constructor.
  - vm_compute. discriminate.
Defined.

(** * Further properties of the serializer *)

Section SerializerFacts.
Import Serializer SerializerSpec.

(** Induction on values, with the property for the elements of an
    array and the members of an object. *)
Fixpoint SerializedData_nested_ind (P : SerializedData -> Prop)
    (Hprim : forall p, P (SPrimitive p))
    (Harr : forall items, Forall P items -> P (SArray items))
    (Hobj : forall fields,
        Forall (fun kv => P kv.2) fields -> P (SObject fields))
    (Hxfer : forall t, P (STransferable t))
    (v : SerializedData) : P v :=
  match v with
  | SPrimitive p => Hprim p
  | SArray items =>
    Harr items
      ((fix go (l : list SerializedData) : Forall P l :=
          match l with
          | [] => List.Forall_nil P
          | x :: l =>
            @List.Forall_cons _ _ x l
              (SerializedData_nested_ind P Hprim Harr Hobj Hxfer x) (go l)
          end) items)
  | SObject fields =>
    Hobj fields
      ((fix go (l : list (string * SerializedData))
          : Forall (fun kv => P kv.2) l :=
          match l with
          | [] => List.Forall_nil _
          | kv :: l =>
            @List.Forall_cons _ _ kv l
              (SerializedData_nested_ind P Hprim Harr Hobj Hxfer kv.2)
              (go l)
          end) fields)
  | STransferable t => Hxfer t
  end.

Fixpoint SerializableData_nested_ind (P : SerializableData -> Prop)
    (Hprim : forall p, P (DPrimitive p))
    (Hsym : P DSymbol) (Hfun : P DFunction)
    (Hcustom : forall hook, P (DCustom hook))
    (Hxfer : forall t, P (DTransferable t))
    (Herr : forall e hook, P (DError e hook))
    (Harr : forall items, Forall P items -> P (DArray items))
    (Hobj : forall fields,
        Forall (fun kv => P kv.2) fields -> P (DObject fields))
    (d : SerializableData) : P d :=
  match d with
  | DPrimitive p => Hprim p
  | DSymbol => Hsym
  | DFunction => Hfun
  | DCustom hook => Hcustom hook
  | DTransferable t => Hxfer t
  | DError e hook => Herr e hook
  | DArray items =>
    Harr items
      ((fix go (l : list SerializableData) : Forall P l :=
          match l with
          | [] => List.Forall_nil P
          | x :: l =>
            @List.Forall_cons _ _ x l
              (SerializableData_nested_ind P Hprim Hsym Hfun Hcustom Hxfer
                 Herr Harr Hobj x) (go l)
          end) items)
  | DObject fields =>
    Hobj fields
      ((fix go (l : list (string * SerializableData))
          : Forall (fun kv => P kv.2) l :=
          match l with
          | [] => List.Forall_nil _
          | kv :: l =>
            @List.Forall_cons _ _ kv l
              (SerializableData_nested_ind P Hprim Hsym Hfun Hcustom Hxfer
                 Herr Harr Hobj kv.2) (go l)
          end) fields)
  end.

Lemma rpcSerialize_array items xfer :
  rpcSerialize (DArray items) xfer =
    bind (rpcSerialize_all items xfer)
         (fun '(vs, xfer) => Ok (SArray vs, xfer)).
Proof. reflexivity. Qed.

Lemma rpcSerialize_object fields xfer :
  rpcSerialize (DObject fields) xfer =
    bind (rpcSerialize_members fields xfer)
         (fun '(vs, xfer) => Ok (SObject vs, xfer)).
Proof. reflexivity. Qed.

(** Serializing what is already serialized. *)
Lemma rpcSerialize_as_input v : forall xfer,
  proto_free v = true ->
  rpcSerialize (as_input v) xfer = Ok (v, xfer ++ transferables_in v).
Proof.
  induction v as [p|items IH|fields IH|t] using SerializedData_nested_ind;
    intros xfer Hfree.
  - simpl. by rewrite app_nil_r.
  - cbn [as_input transferables_in proto_free] in *.
    rewrite rpcSerialize_array.
    assert (Hall : rpcSerialize_all (List.map as_input items) xfer
              = Ok (items, xfer ++ List.flat_map transferables_in items)).
    { revert xfer. induction IH as [|v items Hv _ IHitems]; intros xfer.
      - simpl. by rewrite app_nil_r.
      - simpl in Hfree. apply andb_true_iff in Hfree as [Hfv Hfi].
        simpl. rewrite Hv by done. simpl. rewrite IHitems by done. simpl.
        by rewrite app_assoc. }
    by rewrite Hall.
  - cbn [as_input transferables_in proto_free] in *.
    rewrite rpcSerialize_object.
    assert (Hall : rpcSerialize_members
                (List.map (fun kv => (kv.1, as_input kv.2)) fields) xfer
              = Ok (fields,
                    xfer ++ List.flat_map
                              (fun kv => transferables_in kv.2) fields)).
    { revert xfer. induction IH as [|[k v] fields Hv _ IHf]; intros xfer.
      - simpl. by rewrite app_nil_r.
      - simpl in Hfree. apply andb_true_iff in Hfree as [Hfv Hfi].
        apply andb_true_iff in Hfv as [Hk Hfv].
        apply negb_true_iff in Hk.
        simpl in *. rewrite Hv by done. simpl. rewrite IHf by done. simpl.
        unfold set_member. rewrite Hk. by rewrite app_assoc. }
    by rewrite Hall.
  - done.
Qed.

(** Success and failure. *)
Lemma rpcSerialize_supported d : forall xfer,
  if supported d
  then exists r, rpcSerialize d xfer = Ok r
  else rpcSerialize d xfer = Throw "Symbols cannot be serialized"
       ∨ rpcSerialize d xfer = Throw "Functions cannot be serialized".
Proof.
  induction d as [p| | |hook|t|e hook|items IH|fields IH]
    using SerializableData_nested_ind; intros xfer;
    try (simpl; eauto; fail).
  - destruct hook; simpl; eauto.
  - cbn [supported]. rewrite rpcSerialize_array.
    assert (Hall : if forallb supported items
              then exists r, rpcSerialize_all items xfer = Ok r
              else rpcSerialize_all items xfer
                     = Throw "Symbols cannot be serialized"
                   ∨ rpcSerialize_all items xfer
                     = Throw "Functions cannot be serialized").
    { revert xfer. induction IH as [|d items Hd _ IHitems]; intros xfer.
      - simpl. eauto.
      - simpl. specialize (Hd xfer). destruct (supported d); simpl.
        + destruct Hd as [[v x] ->]. simpl. specialize (IHitems x).
          destruct (forallb supported items).
          * destruct IHitems as [[vs x'] ->]. simpl. eauto.
          * destruct IHitems as [-> | ->]; simpl; auto.
        + destruct Hd as [-> | ->]; simpl; auto. }
    destruct (forallb supported items).
    + destruct Hall as [[vs x] ->]. simpl. eauto.
    + destruct Hall as [-> | ->]; simpl; auto.
  - cbn [supported]. rewrite rpcSerialize_object.
    assert (Hall : if forallb (fun kv => supported kv.2) fields
              then exists r, rpcSerialize_members fields xfer = Ok r
              else rpcSerialize_members fields xfer
                     = Throw "Symbols cannot be serialized"
                   ∨ rpcSerialize_members fields xfer
                     = Throw "Functions cannot be serialized").
    { revert xfer. induction IH as [|[k d] fields Hd _ IHf]; intros xfer.
      - simpl. eauto.
      - simpl in *. specialize (Hd xfer). destruct (supported d); simpl.
        + destruct Hd as [[v x] ->]. simpl. specialize (IHf x).
          destruct (forallb (fun kv => supported kv.2) fields).
          * destruct IHf as [[vs x'] ->]. simpl. eauto.
          * destruct IHf as [-> | ->]; simpl; auto.
        + destruct Hd as [-> | ->]; simpl; auto. }
    destruct (forallb (fun kv => supported kv.2) fields).
    + destruct Hall as [[vs x] ->]. simpl. eauto.
    + destruct Hall as [-> | ->]; simpl; auto.
Qed.

(** A value without [toRpcSerialized] methods: the transfer list grows
    by the transferables of the value, in order. *)
Lemma rpcSerialize_plain d : forall xfer v xfer',
  plain d = true -> rpcSerialize d xfer = Ok (v, xfer') ->
  xfer' = xfer ++ transferables_of d
  ∧ forall other, rpcSerialize d other = Ok (v, other ++ transferables_of d).
Proof.
  induction d as [p| | |hook|t|e hook|items IH|fields IH]
    using SerializableData_nested_ind; intros xfer v xfer' Hp Hs;
    try done.
  - injection Hs as <- <-. simpl. rewrite app_nil_r. split; [done|].
    intros other. by rewrite app_nil_r.
  - injection Hs as <- <-. done.
  - destruct hook; [done|]. injection Hs as <- <-. simpl.
    rewrite app_nil_r. split; [done|]. intros other. by rewrite app_nil_r.
  - cbn [plain transferables_of] in *. rewrite rpcSerialize_array in Hs.
    assert (Hall : forall xfer vs xfer',
               rpcSerialize_all items xfer = Ok (vs, xfer') ->
               xfer' = xfer ++ List.flat_map transferables_of items
               ∧ forall other,
                   rpcSerialize_all items other
                   = Ok (vs, other ++ List.flat_map transferables_of items)).
    { clear Hs xfer v xfer'.
      induction IH as [|d items Hd _ IHitems]; intros xfer vs xfer' Hs.
      - injection Hs as <- <-. simpl. rewrite app_nil_r. split; [done|].
        intros other. by rewrite app_nil_r.
      - simpl in Hp. apply andb_true_iff in Hp as [Hpd Hpi].
        simpl in Hs.
        destruct (rpcSerialize d xfer) as [[v1 x1]|] eqn:H1; [|done].
        simpl in Hs.
        destruct (rpcSerialize_all items x1) as [[vs1 x2]|] eqn:H2; [|done].
        simpl in Hs. injection Hs as <- <-.
        destruct (Hd _ _ _ Hpd H1) as [-> Hd'].
        destruct (IHitems Hpi _ _ _ H2) as [-> Hi'].
        simpl. rewrite app_assoc. split; [done|]. intros other.
        rewrite Hd'. simpl. rewrite Hi'. simpl. by rewrite app_assoc. }
    destruct (rpcSerialize_all items xfer) as [[vs x]|] eqn:Hall'; [|done].
    simpl in Hs. injection Hs as <- <-.
    destruct (Hall _ _ _ Hall') as [-> Hother]. split; [done|].
    intros other. rewrite rpcSerialize_array, Hother. done.
  - cbn [plain transferables_of] in *. rewrite rpcSerialize_object in Hs.
    assert (Hall : forall xfer vs xfer',
               rpcSerialize_members fields xfer = Ok (vs, xfer') ->
               xfer' = xfer ++ List.flat_map
                                 (fun kv => transferables_of kv.2) fields
               ∧ forall other,
                   rpcSerialize_members fields other
                   = Ok (vs, other ++ List.flat_map
                               (fun kv => transferables_of kv.2) fields)).
    { clear Hs xfer v xfer'.
      induction IH as [|[k d] fields Hd _ IHf]; intros xfer vs xfer' Hs.
      - injection Hs as <- <-. simpl. rewrite app_nil_r. split; [done|].
        intros other. by rewrite app_nil_r.
      - simpl in Hp. apply andb_true_iff in Hp as [Hpd Hpi].
        simpl in Hs, Hd.
        destruct (rpcSerialize d xfer) as [[v1 x1]|] eqn:H1; [|done].
        simpl in Hs.
        destruct (rpcSerialize_members fields x1) as [[vs1 x2]|] eqn:H2;
          [|done].
        simpl in Hs. injection Hs as <- <-.
        destruct (Hd _ _ _ Hpd H1) as [-> Hd'].
        destruct (IHf Hpi _ _ _ H2) as [-> Hi'].
        simpl. rewrite app_assoc. split; [done|]. intros other.
        rewrite Hd'. simpl. rewrite Hi'. simpl. by rewrite app_assoc. }
    destruct (rpcSerialize_members fields xfer) as [[vs x]|] eqn:Hall';
      [|done].
    simpl in Hs. injection Hs as <- <-.
    destruct (Hall _ _ _ Hall') as [-> Hother]. split; [done|].
    intros other. rewrite rpcSerialize_object, Hother. done.
Qed.

(** The stacks of errors do not reach the output. *)
Lemma rpcSerialize_with_stacks s d : forall xfer,
  rpcSerialize (with_stacks s d) xfer = rpcSerialize d xfer.
Proof.
  induction d as [p| | |hook|t|e hook|items IH|fields IH]
    using SerializableData_nested_ind; intros xfer; try done.
  - by destruct hook.
  - cbn [with_stacks]. rewrite !rpcSerialize_array. f_equal.
    revert xfer. induction IH as [|d items Hd _ IHitems]; intros xfer;
      [done|].
    simpl. rewrite Hd. destruct (rpcSerialize d xfer) as [[v x]|]; [|done].
    simpl. by rewrite IHitems.
  - cbn [with_stacks]. rewrite !rpcSerialize_object. f_equal.
    revert xfer. induction IH as [|[k d] fields Hd _ IHf]; intros xfer;
      [done|].
    simpl in *. rewrite Hd.
    destruct (rpcSerialize d xfer) as [[v x]|]; [|done].
    simpl. by rewrite IHf.
Qed.
End SerializerFacts.


(** X4.  Serializing is the identity on what is already serialized: a
    value made of primitives, arrays, keyed objects and transferables, no
    object of which has a property named [__proto__], serializes to
    itself, and its transferables are appended to the transfer list in
    left-to-right order. *)
Theorem X4_serialize_serialized_is_identity :
  forall (v : Serializer.SerializedData)
         (xfer : list Serializer.Transferable),
    SerializerSpec.proto_free v = true ->
    Serializer.rpcSerialize (SerializerSpec.as_input v) xfer
      = Serializer.Ok (v, xfer ++ SerializerSpec.transferables_in v).
Proof. intros v xfer. apply rpcSerialize_as_input. Qed.

Lemma X4_serialize_serialized_is_identity_witness :
  Serializer.rpcSerialize
    (Serializer.DObject
       [("a", Serializer.DArray [Serializer.DTransferable 7;
                                 Serializer.DPrimitive Serializer.PNull]);
        ("b", Serializer.DTransferable 8)]) [1]
  = Serializer.Ok
      (Serializer.SObject
         [("a", Serializer.SArray [Serializer.STransferable 7;
                                   Serializer.SPrimitive Serializer.PNull]);
          ("b", Serializer.STransferable 8)], [1; 7; 8]).
Proof.
  exact (X4_serialize_serialized_is_identity
    (Serializer.SObject
       [("a", Serializer.SArray [Serializer.STransferable 7;
                                 Serializer.SPrimitive Serializer.PNull]);
        ("b", Serializer.STransferable 8)]) [1] eq_refl).
Defined.

(** The assignment [robj["__proto__"] = v] creates no property: the member
    is absent from the result, and its transferables are in the transfer
    list all the same. *)
Example serialize_drops_proto_member :
  Serializer.rpcSerialize
    (Serializer.DObject
       [("__proto__", Serializer.DArray [Serializer.DTransferable 7]);
        ("b", Serializer.DPrimitive (Serializer.PNumber 1))]) []
  = Serializer.Ok
      (Serializer.SObject
         [("b", Serializer.SPrimitive (Serializer.PNumber 1))], [7]).
Proof. reflexivity. Qed.



(** X6.  For a value without [toRpcSerialized] methods, a successful
    [rpcSerialize] appends exactly the transferables of the value to the
    transfer list, in left-to-right order and keeping what was there, and
    the serialized value does not depend on the transfer list it was
    given. *)
Theorem X6_transfer_list_collects_transferables :
  forall (d : Serializer.SerializableData)
         (xfer xfer' : list Serializer.Transferable)
         (v : Serializer.SerializedData),
    SerializerSpec.plain d = true ->
    Serializer.rpcSerialize d xfer = Serializer.Ok (v, xfer') ->
    xfer' = xfer ++ SerializerSpec.transferables_of d
    ∧ forall other,
        Serializer.rpcSerialize d other
          = Serializer.Ok (v, other ++ SerializerSpec.transferables_of d).
Proof. intros d xfer xfer' v. apply rpcSerialize_plain. Qed.

Lemma X6_transfer_list_collects_transferables_witness :
  [7; 3; 4] = [7] ++ SerializerSpec.transferables_of
    (Serializer.DArray
       [Serializer.DTransferable 3;
        Serializer.DObject [("port", Serializer.DTransferable 4)]]).
Proof.
  refine (proj1 (X6_transfer_list_collects_transferables
    (Serializer.DArray
       [Serializer.DTransferable 3;
        Serializer.DObject [("port", Serializer.DTransferable 4)]])
    [7] [7; 3; 4]
    (Serializer.SArray
       [Serializer.STransferable 3;
        Serializer.SObject [("port", Serializer.STransferable 4)]]) _ _)).
  - reflexivity.
  - reflexivity.
Defined.

(** X7.  The stack of an error without a [toRpcSerialized] method never
    reaches the output, however deeply the error is nested in arrays and
    objects: replacing all such stacks by any string leaves the result of
    [rpcSerialize] unchanged. *)
Theorem X7_nested_error_stacks_do_not_leak :
  forall (s : string) (d : Serializer.SerializableData)
         (xfer : list Serializer.Transferable),
    Serializer.rpcSerialize (SerializerSpec.with_stacks s d) xfer
      = Serializer.rpcSerialize d xfer.
Proof. intros s d xfer. apply rpcSerialize_with_stacks. Qed.

(** * Further properties of the access controllers *)

Section PermissionFacts.
Import AccessControl PermissionControl.
Context {Opts World : Type}.

Lemma missing_false (this : AutoFunctionAccessController) requirements :
  missing this requirements = false
  <-> forall r, r ∈ requirements -> r ∈ perms this.
Proof.
  unfold missing. induction requirements as [|x l IH]; simpl.
  - split; [|done]. intros _ r Hr. by apply elem_of_nil in Hr.
  - rewrite orb_false_iff, IH, bool_decide_eq_false. split.
    + intros [Hx Hl] r Hr. apply elem_of_cons in Hr as [->|Hr]; [|auto].
      by apply dec_stable.
    + intros H. split; [|intros r Hr; apply H; by right].
      intros Hx. apply Hx, H. by left.
Qed.
End PermissionFacts.

(** X8.  The lookup controller never denies: its verdict is ALLOW when a
    function registered for the address answers ALLOW, and UNDECIDED in
    every other case, also when that function answers DENY; with no
    function for the address nothing is called. *)
Theorem X8_lookup_controller_never_denies :
  forall (Opts World : Type)
         (this : PermissionControl.FunctionLookupAccessController Opts World)
         (to : list string) (opts : Opts) (w : World),
    ((PermissionControl.can_lookup this to opts w).1 = Some AccessControl.ALLOW
     ∨ (PermissionControl.can_lookup this to opts w).1 = AccessControl.NONE)
    ∧ ((@get _ PermissionControl.can_function_truthy
          (PermissionControl.lookup_map this) to None).1.1 = None ->
       PermissionControl.can_lookup this to opts w = (AccessControl.NONE, w)).
Proof.
  intros Opts World this to opts w. unfold PermissionControl.can_lookup.
  destruct (get (PermissionControl.lookup_map this) to None)
    as [[[func|] to'] wc]; simpl.
  - split; [|done]. destruct (func to' opts w) as [[[]|] w']; simpl; auto.
  - split; [by right | done].
Qed.

Lemma X8_lookup_controller_never_denies_witness :
  PermissionControl.can_lookup
    {| PermissionControl.lookup_map :=
         @new (AccessControl.AccessCanFunction unit unit) |}
    ["net"; "kb1rd"; "test"] tt tt
  = (AccessControl.NONE, tt).
Proof.
  refine (proj2 (X8_lookup_controller_never_denies unit unit _
                   ["net"; "kb1rd"; "test"] tt tt) _).
  reflexivity.
Defined.





(** * Properties of the argument remapping *)

Section RemapFacts.
Import Serializer Remap.
Context {V : Type} (iterate : V -> Iteration V).

Lemma kept_nil (args : list V) : kept [] args = args.
Proof. by destruct args. Qed.

(** A directive left in [value] by the previous callback is used as if
    it still were the next one of the mapping. *)
Lemma remap_from_pending it (d : Directive) (args : list V) :
  remap_from iterate it (Some d) args = remap_from iterate (d :: it) None args.
Proof. by destruct args. Qed.

Lemma remap_from_head_tail it (args : list V) :
  remap_from iterate (tail it) (head it) args = remap_from iterate it None args.
Proof. destruct it as [|d it]; [done|]. apply remap_from_pending. Qed.

Lemma remap_from_kept mapping (args : list V) :
  expand ∉ mapping ->
  remap_from iterate mapping None args = Ok (kept mapping args).
Proof.
  revert mapping. induction args as [|v args IH]; intros mapping Hno.
  - by destruct mapping as [|[] ?].
  - destruct mapping as [|d mapping].
    + cbn. rewrite (IH []) by apply not_elem_of_nil.
      by rewrite kept_nil.
    + apply not_elem_of_cons in Hno as [Hd Hno].
      destruct d; [| |done]; cbn; by rewrite (IH mapping Hno).
Qed.

Lemma remap_from_app pre rest (args1 args2 : list V) :
  expand ∉ pre ->
  length args1 = length pre ->
  remap_from iterate (pre ++ rest) None (args1 ++ args2)
  = bind (remap_from iterate rest None args2)
         (fun r => Ok (kept pre args1 ++ r)).
Proof.
  revert args1. induction pre as [|d pre IH]; intros args1 Hno Hlen.
  - destruct args1; [|done]. cbn [app kept].
    destruct (remap_from iterate rest None args2); by try destruct args2.
  - destruct args1 as [|v args1]; [done|].
    apply not_elem_of_cons in Hno as [Hd Hno].
    injection Hlen as Hlen.
    destruct d; [| |done]; cbn; rewrite (IH args1 Hno Hlen);
      by destruct (remap_from iterate rest None args2).
Qed.

(** Passing more than enough of the arguments beyond the mapping. *)
Lemma zip_pass_pad mapping (args : list V) k :
  length args <= k ->
  zip (mapping ++ replicate k pass) args
  = zip (mapping ++ replicate (length args) pass) args.
Proof.
  revert mapping k. induction args as [|v args IH]; intros mapping k Hk.
  - by rewrite !zip_with_nil_r.
  - destruct mapping as [|d mapping]; cbn [length] in *.
    + destruct k as [|k]; [lia|]. cbn. f_equal.
      apply (IH [] k). lia.
    + cbn [app zip zip_with]. f_equal.
      rewrite (IH mapping k) by lia.
      by rewrite (IH mapping (S (length args))) by lia.
Qed.

Lemma kept_zip mapping (args : list V) :
  kept mapping args
  = (filter (fun p => p.1 ≠ drop)
       (zip (mapping ++ replicate (length args) pass) args)).*2.
Proof.
  revert mapping. induction args as [|v args IH]; intros mapping.
  - by destruct mapping as [|[] ?].
  - destruct mapping as [|d mapping].
    + specialize (IH []). rewrite kept_nil in IH.
      cbn [kept app replicate length zip zip_with].
      rewrite filter_cons_True by done. rewrite fmap_cons. cbn [snd].
      f_equal. by rewrite IH at 1.
    + cbn [length app zip zip_with].
      rewrite (zip_pass_pad mapping args (S (length args))) by lia.
      destruct d; cbn [kept].
      * rewrite filter_cons_True by done. rewrite fmap_cons. cbn [snd].
        f_equal. apply IH.
      * rewrite filter_cons_False by (simpl; intros H; by apply H).
        apply IH.
      * rewrite filter_cons_True by done. rewrite fmap_cons. cbn [snd].
        f_equal. apply IH.
Qed.

Lemma expand_loop_run n rest (elems array : list V) :
  head rest ≠ Some expand ->
  expand_loop (replicate n expand ++ rest) elems array
  = if decide (S n <= length elems)
    then Ok (array ++ take (S n) elems, head rest, tail rest)
    else Throw "Expand reached end of array".
Proof.
  intros Hrest. revert elems array.
  induction n as [|n IH]; intros elems array.
  - destruct elems as [|x elems]; cbn [replicate app expand_loop].
    + by rewrite decide_False by (simpl; lia).
    + rewrite decide_True by (simpl; lia).
      rewrite firstn_cons, take_0.
      destruct rest as [|[] rest]; try done.
  - destruct elems as [|x elems]; cbn [replicate app expand_loop].
    + by rewrite decide_False by (simpl; lia).
    + rewrite IH. cbn [length].
      destruct (decide (S n <= length elems)).
      * rewrite decide_True by lia.
        by rewrite <- app_assoc, (firstn_cons (S n)).
      * by rewrite decide_False by lia.
Qed.
End RemapFacts.

(** X11.  A mapping without ['expand'] never throws: the remapped function
    passes on, in their order, the arguments that are not under a
    ['drop']; arguments beyond the end of the mapping are passed. *)
Theorem X11_remap_without_expand_keeps_undropped :
  forall (V : Type) (iterate : V -> Remap.Iteration V)
         (mapping : list Remap.Directive) (args : list V),
    Remap.expand ∉ mapping ->
    Remap.remap iterate mapping args
      = Serializer.Ok (Remap.kept mapping args)
    ∧ Remap.kept mapping args
      = (filter (fun p => p.1 ≠ Remap.drop)
           (zip (mapping ++ replicate (length args) Remap.pass) args)).*2.
Proof.
  intros V iterate mapping args Hno. split.
  - by apply remap_from_kept.
  - apply kept_zip.
Qed.

Lemma X11_remap_without_expand_keeps_undropped_witness :
  Remap.remap (fun _ : nat => Remap.NotIterable)
    [Remap.drop; Remap.pass; Remap.drop] [1; 2; 3; 4]
  = Serializer.Ok [2; 4].
Proof.
  refine (proj1 (X11_remap_without_expand_keeps_undropped nat _
    [Remap.drop; Remap.pass; Remap.drop] [1; 2; 3; 4] _)).
  intros H. by repeat (apply elem_of_cons in H as [H|H]; [done|]);
    apply elem_of_nil in H.
Defined.

(** X12.  Directives before the first ['expand'] act on the arguments one
    to one: for a prefix of the mapping without ['expand'], the result is
    what the prefix keeps of as many leading arguments, followed by what
    the rest of the mapping makes of the remaining arguments; an error in
    the rest is the error of the whole. *)
Theorem X12_remap_prefix_acts_pointwise :
  forall (V : Type) (iterate : V -> Remap.Iteration V)
         (pre rest : list Remap.Directive) (args1 args2 : list V),
    Remap.expand ∉ pre ->
    length args1 = length pre ->
    Remap.remap iterate (pre ++ rest) (args1 ++ args2)
    = Serializer.bind (Remap.remap iterate rest args2)
        (fun r => Serializer.Ok (Remap.kept pre args1 ++ r)).
Proof.
  intros V iterate pre rest args1 args2. apply remap_from_app.
Qed.

Lemma X12_remap_prefix_acts_pointwise_witness :
  Remap.remap (fun _ : nat => Remap.NotIterable)
    ([Remap.drop] ++ [Remap.expand]) ([1] ++ [2])
  = Serializer.Throw "Attempted to expand non-iterable".
Proof.
  refine (X12_remap_prefix_acts_pointwise nat _
    [Remap.drop] [Remap.expand] [1] [2] _ _).
  - intros H. apply elem_of_cons in H as [H|H]; [done|].
    by apply elem_of_nil in H.
  - reflexivity.
Defined.

(** X13.  A run of [n] consecutive ['expand'] directives consumes one
    argument and replaces it by its first [n] elements; the directive
    after the run is not consumed and applies to the next argument.  When
    the argument has fewer than [n] elements the call throws 'Expand
    reached end of array'. *)
Theorem X13_remap_expand_run :
  forall (V : Type) (iterate : V -> Remap.Iteration V)
         (n : nat) (rest : list Remap.Directive)
         (v : V) (elems args : list V),
    head rest ≠ Some Remap.expand ->
    iterate v = Remap.Elements elems ->
    Remap.remap iterate (replicate (S n) Remap.expand ++ rest) (v :: args)
    = if decide (S n <= length elems)
      then Serializer.bind (Remap.remap iterate rest args)
             (fun r => Serializer.Ok (take (S n) elems ++ r))
      else Serializer.Throw "Expand reached end of array".
Proof.
  intros V iterate n rest v elems args Hrest Hv.
  unfold Remap.remap. cbn [replicate app Remap.remap_from head tail].
  rewrite Hv, (expand_loop_run n rest elems [] Hrest).
  destruct (decide (S n <= length elems)); [|done].
  cbn [Serializer.bind app]. by rewrite remap_from_head_tail.
Qed.

Lemma X13_remap_expand_run_witness :
  Remap.remap (fun v : nat => if decide (v = 0) then Remap.Elements [1; 2; 3]
                              else Remap.NotIterable)
    (replicate 2 Remap.expand ++ [Remap.drop]) [0; 9; 8]
  = Serializer.Ok [1; 2; 8].
Proof.
  refine (X13_remap_expand_run nat _ 1 [Remap.drop] 0 [1; 2; 3] [9; 8] _ _).
  - discriminate.
  - reflexivity.
Defined.

(** * Further properties of the channel *)

Section SentFacts.
Import Serializer Registry ChannelSpec.
Implicit Types (c : RpcChannel).

Lemma sent_emit c e :
  sent (emit c e)
  = sent c ++ match e with Sent msg xfer => [(msg, xfer)] | _ => [] end.
Proof.
  unfold sent. cbn [events emit]. rewrite omap_app. f_equal.
  by destruct e.
Qed.

Lemma sent_settle c id r : sent (settle c id r) = sent c.
Proof.
  unfold settle. destruct (decide _); [|done].
  rewrite sent_emit. apply app_nil_r.
Qed.

Lemma sent_onChannelClose c id : sent (onChannelClose c id) = sent c.
Proof. unfold onChannelClose. by rewrite sent_settle. Qed.

Lemma sent_fold_onChannelClose ids : forall c,
  sent (fold_left onChannelClose ids c) = sent c.
Proof.
  induction ids as [|id ids IH]; intros c; simpl; [done|].
  by rewrite IH, sent_onChannelClose.
Qed.

Lemma sent_stateChange c s : sent (_stateChange c s) = sent c.
Proof.
  unfold _stateChange.
  assert (sent (emit (set_state c s) (StateChanged s (_state c))) = sent c)
    as He by (rewrite sent_emit; apply app_nil_r).
  destruct s; try done.
  unfold emit_close, release_start.
  change (sent (set_start ?x _ _)) with (sent x).
  by rewrite sent_fold_onChannelClose.
Qed.

(** Closing without notice sends nothing. *)
Lemma sent_close_silent c : sent (close c false) = sent c.
Proof.
  unfold close. destruct (_state c); try done;
    change (sent (set_active_keepalive (set_active_timeout
              (set_i_reg ?x _) _) _)) with (sent x);
    apply sent_stateChange.
Qed.

Lemma sent_call_return c id args : sent (call_return c id args) = sent c.
Proof.
  unfold call_return, onDone.
  change (sent (set_close_listeners (set_reg ?x _) _)) with (sent x).
  destruct (is_truthy (args !! 1%nat)); [destruct (is_truthy _)|];
    apply sent_settle.
Qed.

Lemma sent_invoke c f wc args : sent (invoke c f wc args).1 = sent c.
Proof.
  unfold invoke. destruct f as [|id|body r]; cbn [fst].
  - rewrite sent_close_silent, sent_emit. apply app_nil_r.
  - rewrite sent_call_return, sent_emit. apply app_nil_r.
  - rewrite sent_emit. apply app_nil_r.
Qed.

Lemma sent_emit_rawmessage c : sent (emit_rawmessage c) = sent c.
Proof. unfold sent. by rewrite events_emit_rawmessage. Qed.
End SentFacts.

(** X14.  A message without a return address is never answered.  For a
    message whose address names no property inherited from
    [Object.prototype]: whatever [receive] does with it (deny it, find no
    handler, call a handler that returns or throws, close the channel on
    the peer's notice, settle a call), it hands nothing to the transport.
    What a handler, a listener or an access controller sends on its own
    account is not counted. *)
Theorem X14_one_way_message_is_never_answered :
  forall (this : Registry.RpcChannel) (val : Registry.RpcMessage),
    Registry.return_addr val = None ->
    Realm.own_names (Registry.to val) ->
    ChannelSpec.sent (Registry.receive this val).1 = ChannelSpec.sent this.
Proof.
  intros c val Hra _. unfold Registry.receive.
  assert (forall c' data error,
            Registry.maybeReturn c' val data error = (c', None)) as Hm.
  { intros c' data error. unfold Registry.maybeReturn. by rewrite Hra. }
  destruct (Registry._state c); [| |done].
  all: destruct (Registry.lookup_handler _ _) as [[func to'] wc].
  all: destruct (decide _);
    [rewrite Hm; cbn [fst snd]; by rewrite sent_emit_rawmessage|].
  all: destruct func as [f|];
    [|rewrite Hm; cbn [fst snd]; by rewrite sent_emit_rawmessage].
  all: pose proof (sent_invoke (Registry.emit_rawmessage c) f wc
                     (Registry.args val)) as Hi.
  all: rewrite sent_emit_rawmessage in Hi.
  all: destruct (Registry.invoke _ f wc (Registry.args val)) as [c' [d|e]];
    by rewrite Hm.
Qed.

Lemma X14_one_way_message_is_never_answered_witness :
  ChannelSpec.sent
    (Registry.receive Fixtures.fresh_channel
       (ChannelSpec.message ["net"; "x"; "missing"] [])).1
  = ChannelSpec.sent Fixtures.fresh_channel.
Proof.
  refine (X14_one_way_message_is_never_answered
            Fixtures.fresh_channel
            (ChannelSpec.message ["net"; "x"; "missing"] []) _ _).
  - reflexivity.
  - by repeat constructor.
Defined.

Section TimerFacts.
Import Serializer Registry ChannelSpec.
Implicit Types (c : RpcChannel).

Lemma timer_ok_view c c' :
  timer_view c' = timer_view c -> timer_ok c -> timer_ok c'.
Proof.
  unfold timer_view, timer_ok, opts. intros [= Ha Hs Ho] H t.
  rewrite Ha, Hs, Ho. apply H.
Qed.

Lemma timer_view_send c to args ra rt c' :
  send c to args ra rt = Ok c' -> timer_view c' = timer_view c.
Proof.
  unfold send. destruct (rpcSerialize_all args []) as [[sargs xfer]|];
    simpl; [|done]. by intros [= <-].
Qed.

Lemma timer_view_try_send c to : timer_view (try_send c to) = timer_view c.
Proof.
  unfold try_send. destruct (send c to [] None promise) as [c'|] eqn:Hs;
    [|done]. by apply timer_view_send in Hs.
Qed.

Lemma timer_view_send_or_throw c to args :
  timer_view (send_or_throw c to args).1 = timer_view c.
Proof.
  unfold send_or_throw.
  destruct (send c to args None promise) as [c'|] eqn:Hs; [|done].
  by apply timer_view_send in Hs.
Qed.

Lemma timer_view_sendKeepAlive c :
  timer_view (sendKeepAlive c) = timer_view c.
Proof.
  unfold sendKeepAlive. destruct (Q_truthy _); [|done].
  apply timer_view_try_send.
Qed.

Lemma timer_view_resetKeepAlive c :
  timer_view (resetKeepAlive c) = timer_view c.
Proof.
  unfold resetKeepAlive. destruct (Q_truthy _);
    change (timer_view (set_active_keepalive ?x _)) with (timer_view x);
    try change (timer_view (set_active_keepalive ?x _)) with (timer_view x);
    apply timer_view_sendKeepAlive.
Qed.

Lemma timer_view_settle c id r : timer_view (settle c id r) = timer_view c.
Proof. unfold settle. by destruct (decide _). Qed.

Lemma timer_view_onChannelClose c id :
  timer_view (onChannelClose c id) = timer_view c.
Proof. unfold onChannelClose. by rewrite timer_view_settle. Qed.

Lemma timer_view_call_return c id args :
  timer_view (call_return c id args) = timer_view c.
Proof.
  unfold call_return, onDone.
  change (timer_view (set_close_listeners (set_reg ?x _) _))
    with (timer_view x).
  destruct (is_truthy (args !! 1%nat)); [destruct (is_truthy _)|];
    apply timer_view_settle.
Qed.

Lemma timer_view_maybeReturn c val data error :
  timer_view (maybeReturn c val data error).1 = timer_view c.
Proof.
  unfold maybeReturn. destruct (return_addr val) as [addr|]; [|done].
  destruct (return_type val) as [[]|];
    try (destruct (truthy error); apply timer_view_send_or_throw).
  destruct (truthy error); [apply timer_view_send_or_throw|].
  destruct (send_or_throw c addr _) as [c1 [msg|]] eqn:H1;
    pose proof (timer_view_send_or_throw c addr
      [data; undefined; DPrimitive (PBoolean false)]) as E1;
    rewrite H1 in E1; simpl in E1; [done|].
  destruct (send_or_throw c1 addr _) as [c2 [msg|]] eqn:H2;
    pose proof (timer_view_send_or_throw c1 addr
      [undefined; undefined; DPrimitive (PBoolean true)]) as E2;
    rewrite H2 in E2; cbn [fst] in *; [congruence|].
  change (timer_view (set_reg ?x _)) with (timer_view x). congruence.
Qed.

Lemma timer_view_call c to args :
  timer_view (call c to args).2 = timer_view c.
Proof.
  unfold call. simpl.
  destruct (send _ to args _ promise) as [c'|] eqn:Hsend; simpl.
  - by apply timer_view_send in Hsend.
  - by rewrite timer_view_settle.
Qed.

(** [resetTimeout] arms the timer properly, whatever it was before. *)
Lemma timer_ok_resetTimeout c : timer_ok (resetTimeout c).
Proof.
  unfold resetTimeout, timer_ok. cbn [_state set_active_timeout].
  destruct (_state c) eqn:Hs; try done.
  change (opts (set_active_timeout c None)) with (opts c).
  destruct (truthy (r_timeout (opts c))) eqn:Ht; [|done].
  intros t [= <-]. cbn [_state set_active_timeout].
  split_and!; [done | done |].
  change (r_timeout (opts c) ≠ 0%Z). intros H0. by rewrite H0 in Ht.
Qed.

Lemma timer_ok_close c s : timer_ok c -> timer_ok (close c s).
Proof.
  intros H. unfold close. destruct (_state c) eqn:Hs; [| |done];
    by intros t.
Qed.

Lemma timer_ok_start_continue c : timer_ok c -> timer_ok (start_continue c).
Proof.
  intros H. unfold start_continue. destruct (_state c); try done.
  apply timer_ok_resetTimeout.
Qed.

Lemma timer_ok_invoke c f wc args :
  timer_ok c -> timer_ok (invoke c f wc args).1.
Proof.
  intros H. unfold invoke. destruct f as [|id|body r]; cbn [fst].
  - by apply timer_ok_close.
  - eapply timer_ok_view; [|exact H]. by rewrite timer_view_call_return.
  - done.
Qed.

Lemma timer_ok_receive c val : timer_ok c -> timer_ok (receive c val).1.
Proof.
  intros H. unfold receive.
  assert (timer_ok (emit_rawmessage c)) as Hr.
  { eapply timer_ok_view; [|apply (timer_ok_resetTimeout c)]. done. }
  destruct (_state c); [| |done].
  all: destruct (lookup_handler _ _) as [[func to'] wc].
  all: destruct (decide _);
    [eapply timer_ok_view; [apply timer_view_maybeReturn|done]|].
  all: destruct func as [f|];
    [|eapply timer_ok_view; [apply timer_view_maybeReturn|done]].
  all: pose proof (timer_ok_invoke _ f wc (args val) Hr) as Hi.
  all: destruct (invoke _ f wc (args val)) as [c' [d|e]];
    (eapply timer_ok_view; [apply timer_view_maybeReturn|done]).
Qed.

Lemma timer_ok_step c op : timer_ok c -> timer_ok (step c op).
Proof.
  intros H. destruct op; cbn [step].
  - unfold start. destruct (_state c) eqn:Hs; try done.
    destruct (r_await_first_msg _); [done|].
    by apply timer_ok_start_continue.
  - unfold resume_start. destruct (start_ready c); [done|].
    by apply timer_ok_start_continue.
  - by apply timer_ok_close.
  - by apply timer_ok_receive.
  - destruct (active_timeout c); [|done]. by intros t.
  - destruct (active_keepalive c); [|done].
    eapply timer_ok_view; [apply timer_view_sendKeepAlive|done].
  - eapply timer_ok_view; [apply timer_view_call|done].
  - eapply timer_ok_view; [apply timer_view_send_or_throw|done].
  - done.
  - done.
  - unfold setTimeout.
    eapply timer_ok_view; [apply timer_view_resetKeepAlive|].
    apply timer_ok_resetTimeout.
  - done.
Qed.

Lemma timer_ok_run ops : forall c, timer_ok c -> timer_ok (run c ops).
Proof.
  unfold run. induction ops as [|op ops IH]; intros c H; simpl; [done|].
  by apply IH, timer_ok_step.
Qed.

Lemma timer_ok_new_channel p r o : timer_ok (new_channel p r o).
Proof.
  unfold new_channel.
  eapply timer_ok_view; [apply timer_view_resetKeepAlive|]. by intros t.
Qed.
End TimerFacts.

(** X15.  The inactivity timer of a channel is armed only while the
    channel is ACTIVE, and then with the timeout that is configured at
    that moment, which is not 0: this holds after every sequence of
    operations on a newly constructed channel (start, close, receive,
    timer expiry, keep-alive tick, call, send, register, unregister,
    [setTimeout], [setAwaitFirstMsg]).  In particular no timer is left
    running on a CLOSED or INACTIVE channel. *)
Theorem X15_timer_armed_only_when_active :
  forall (p : AccessControl.AccessPolicy) (reg : Registry.RpcHandlerRegistry)
         (o : Registry.RpcChannelOpts) (ops : list Registry.Op) (t : Z),
    Registry.active_timeout (Registry.run (Registry.new_channel p reg o) ops)
      = Some t ->
    Registry._state (Registry.run (Registry.new_channel p reg o) ops)
      = Registry.ACTIVE
    ∧ t = Registry.r_timeout
            (Registry.opts (Registry.run (Registry.new_channel p reg o) ops))
    ∧ t ≠ 0%Z.
Proof.
  intros p reg o ops t.
  apply (timer_ok_run ops _ (timer_ok_new_channel p reg o)).
Qed.

Lemma X15_timer_armed_only_when_active_witness :
  Registry._state
    (Registry.run
       (Registry.new_channel AccessControl.ALLOW Registry.new_registry
          {| Registry.timeout := Some 1000%Z;
             Registry.keep_alive_interval := None;
             Registry.await_first_msg := None |})
       [Registry.OpStart; Registry.OpSend ["net"; "x"] []])
  = Registry.ACTIVE.
Proof.
  refine (proj1 (X15_timer_armed_only_when_active
    AccessControl.ALLOW Registry.new_registry
    {| Registry.timeout := Some 1000%Z;
       Registry.keep_alive_interval := None;
       Registry.await_first_msg := None |}
    [Registry.OpStart; Registry.OpSend ["net"; "x"] []] 1000%Z _)).
  reflexivity.
Defined.

Section PromiseFacts.
Import Serializer Registry ChannelSpec.
Implicit Types (c : RpcChannel) (id : N).

Lemma filter_other_elem_of id j (l : list N) :
  id ∈ List.filter (fun i => negb (N.eqb i j)) l <-> id ∈ l ∧ id ≠ j.
Proof.
  rewrite !list_elem_of_In, filter_In, negb_true_iff, N.eqb_neq. tauto.
Qed.

Lemma pending_settle c j r :
  forall id, id ∈ pending (settle c j r) <-> id ∈ pending c ∧ id ≠ j.
Proof.
  intros id. unfold settle. destruct (decide (j ∈ pending c)) as [Hj|Hj].
  - cbn [pending emit set_pending]. apply filter_other_elem_of.
  - split; [|tauto]. intros H. split; [done|]. by intros ->.
Qed.

Lemma events_settle c j r :
  events (settle c j r)
  = events c ++ if decide (j ∈ pending c) then [Settled j r] else [].
Proof.
  unfold settle. destruct (decide _); [done|]. by rewrite app_nil_r.
Qed.

Lemma pending_onChannelClose c j :
  forall id, id ∈ pending (onChannelClose c j) <-> id ∈ pending c ∧ id ≠ j.
Proof. intros id. unfold onChannelClose. by rewrite pending_settle. Qed.

Lemma events_onChannelClose c j :
  events (onChannelClose c j)
  = events c ++ if decide (j ∈ pending c)
                then [Settled j (Rejected ChannelClosed)] else [].
Proof. unfold onChannelClose. by rewrite events_settle. Qed.

(** The promise [id] has been rejected because the channel closed. *)
Lemma closed_stays id ids : forall c,
  Settled id (Rejected ChannelClosed) ∈ events c ∧ id ∉ pending c ->
  Settled id (Rejected ChannelClosed)
    ∈ events (fold_left onChannelClose ids c)
  ∧ id ∉ pending (fold_left onChannelClose ids c).
Proof.
  induction ids as [|j ids IH]; intros c [He Hp]; [done|].
  cbn [fold_left]. apply IH. split.
  - rewrite events_onChannelClose. apply elem_of_app. by left.
  - rewrite pending_onChannelClose. tauto.
Qed.

Lemma close_listener_rejects id ids : forall c,
  id ∈ ids -> id ∈ pending c ->
  Settled id (Rejected ChannelClosed)
    ∈ events (fold_left onChannelClose ids c)
  ∧ id ∉ pending (fold_left onChannelClose ids c).
Proof.
  induction ids as [|j ids IH]; intros c Hin Hp.
  - by apply elem_of_nil in Hin.
  - cbn [fold_left]. destruct (decide (j = id)) as [->|Hne].
    + apply closed_stays. split.
      * rewrite events_onChannelClose, decide_True by done.
        apply elem_of_app. right. apply list_elem_of_here.
      * rewrite pending_onChannelClose. tauto.
    + apply IH.
      * apply elem_of_cons in Hin as [->|Hin]; done.
      * rewrite pending_onChannelClose. split; [done|]. congruence.
Qed.

Lemma close_rejects c id (notify : bool) :
  _state c ≠ CLOSED -> id ∈ close_listeners c -> id ∈ pending c ->
  Settled id (Rejected ChannelClosed) ∈ events (close c notify)
  ∧ id ∉ pending (close c notify).
Proof.
  intros Hs Hl Hp. unfold close.
  assert (forall c', close_listeners c' = close_listeners c ->
            pending c' = pending c ->
            Settled id (Rejected ChannelClosed)
              ∈ events (_stateChange c' CLOSED)
            ∧ id ∉ pending (_stateChange c' CLOSED)) as H.
  { intros c' Hl' Hp'. unfold _stateChange, emit_close, release_start.
    cbn [events pending set_start].
    apply close_listener_rejects; cbn [close_listeners pending emit set_state];
      congruence. }
  assert (close_listeners (try_send c ["_"; "close"]) = close_listeners c
          ∧ pending (try_send c ["_"; "close"]) = pending c) as [Hl' Hp'].
  { unfold try_send, send. by destruct (rpcSerialize_all _ _) as [[? ?]|]. }
  destruct (_state c); [| |done]; destruct notify;
    cbn [events pending set_active_keepalive set_active_timeout set_i_reg];
    by apply H.
Qed.
End PromiseFacts.

(** X16.  A call never hangs across a close.  [call] on a channel that is
    not CLOSED either fails to serialize its arguments, and then its
    promise is rejected at once with that TypeError and nothing is sent;
    or the request is sent, and then closing the channel (with or without
    notice to the peer) rejects the promise with 'Channel closed' and
    leaves it no longer pending. *)
Theorem X16_close_rejects_pending_call :
  forall (this : Registry.RpcChannel) (to : list string)
         (args : list Serializer.SerializableData) (send : bool),
    Registry._state this ≠ Registry.CLOSED ->
    match Serializer.rpcSerialize_all args [] with
    | Serializer.Ok (sargs, xfer) =>
      Registry.events (Registry.call this to args).2
        = Registry.events this
          ++ [Registry.Sent
                (ChannelSpec.request to sargs (Registry.call this to args).1)
                xfer]
      ∧ Registry.Settled (Registry.call this to args).1
          (Registry.Rejected Registry.ChannelClosed)
          ∈ Registry.events
              (Registry.close (Registry.call this to args).2 send)
      ∧ (Registry.call this to args).1
          ∉ Registry.pending
              (Registry.close (Registry.call this to args).2 send)
    | Serializer.Throw msg =>
      Registry.events (Registry.call this to args).2
        = Registry.events this
          ++ [Registry.Settled (Registry.call this to args).1
                (Registry.Rejected (Registry.Thrown msg))]
    end.
Proof.
  intros c to args send Hs. unfold Registry.call, Registry.send.
  cbn [Registry.nextSeqAddr].
  destruct (Serializer.rpcSerialize_all args []) as [[sargs xfer]|msg];
    cbn [Serializer.bind fst snd].
  - split; [done|]. apply close_rejects.
    + done.
    + cbn. apply elem_of_app. right. apply list_elem_of_here.
    + cbn. apply elem_of_app. right. apply list_elem_of_here.
  - rewrite events_settle. rewrite decide_True; [done|].
    cbn. apply elem_of_app. right. apply list_elem_of_here.
Qed.

Lemma X16_close_rejects_pending_call_witness :
  Registry.Settled 0%N (Registry.Rejected Registry.ChannelClosed)
    ∈ Registry.events
        (Registry.close
           (Registry.call Fixtures.fresh_channel ["net"; "x"; "f"] []).2
           true).
Proof.
  refine (proj1 (proj2 (X16_close_rejects_pending_call
    Fixtures.fresh_channel ["net"; "x"; "f"] [] true _))).
  discriminate.
Defined.

Section ClosedFacts.
Import Serializer Registry ChannelSpec.
Implicit Types (c : RpcChannel) (id : N).

Lemma settlements_emit c e id :
  settlements (emit c e) id
  = settlements c id
    ++ match e with
       | Settled i r => if N.eqb i id then [r] else []
       | _ => []
       end.
Proof.
  unfold settlements. cbn [events emit]. rewrite omap_app. f_equal.
  destruct e; try done. cbn. by destruct (N.eqb id0 id).
Qed.

Lemma try_send_emits c to :
  try_send c to = emit c (Sent (message to []) []).
Proof. reflexivity. Qed.

Lemma closed_with_emit id seen c e :
  (forall r, e ≠ Settled id r) ->
  closed_with id seen c -> closed_with id seen (emit c e).
Proof.
  intros He (Hs & Hn & Hse). split_and!; [done | done |].
  rewrite settlements_emit, <- Hse.
  destruct e as [| | |i r]; try apply app_nil_r.
  destruct (N.eqb_spec i id) as [->|]; [|apply app_nil_r].
  by destruct (He r).
Qed.

Lemma closed_with_settle id seen c j r :
  j ≠ id -> closed_with id seen c -> closed_with id seen (settle c j r).
Proof.
  intros Hj H. unfold settle. destruct (decide _); [|done].
  apply closed_with_emit; [|done]. intros r' [= E]. done.
Qed.

Lemma closed_with_sendKeepAlive id seen c :
  closed_with id seen c -> closed_with id seen (sendKeepAlive c).
Proof.
  intros H. unfold sendKeepAlive. destruct (Q_truthy _); [|done].
  rewrite try_send_emits. by apply closed_with_emit.
Qed.

Lemma closed_with_step id seen c op :
  closed_with id seen c -> closed_with id seen (step c op).
Proof.
  intros H. pose proof H as (Hs & Hn & Hse).
  destruct op as [| |notify|val| | |to args|to args|address func|address
                 |t k|should]; cbn [step].
  - unfold start. by rewrite Hs.
  - unfold resume_start. destruct (start_ready c); [done|].
    unfold start_continue. cbn [_state set_start]. by rewrite Hs.
  - by rewrite close_closed.
  - unfold receive. by rewrite Hs.
  - destruct (active_timeout c); [|done]. by rewrite close_closed.
  - destruct (active_keepalive c); [|done].
    by apply closed_with_sendKeepAlive.
  - unfold call, send. cbn [nextSeqAddr].
    destruct (rpcSerialize_all args []) as [[sargs xfer]|msg];
      cbn [bind snd].
    + apply closed_with_emit; [done|].
      split_and!; [done | cbn; lia | done].
    + apply closed_with_settle; [lia|].
      split_and!; [done | cbn; lia | done].
  - unfold send_or_throw, send.
    destruct (rpcSerialize_all args []) as [[sargs xfer]|msg];
      cbn [bind fst]; [|done].
    by apply closed_with_emit.
  - done.
  - done.
  - unfold setTimeout, resetKeepAlive.
    assert (closed_with id seen
              (sendKeepAlive (resetTimeout
                 (set_opts c {| timeout := t; keep_alive_interval := k;
                                await_first_msg :=
                                  await_first_msg (_opts c) |}))))
      as (Hs' & Hn' & Hse').
    { apply closed_with_sendKeepAlive. unfold resetTimeout.
      cbn [_state set_active_timeout set_opts]. by rewrite Hs. }
    by destruct (Q_truthy _).
  - done.
Qed.
End ClosedFacts.

(** X17.  [call] does not look at the state of the channel.  On a CLOSED
    channel it still hands the request to the transport, and the promise
    it returns is never settled afterwards: no sequence of operations on
    the channel (start, close, receive, timer expiry, keep-alive tick,
    further calls and sends, register, unregister, the option setters)
    resolves or rejects it. *)
Theorem X17_call_on_closed_channel_never_settles :
  forall (this : Registry.RpcChannel) (to : list string)
         (args : list Serializer.SerializableData)
         (sargs : list Serializer.SerializedData)
         (xfer : list Serializer.Transferable) (ops : list Registry.Op),
    Registry._state this = Registry.CLOSED ->
    Serializer.rpcSerialize_all args [] = Serializer.Ok (sargs, xfer) ->
    ChannelSpec.sent (Registry.call this to args).2
      = ChannelSpec.sent this
        ++ [(ChannelSpec.request to sargs (Registry.call this to args).1,
             xfer)]
    ∧ ChannelSpec.settlements
        (Registry.run (Registry.call this to args).2 ops)
        (Registry.call this to args).1
      = ChannelSpec.settlements this (Registry.call this to args).1.
Proof.
  intros c to args sargs xfer ops Hs Hser.
  assert (ChannelSpec.closed_with (Registry.call c to args).1
            (ChannelSpec.settlements c (Registry.call c to args).1)
            (Registry.call c to args).2
          ∧ ChannelSpec.sent (Registry.call c to args).2
            = ChannelSpec.sent c
              ++ [(ChannelSpec.request to sargs (Registry.call c to args).1,
                   xfer)]) as [Hc Hsent].
  { unfold Registry.call, Registry.send. cbn [Registry.nextSeqAddr].
    rewrite Hser. cbn [Serializer.bind fst snd]. split.
    - apply closed_with_emit; [done|].
      split_and!; [done | cbn; lia | done].
    - unfold Registry.c_send. by rewrite sent_emit. }
  split; [done|].
  revert Hc. generalize (Registry.call c to args).2.
  generalize (ChannelSpec.settlements c (Registry.call c to args).1).
  generalize (Registry.call c to args).1. clear.
  intros id seen c1. revert c1. unfold Registry.run.
  induction ops as [|op ops IH]; intros c1 Hc; cbn [fold_left].
  - apply Hc.
  - by apply IH, closed_with_step.
Qed.

Lemma X17_call_on_closed_channel_never_settles_witness :
  ChannelSpec.settlements
    (Registry.run
       (Registry.call (Registry.close Fixtures.fresh_channel true)
          ["net"; "x"; "f"] []).2
       [Registry.OpReceive (ChannelSpec.message ["_"; "ret"; "id0"] []);
        Registry.OpClose true])
    0%N
  = [].
Proof.
  refine (proj2 (X17_call_on_closed_channel_never_settles
    (Registry.close Fixtures.fresh_channel true) ["net"; "x"; "f"] [] [] []
    [Registry.OpReceive (ChannelSpec.message ["_"; "ret"; "id0"] []);
     Registry.OpClose true] _ _)).
  - reflexivity.
  - reflexivity.
Defined.

Section ReplyFacts.
Import AccessControl Serializer Registry ChannelSpec.
Implicit Types (c : RpcChannel).

(** [receive] on a message for an application function to which access
    is not denied: the function is called and its outcome is given to
    [maybeReturn]. *)
Lemma receive_user c val body r to' wc :
  _state c ≠ CLOSED ->
  lookup_handler (emit_rawmessage c) (to val)
    = (Some (UserFunction body r), to', wc) ->
  can (emit_rawmessage c) to'
      {| opt_args := args val; opt_wc := wc;
         opt_func := Some (UserFunction body r) |} ≠ Some DENY ->
  receive c val
  = let c' := emit (emit_rawmessage c)
                   (Invoked (UserFunction body r) wc (args val)) in
    match body wc (args val) with
    | Returns data => maybeReturn c' val data undefined
    | Throws e => maybeReturn c' val undefined e
    end.
Proof.
  intros Hs Hl Hcan. rewrite receive_open by done. cbn zeta.
  rewrite Hl. destruct (decide _); [done|].
  unfold invoke. by destruct (body wc (args val)).
Qed.

Lemma maybeReturn_promise c val addr data error :
  return_addr val = Some addr ->
  return_type val ≠ Some generator ->
  maybeReturn c val data error
  = send_or_throw c addr
      (if truthy error then [undefined; error] else [data; undefined]).
Proof.
  intros Ha Ht. unfold maybeReturn. rewrite Ha.
  destruct (return_type val) as [[]|]; try done; by destruct (truthy error).
Qed.

Lemma send_or_throw_value c addr data :
  send_or_throw c addr [data; undefined]
  = match rpcSerialize data [] with
    | Ok (v, xfer) =>
      (emit c (Sent (message addr [v; SPrimitive PUndefined]) xfer), None)
    | Throw msg => (c, Some msg)
    end.
Proof.
  unfold send_or_throw, send. cbn [rpcSerialize_all].
  by destruct (rpcSerialize data []) as [[v xfer]|msg].
Qed.

Lemma send_or_throw_error c addr error :
  send_or_throw c addr [undefined; error]
  = match rpcSerialize error [] with
    | Ok (v, xfer) =>
      (emit c (Sent (message addr [SPrimitive PUndefined; v]) xfer), None)
    | Throw msg => (c, Some msg)
    end.
Proof.
  unfold send_or_throw, send. cbn [rpcSerialize_all rpcSerialize bind undefined].
  by destruct (rpcSerialize error []) as [[v xfer]|msg].
Qed.

Lemma send_or_throw_frame c addr data (done : bool) :
  send_or_throw c addr [data; undefined; DPrimitive (PBoolean done)]
  = match rpcSerialize data [] with
    | Ok (v, xfer) =>
      (emit c (Sent (message addr [v; SPrimitive PUndefined;
                                   SPrimitive (PBoolean done)]) xfer),
       None)
    | Throw msg => (c, Some msg)
    end.
Proof.
  unfold send_or_throw, send. cbn [rpcSerialize_all].
  by destruct (rpcSerialize data []) as [[v xfer]|msg].
Qed.
End ReplyFacts.

(** X18.  The answer to a request.  When a message with a return address
    under the promise protocol reaches an application function to which
    access is not denied, and the function returns a value, [receive]
    calls the function once with the wildcard values and the arguments
    and sends exactly one message, to the return address, carrying the
    serialized value and no error.  A return value that cannot be
    serialized is not answered at all: the TypeError escapes from
    [receive] and nothing is sent. *)
Theorem X18_returned_value_is_sent_to_return_address :
  forall (this : Registry.RpcChannel) (val : Registry.RpcMessage)
         (body : list string -> list Serializer.SerializedData ->
                 Registry.HandlerOutcome)
         (remapped : option Registry.RpcFunction)
         (to' : list string) (wc : list string) (addr : list string)
         (data : Serializer.SerializableData),
    Registry._state this ≠ Registry.CLOSED ->
    Registry.lookup_handler (Registry.emit_rawmessage this) (Registry.to val)
      = (Some (Registry.UserFunction body remapped), to', wc) ->
    Registry.can (Registry.emit_rawmessage this) to'
      {| Registry.opt_args := Registry.args val; Registry.opt_wc := wc;
         Registry.opt_func := Some (Registry.UserFunction body remapped) |}
      ≠ Some AccessControl.DENY ->
    Registry.return_addr val = Some addr ->
    Registry.return_type val ≠ Some Registry.generator ->
    body wc (Registry.args val) = Registry.Returns data ->
    match Serializer.rpcSerialize data [] with
    | Serializer.Ok (v, xfer) =>
      Registry.events (Registry.receive this val).1
        = Registry.events this
          ++ [Registry.Invoked (Registry.UserFunction body remapped) wc
                (Registry.args val);
              Registry.Sent
                (ChannelSpec.message addr
                   [v; Serializer.SPrimitive Serializer.PUndefined]) xfer]
      ∧ (Registry.receive this val).2 = None
    | Serializer.Throw msg =>
      Registry.events (Registry.receive this val).1
        = Registry.events this
          ++ [Registry.Invoked (Registry.UserFunction body remapped) wc
                (Registry.args val)]
      ∧ (Registry.receive this val).2 = Some msg
    end.
Proof.
  intros c val body r to' wc addr data Hs Hl Hcan Ha Ht Hb.
  rewrite (receive_user c val body r to' wc Hs Hl Hcan). cbn zeta.
  rewrite Hb, (maybeReturn_promise _ val addr) by done.
  change (truthy Registry.undefined) with false. cbn iota.
  rewrite send_or_throw_value.
  destruct (Serializer.rpcSerialize data []) as [[v xfer]|msg];
    cbn [fst snd Registry.events Registry.emit];
    rewrite events_emit_rawmessage; [|done].
  by rewrite <- app_assoc.
Qed.

Lemma X18_returned_value_is_sent_to_return_address_witness :
  Registry.events
    (Registry.receive Fixtures.serving_channel
       (ChannelSpec.request ["net"; "x"; "f"] [] 0)).1
  = Registry.events Fixtures.serving_channel
    ++ [Registry.Invoked Fixtures.answer [] [];
        Registry.Sent
          (ChannelSpec.message ["_"; "ret"; "id0"]
             [Serializer.SPrimitive (Serializer.PNumber 42);
              Serializer.SPrimitive Serializer.PUndefined]) []].
Proof.
  refine (proj1 (X18_returned_value_is_sent_to_return_address
    Fixtures.serving_channel (ChannelSpec.request ["net"; "x"; "f"] [] 0)
    _ None ["net"; "x"; "f"] [] ["_"; "ret"; "id0"]
    (Serializer.DPrimitive (Serializer.PNumber 42)) _ _ _ _ _ _)).
  - discriminate.
  - vm_compute. reflexivity.
  - vm_compute. discriminate.
  - reflexivity.
  - discriminate.
  - reflexivity.
Defined.

(** X19.  The answer to a request whose handler throws.  Under the
    promise protocol a thrown value that is truthy is sent to the return
    address as the error of the reply, in serialized form, with no data.
    A thrown value that is falsy (0, the empty string, [false], [null],
    [undefined]) is not reported: the reply is that of a call that
    returned [undefined], with no error. *)
Theorem X19_thrown_value_is_sent_as_error_unless_falsy :
  forall (this : Registry.RpcChannel) (val : Registry.RpcMessage)
         (body : list string -> list Serializer.SerializedData ->
                 Registry.HandlerOutcome)
         (remapped : option Registry.RpcFunction)
         (to' : list string) (wc : list string) (addr : list string)
         (e : Serializer.SerializableData)
         (v : Serializer.SerializedData)
         (xfer : list Serializer.Transferable),
    Registry._state this ≠ Registry.CLOSED ->
    Registry.lookup_handler (Registry.emit_rawmessage this) (Registry.to val)
      = (Some (Registry.UserFunction body remapped), to', wc) ->
    Registry.can (Registry.emit_rawmessage this) to'
      {| Registry.opt_args := Registry.args val; Registry.opt_wc := wc;
         Registry.opt_func := Some (Registry.UserFunction body remapped) |}
      ≠ Some AccessControl.DENY ->
    Registry.return_addr val = Some addr ->
    Registry.return_type val ≠ Some Registry.generator ->
    body wc (Registry.args val) = Registry.Throws e ->
    Serializer.rpcSerialize e [] = Serializer.Ok (v, xfer) ->
    ChannelSpec.sent (Registry.receive this val).1
      = ChannelSpec.sent this
        ++ [if @truthy _ Registry.serializable_truthy e
            then (ChannelSpec.message addr
                    [Serializer.SPrimitive Serializer.PUndefined; v], xfer)
            else (ChannelSpec.message addr
                    [Serializer.SPrimitive Serializer.PUndefined;
                     Serializer.SPrimitive Serializer.PUndefined], [])]
    ∧ (Registry.receive this val).2 = None.
Proof.
  intros c val body r to' wc addr e v xfer Hs Hl Hcan Ha Ht Hb Hser.
  rewrite (receive_user c val body r to' wc Hs Hl Hcan). cbn zeta.
  rewrite Hb, (maybeReturn_promise _ val addr) by done.
  destruct (truthy e).
  - rewrite send_or_throw_error, Hser. cbn [fst snd].
    by rewrite !sent_emit, sent_emit_rawmessage, app_nil_r.
  - rewrite send_or_throw_value. cbn [Serializer.rpcSerialize fst snd
      Registry.undefined].
    by rewrite !sent_emit, sent_emit_rawmessage, app_nil_r.
Qed.

Lemma X19_thrown_value_is_sent_as_error_unless_falsy_witness :
  ChannelSpec.sent
    (Registry.receive Fixtures.serving_channel
       (ChannelSpec.request ["net"; "x"; "h"] [] 0)).1
  = ChannelSpec.sent Fixtures.serving_channel
    ++ [(ChannelSpec.message ["_"; "ret"; "id0"]
           [Serializer.SPrimitive Serializer.PUndefined;
            Serializer.SPrimitive Serializer.PUndefined], [])].
Proof.
  refine (proj1 (X19_thrown_value_is_sent_as_error_unless_falsy
    Fixtures.serving_channel (ChannelSpec.request ["net"; "x"; "h"] [] 0)
    _ None ["net"; "x"; "h"] [] ["_"; "ret"; "id0"]
    (Serializer.DPrimitive (Serializer.PNumber 0))
    (Serializer.SPrimitive (Serializer.PNumber 0)) [] _ _ _ _ _ _ _)).
  - discriminate.
  - vm_compute. reflexivity.
  - vm_compute. discriminate.
  - reflexivity.
  - discriminate.
  - reflexivity.
  - reflexivity.
Defined.

(** X20.  The stream protocol for a plain value.  When the segments of
    the address and of the return address of a request name no property
    inherited from [Object.prototype], the request asks for a generator
    and the function returns a value that is neither a promise nor a
    generator, [receive] sends two frames to the return address: the
    serialized value with the done flag [false], then an empty frame with
    the done flag [true]; after that it unregisters the stop address
    [_.stopgen.<return address>] on the application registry, and
    returns. *)
Theorem X20_plain_value_is_streamed_as_value_then_done :
  forall (this : Registry.RpcChannel) (val : Registry.RpcMessage)
         (body : list string -> list Serializer.SerializedData ->
                 Registry.HandlerOutcome)
         (remapped : option Registry.RpcFunction)
         (to' : list string) (wc : list string) (addr : list string)
         (data : Serializer.SerializableData)
         (v : Serializer.SerializedData)
         (xfer : list Serializer.Transferable),
    Registry._state this ≠ Registry.CLOSED ->
    Realm.own_names (Registry.to val) ->
    Realm.own_names addr ->
    Registry.lookup_handler (Registry.emit_rawmessage this) (Registry.to val)
      = (Some (Registry.UserFunction body remapped), to', wc) ->
    Registry.can (Registry.emit_rawmessage this) to'
      {| Registry.opt_args := Registry.args val; Registry.opt_wc := wc;
         Registry.opt_func := Some (Registry.UserFunction body remapped) |}
      ≠ Some AccessControl.DENY ->
    Registry.return_addr val = Some addr ->
    Registry.return_type val = Some Registry.generator ->
    body wc (Registry.args val) = Registry.Returns data ->
    Serializer.rpcSerialize data [] = Serializer.Ok (v, xfer) ->
    ChannelSpec.sent (Registry.receive this val).1
      = ChannelSpec.sent this
        ++ [(ChannelSpec.message addr
               [v; Serializer.SPrimitive Serializer.PUndefined;
                Serializer.SPrimitive (Serializer.PBoolean false)], xfer);
            (ChannelSpec.message addr
               [Serializer.SPrimitive Serializer.PUndefined;
                Serializer.SPrimitive Serializer.PUndefined;
                Serializer.SPrimitive (Serializer.PBoolean true)], [])]
    ∧ (Registry.receive this val).2 = None
    ∧ Registry.reg (Registry.receive this val).1
      = Registry.unregister (Registry.reg this)
          (Some <$> "_" :: "stopgen" :: addr).
Proof.
  intros c val body r to' wc addr data v xfer Hs _ _ Hl Hcan Ha Ht Hb Hser.
  rewrite (receive_user c val body r to' wc Hs Hl Hcan). cbn zeta.
  rewrite Hb. unfold Registry.maybeReturn. rewrite Ha, Ht.
  change (truthy Registry.undefined) with false. cbn iota.
  rewrite send_or_throw_frame, Hser.
  rewrite (send_or_throw_frame _ addr Registry.undefined true).
  cbn [Serializer.rpcSerialize Registry.undefined fst snd].
  split_and!; [|done|].
  - unfold Registry.c_send.
    change (ChannelSpec.sent (Registry.set_reg ?x _)) with (ChannelSpec.sent x).
    rewrite !sent_emit, sent_emit_rawmessage, app_nil_r.
    by rewrite <- app_assoc.
  - cbn [Registry.reg Registry.set_reg Registry.c_send Registry.emit].
    by destruct (fields_emit_rawmessage c) as (_ & -> & _).
Qed.

Lemma X20_plain_value_is_streamed_as_value_then_done_witness :
  (Registry.receive Fixtures.serving_channel
     {| Registry.to := ["net"; "x"; "f"]; Registry.args := [];
        Registry.return_addr := Some ["_"; "ret"; "id0"];
        Registry.return_type := Some Registry.generator |}).2
  = None.
Proof.
  refine (proj1 (proj2 (X20_plain_value_is_streamed_as_value_then_done
    Fixtures.serving_channel
    {| Registry.to := ["net"; "x"; "f"]; Registry.args := [];
       Registry.return_addr := Some ["_"; "ret"; "id0"];
       Registry.return_type := Some Registry.generator |}
    _ None ["net"; "x"; "f"] [] ["_"; "ret"; "id0"]
    (Serializer.DPrimitive (Serializer.PNumber 42))
    (Serializer.SPrimitive (Serializer.PNumber 42)) [] _ _ _ _ _ _ _ _ _))).
  - discriminate.
  - by repeat constructor.
  - by repeat constructor.
  - vm_compute. reflexivity.
  - vm_compute. discriminate.
  - reflexivity.
  - reflexivity.
  - reflexivity.
  - reflexivity.
Defined.

Section RoundTripFacts.
Import AccessControl Serializer Registry ChannelSpec.
Implicit Types (c : RpcChannel) (id : N).

Lemma NoEmpty_seq_addr id : NoEmpty (seq_addr id).
Proof. unfold NoEmpty, seq_addr. by repeat constructor. Qed.

Lemma can_policy_view c c' addr opts :
  policy_view c' = policy_view c -> can c' addr opts = can c addr opts.
Proof. unfold policy_view, can. by intros [= -> -> ->]. Qed.

Lemma policy_view_emit_rawmessage c :
  policy_view (emit_rawmessage c) = policy_view c.
Proof.
  unfold policy_view.
  by destruct (fields_emit_rawmessage c) as (-> & _ & -> & ->).
Qed.

Lemma policy_view_emit c e : policy_view (emit c e) = policy_view c.
Proof. done. Qed.

(** What [call] leaves behind. *)
Lemma call_fields c to args :
  (call c to args).1 = return_seq_id (_i_reg c)
  ∧ _state (call c to args).2 = _state c
  ∧ _i_reg (call c to args).2
    = register (nextSeqAddr (_i_reg c)).2
        (Some <$> seq_addr (return_seq_id (_i_reg c)))
        (CallReturnHandler (return_seq_id (_i_reg c)))
  ∧ policy_view (call c to args).2 = policy_view c
  ∧ return_seq_id (_i_reg c) ∈ close_listeners (call c to args).2.
Proof.
  unfold call, send, settle. cbn [nextSeqAddr].
  destruct (rpcSerialize_all args []) as [[sargs xfer]|msg];
    cbn [bind fst snd];
    [|destruct (decide _)]; split_and!; try done;
    cbn; apply elem_of_app; right; apply list_elem_of_here.
Qed.

Lemma stored_at_call c to args :
  stored_at (table (map (_i_reg (call c to args).2)))
            (Some <$> seq_addr (call c to args).1)
  = Some (CallReturnHandler (call c to args).1).
Proof.
  destruct (call_fields c to args) as (-> & _ & -> & _).
  cbn [map register nextSeqAddr put table].
  rewrite <- (NoEmpty_key_of (seq_addr _)) at 2 by apply NoEmpty_seq_addr.
  by rewrite stored_at_put_flat_same.
Qed.

Lemma lookup_return_handler c id :
  stored_at (table (map (_i_reg c))) (Some <$> seq_addr id)
    = Some (CallReturnHandler id) ->
  lookup_handler (emit_rawmessage c) (seq_addr id)
  = (Some (CallReturnHandler id), seq_addr id, []).
Proof.
  intros Hst. unfold lookup_handler.
  destruct (fields_emit_rawmessage c) as (-> & _).
  by rewrite (get_literal _ _ (CallReturnHandler id))
    by (done || apply NoEmpty_seq_addr).
Qed.

Lemma events_call_return c id data error :
  events (call_return c id [data; error])
  = events c
    ++ if decide (id ∈ pending c)
       then [Settled id
               (if truthy error
                then if is_truthy (name_of error)
                     then Rejected (Forwarded error)
                     else Rejected (Raw error)
                else Resolved data)]
       else [].
Proof.
  unfold call_return, onDone.
  cbn [events set_close_listeners set_reg lookup is_truthy default
       list_lookup].
  destruct (truthy error); [destruct (is_truthy _)|];
    by rewrite events_settle.
Qed.

(** A reply to a call whose return handler is registered and to which
    access is not denied reaches the return handler. *)
Lemma receive_reply c id data error :
  _state c ≠ CLOSED ->
  stored_at (table (map (_i_reg c))) (Some <$> seq_addr id)
    = Some (CallReturnHandler id) ->
  can c (seq_addr id)
      {| opt_args := [data; error]; opt_wc := [];
         opt_func := Some (CallReturnHandler id) |} ≠ Some DENY ->
  receive c (message (seq_addr id) [data; error])
  = (call_return
       (emit (emit_rawmessage c)
             (Invoked (CallReturnHandler id) [] [data; error]))
       id [data; error], None).
Proof.
  intros Hs Hst Hcan. rewrite receive_open by done.
  cbn [to args message]. cbn zeta.
  rewrite lookup_return_handler by done.
  rewrite (can_policy_view c) by apply policy_view_emit_rawmessage.
  destruct (decide _); [done|]. reflexivity.
Qed.

Lemma call_return_fields c id args :
  _i_reg (call_return c id args) = _i_reg c
  ∧ reg (call_return c id args)
    = unregister (reg c) (Some <$> seq_addr id).
Proof.
  unfold call_return, onDone, settle.
  cbn [_i_reg reg set_close_listeners set_reg].
  destruct (is_truthy (args !! 1%nat)); [destruct (is_truthy _)|];
    by destruct (decide _).
Qed.
End RoundTripFacts.

(** X21.  How a reply settles a call.  When a message [[data, error]]
    arrives at the return address of a pending call whose return handler
    is registered, and access to that address is not denied, [receive]
    calls the return handler and the promise is settled, once: resolved
    with [data] when [error] is falsy, rejected with a ForwardedError
    carrying [error] when [error] is truthy and has a truthy [name],
    rejected with [error] itself otherwise.  Afterwards the call is no
    longer pending. *)
Theorem X21_reply_settles_the_call :
  forall (this : Registry.RpcChannel) (id : N)
         (data error : Serializer.SerializedData),
    Registry._state this ≠ Registry.CLOSED ->
    stored_at (table (Registry.map (Registry._i_reg this)))
              (Some <$> Registry.seq_addr id)
      = Some (Registry.CallReturnHandler id) ->
    Registry.can this (Registry.seq_addr id)
      {| Registry.opt_args := [data; error]; Registry.opt_wc := [];
         Registry.opt_func := Some (Registry.CallReturnHandler id) |}
      ≠ Some AccessControl.DENY ->
    id ∈ Registry.pending this ->
    Registry.events
      (Registry.receive this
         (ChannelSpec.message (Registry.seq_addr id) [data; error])).1
    = Registry.events this
      ++ [Registry.Invoked (Registry.CallReturnHandler id) [] [data; error];
          Registry.Settled id
            (if @truthy _ Registry.serialized_truthy error
             then if @is_truthy _ Registry.serialized_truthy
                       (Registry.name_of error)
                  then Registry.Rejected (Registry.Forwarded error)
                  else Registry.Rejected (Registry.Raw error)
             else Registry.Resolved data)]
    ∧ id ∉ Registry.pending
             (Registry.receive this
                (ChannelSpec.message (Registry.seq_addr id) [data; error])).1.
Proof.
  intros c id data error Hs Hst Hcan Hp.
  rewrite receive_reply by done. cbn [fst]. split.
  - rewrite events_call_return. cbn [Registry.pending Registry.emit].
    assert (Registry.pending (Registry.emit_rawmessage c) = Registry.pending c)
      as -> by (unfold Registry.emit_rawmessage, Registry.resetTimeout; cbn;
                destruct (Registry._state c); try done;
                by destruct (truthy _)).
    rewrite decide_True by done.
    cbn [Registry.events Registry.emit]. rewrite events_emit_rawmessage.
    by rewrite <- app_assoc.
  - unfold Registry.call_return, Registry.onDone.
    cbn [Registry.pending Registry.set_close_listeners Registry.set_reg
         lookup list_lookup is_truthy default].
    destruct (truthy error); [destruct (is_truthy _)|];
      rewrite pending_settle; tauto.
Qed.

Lemma X21_reply_settles_the_call_witness :
  0%N ∉ Registry.pending
          (Registry.receive
             (Registry.call Fixtures.fresh_channel ["net"; "x"; "f"] []).2
             (ChannelSpec.message (Registry.seq_addr 0)
                [Serializer.SPrimitive (Serializer.PNumber 42);
                 Serializer.SPrimitive Serializer.PUndefined])).1.
Proof.
  refine (proj2 (X21_reply_settles_the_call
    (Registry.call Fixtures.fresh_channel ["net"; "x"; "f"] []).2 0%N
    (Serializer.SPrimitive (Serializer.PNumber 42))
    (Serializer.SPrimitive Serializer.PUndefined) _ _ _ _)).
  - discriminate.
  - vm_compute. reflexivity.
  - vm_compute. discriminate.
  - apply list_elem_of_here.
Defined.

(** X22.  What a settled call leaves behind.  The return handler of a
    call is registered on the internal registry of the channel, but when
    the reply arrives it is the application registry on which the return
    address is unregistered: the internal registry is unchanged, so the
    return handler stays registered there after the call has settled,
    and whatever the application registry held at the return address is
    gone. *)
Theorem X22_return_handler_stays_registered :
  forall (this : Registry.RpcChannel) (id : N)
         (data error : Serializer.SerializedData),
    Registry._state this ≠ Registry.CLOSED ->
    stored_at (table (Registry.map (Registry._i_reg this)))
              (Some <$> Registry.seq_addr id)
      = Some (Registry.CallReturnHandler id) ->
    Registry.can this (Registry.seq_addr id)
      {| Registry.opt_args := [data; error]; Registry.opt_wc := [];
         Registry.opt_func := Some (Registry.CallReturnHandler id) |}
      ≠ Some AccessControl.DENY ->
    Registry._i_reg
      (Registry.receive this
         (ChannelSpec.message (Registry.seq_addr id) [data; error])).1
    = Registry._i_reg this
    ∧ Registry.reg
        (Registry.receive this
           (ChannelSpec.message (Registry.seq_addr id) [data; error])).1
      = Registry.unregister (Registry.reg this)
          (Some <$> Registry.seq_addr id)
    ∧ stored_at
        (table (Registry.map (Registry.reg
           (Registry.receive this
              (ChannelSpec.message (Registry.seq_addr id) [data; error])).1)))
        (Some <$> Registry.seq_addr id)
      = None.
Proof.
  intros c id data error Hs Hst Hcan.
  rewrite receive_reply by done. cbn [fst].
  destruct (call_return_fields
              (Registry.emit (Registry.emit_rawmessage c)
                 (Registry.Invoked (Registry.CallReturnHandler id) []
                    [data; error])) id [data; error]) as [-> ->].
  cbn [Registry._i_reg Registry.reg Registry.emit].
  destruct (fields_emit_rawmessage c) as (-> & -> & _).
  split_and!; [done | done |].
  unfold Registry.unregister. cbn [Registry.map put table].
  rewrite <- (NoEmpty_key_of (Registry.seq_addr id)) at 2
    by apply NoEmpty_seq_addr.
  by rewrite stored_at_put_flat_same.
Qed.

Lemma X22_return_handler_stays_registered_witness :
  Registry._i_reg
    (Registry.receive
       (Registry.call Fixtures.fresh_channel ["net"; "x"; "f"] []).2
       (ChannelSpec.message (Registry.seq_addr 0)
          [Serializer.SPrimitive (Serializer.PNumber 42);
           Serializer.SPrimitive Serializer.PUndefined])).1
  = Registry._i_reg
      (Registry.call Fixtures.fresh_channel ["net"; "x"; "f"] []).2.
Proof.
  refine (proj1 (X22_return_handler_stays_registered
    (Registry.call Fixtures.fresh_channel ["net"; "x"; "f"] []).2 0%N
    (Serializer.SPrimitive (Serializer.PNumber 42))
    (Serializer.SPrimitive Serializer.PUndefined) _ _ _)).
  - discriminate.
  - vm_compute. reflexivity.
  - vm_compute. discriminate.
Defined.

(** X23.  The round trip of a call.  A caller that is not CLOSED calls an
    address; the request it sent is delivered to a callee that is not
    CLOSED, where the address resolves to an application function to
    which access is not denied and which returns a serializable value;
    the reply the callee sent is delivered back to the caller, which does
    not deny access to the return address.  Then the promise of the call
    is resolved with the serialized return value of the function. *)
Theorem X23_call_round_trip :
  forall (caller callee : Registry.RpcChannel) (to : list string)
         (args : list Serializer.SerializableData)
         (sargs : list Serializer.SerializedData)
         (xfer : list Serializer.Transferable)
         (body : list string -> list Serializer.SerializedData ->
                 Registry.HandlerOutcome)
         (remapped : option Registry.RpcFunction)
         (to' : list string) (wc : list string)
         (data : Serializer.SerializableData)
         (v : Serializer.SerializedData)
         (xfer' : list Serializer.Transferable),
    Registry._state caller ≠ Registry.CLOSED ->
    Registry._state callee ≠ Registry.CLOSED ->
    Serializer.rpcSerialize_all args [] = Serializer.Ok (sargs, xfer) ->
    Registry.lookup_handler (Registry.emit_rawmessage callee) to
      = (Some (Registry.UserFunction body remapped), to', wc) ->
    Registry.can (Registry.emit_rawmessage callee) to'
      {| Registry.opt_args := sargs; Registry.opt_wc := wc;
         Registry.opt_func := Some (Registry.UserFunction body remapped) |}
      ≠ Some AccessControl.DENY ->
    body wc sargs = Registry.Returns data ->
    Serializer.rpcSerialize data [] = Serializer.Ok (v, xfer') ->
    Registry.can caller (Registry.seq_addr (Registry.call caller to args).1)
      {| Registry.opt_args :=
           [v; Serializer.SPrimitive Serializer.PUndefined];
         Registry.opt_wc := [];
         Registry.opt_func :=
           Some (Registry.CallReturnHandler
                   (Registry.call caller to args).1) |}
      ≠ Some AccessControl.DENY ->
    ChannelSpec.settlements
      (ChannelSpec.deliver
         (ChannelSpec.deliver (Registry.call caller to args).2 callee)
         (Registry.call caller to args).2)
      (Registry.call caller to args).1
    = ChannelSpec.settlements caller (Registry.call caller to args).1
      ++ [Registry.Resolved v].
Proof.
  intros caller callee to args sargs xfer body r to' wc data v xfer'
    Hs1 Hs2 Hser Hl Hcan Hb Hdata Hcan'.
  pose proof (stored_at_call caller to args) as Hst.
  destruct (call_fields caller to args) as (Hid & Hstate & _ & Hpol & _).
  assert (Registry.events (Registry.call caller to args).2
          = Registry.events caller
            ++ [Registry.Sent
                  (ChannelSpec.request to sargs
                     (Registry.call caller to args).1) xfer]
          ∧ (Registry.call caller to args).1
              ∈ Registry.pending (Registry.call caller to args).2)
    as [Hev Hpend].
  { unfold Registry.call, Registry.send. cbn [Registry.nextSeqAddr].
    rewrite Hser. cbn [Serializer.bind fst snd]. split; [done|].
    cbn. apply elem_of_app. right. apply list_elem_of_here. }
  revert Hst Hstate Hpol Hev Hpend Hcan'.
  generalize (Registry.call caller to args).2.
  generalize (Registry.call caller to args).1. clear Hid.
  intros id c1 Hst Hstate Hpol Hev Hpend Hcan'.
  (* the request reaches the callee *)
  assert (ChannelSpec.deliver c1 callee
          = Registry.emit
              (Registry.emit (Registry.emit_rawmessage callee)
                 (Registry.Invoked (Registry.UserFunction body r) wc sargs))
              (Registry.Sent
                 (ChannelSpec.message (Registry.seq_addr id)
                    [v; Serializer.SPrimitive Serializer.PUndefined]) xfer'))
    as ->.
  { unfold ChannelSpec.deliver, ChannelSpec.last_sent, ChannelSpec.sent.
    rewrite Hev, omap_app. cbn [omap list_omap]. rewrite last_snoc.
    cbn [fmap option_fmap option_map fst].
    rewrite (receive_user callee (ChannelSpec.request to sargs id)
               body r to' wc Hs2 Hl Hcan). cbn zeta.
    cbn [Registry.args ChannelSpec.request]. rewrite Hb.
    rewrite (maybeReturn_promise _ _ (Registry.seq_addr id)) by done.
    change (truthy Registry.undefined) with false. cbn iota.
    by rewrite send_or_throw_value, Hdata. }
  (* the reply reaches the caller *)
  unfold ChannelSpec.deliver, ChannelSpec.last_sent.
  rewrite sent_emit, last_snoc. cbn [fmap option_fmap option_map fst].
  rewrite receive_reply; [|congruence|done|].
  2: { by rewrite <- (can_policy_view caller c1) in Hcan' by done. }
  cbn [fst]. unfold ChannelSpec.settlements.
  rewrite events_call_return.
  assert (Registry.pending (Registry.emit_rawmessage c1) = Registry.pending c1)
    as Hp by (unfold Registry.emit_rawmessage, Registry.resetTimeout; cbn;
              destruct (Registry._state c1); try done;
              by destruct (truthy _)).
  cbn [Registry.pending Registry.emit]. rewrite Hp, decide_True by done.
  change (truthy (Serializer.SPrimitive Serializer.PUndefined)) with false.
  cbn iota. cbn [Registry.events Registry.emit].
  rewrite events_emit_rawmessage, Hev, !omap_app. cbn [omap list_omap].
  rewrite N.eqb_refl. by rewrite !app_nil_r.
Qed.

Lemma X23_call_round_trip_witness :
  ChannelSpec.settlements
    (ChannelSpec.deliver
       (ChannelSpec.deliver
          (Registry.call Fixtures.fresh_channel ["net"; "x"; "f"] []).2
          Fixtures.serving_channel)
       (Registry.call Fixtures.fresh_channel ["net"; "x"; "f"] []).2)
    0%N
  = [] ++ [Registry.Resolved (Serializer.SPrimitive (Serializer.PNumber 42))].
Proof.
  refine (X23_call_round_trip Fixtures.fresh_channel Fixtures.serving_channel
    ["net"; "x"; "f"] [] [] [] _ None ["net"; "x"; "f"] []
    (Serializer.DPrimitive (Serializer.PNumber 42))
    (Serializer.SPrimitive (Serializer.PNumber 42)) [] _ _ _ _ _ _ _ _).
  - discriminate.
  - discriminate.
  - reflexivity.
  - vm_compute. reflexivity.
  - vm_compute. discriminate.
  - reflexivity.
  - reflexivity.
  - vm_compute. discriminate.
Defined.

Section DenyFacts.
Import AccessControl Serializer Registry ChannelSpec.
Implicit Types (c : RpcChannel).

Lemma access_view_emit c e :
  (forall f wc args, e ≠ Invoked f wc args) ->
  access_view (emit c e) = access_view c.
Proof.
  intros He. unfold access_view, invoked. cbn [events emit].
  rewrite omap_app. f_equal.
  destruct e as [| f wc args | |]; try apply app_nil_r.
  by destruct (He f wc args).
Qed.

Lemma access_view_send c to args ra rt c' :
  send c to args ra rt = Ok c' -> access_view c' = access_view c.
Proof.
  unfold send. destruct (rpcSerialize_all args []) as [[sargs xfer]|];
    simpl; [|done]. intros [= <-]. by apply access_view_emit.
Qed.

Lemma access_view_try_send c to :
  access_view (try_send c to) = access_view c.
Proof. rewrite try_send_emits. by apply access_view_emit. Qed.

Lemma access_view_send_or_throw c to args :
  access_view (send_or_throw c to args).1 = access_view c.
Proof.
  unfold send_or_throw.
  destruct (send c to args None promise) as [c'|] eqn:Hs; [|done].
  by apply access_view_send in Hs.
Qed.

Lemma access_view_resetTimeout c :
  access_view (resetTimeout c) = access_view c.
Proof.
  unfold resetTimeout. cbn [_state set_active_timeout].
  destruct (_state c); try done. by destruct (truthy _).
Qed.

Lemma access_view_sendKeepAlive c :
  access_view (sendKeepAlive c) = access_view c.
Proof.
  unfold sendKeepAlive. destruct (Q_truthy _); [|done].
  apply access_view_try_send.
Qed.

Lemma access_view_resetKeepAlive c :
  access_view (resetKeepAlive c) = access_view c.
Proof.
  unfold resetKeepAlive. destruct (Q_truthy _);
    change (access_view (set_active_keepalive ?x _)) with (access_view x);
    try change (access_view (set_active_keepalive ?x _))
          with (access_view x);
    apply access_view_sendKeepAlive.
Qed.

Lemma access_view_settle c id r :
  access_view (settle c id r) = access_view c.
Proof.
  unfold settle. destruct (decide _); [|done].
  by rewrite access_view_emit.
Qed.

Lemma access_view_onChannelClose c id :
  access_view (onChannelClose c id) = access_view c.
Proof. unfold onChannelClose. by rewrite access_view_settle. Qed.

Lemma access_view_fold_onChannelClose ids : forall c,
  access_view (fold_left onChannelClose ids c) = access_view c.
Proof.
  induction ids as [|id ids IH]; intros c; simpl; [done|].
  by rewrite IH, access_view_onChannelClose.
Qed.

Lemma access_view_stateChange c s :
  access_view (_stateChange c s) = access_view c.
Proof.
  unfold _stateChange.
  assert (access_view (emit (set_state c s) (StateChanged s (_state c)))
          = access_view c) as He by by rewrite access_view_emit.
  destruct s; try done.
  unfold emit_close, release_start.
  change (access_view (set_start ?x _ _)) with (access_view x).
  by rewrite access_view_fold_onChannelClose.
Qed.

Lemma access_view_close c (notify : bool) :
  access_view (close c notify) = access_view c.
Proof.
  unfold close.
  assert (forall x r, access_view
            (set_active_keepalive (set_active_timeout
               (set_i_reg x (clear (_i_reg x))) None) r)
          = access_view x) as Hc by done.
  destruct (_state c); [| |done]; destruct notify;
    by rewrite Hc, access_view_stateChange, ?access_view_try_send.
Qed.

Lemma access_view_start_continue c :
  access_view (start_continue c) = access_view c.
Proof.
  unfold start_continue. destruct (_state c); try done.
  by rewrite access_view_resetTimeout, access_view_stateChange.
Qed.

Lemma access_view_maybeReturn c val data error :
  access_view (maybeReturn c val data error).1 = access_view c.
Proof.
  unfold maybeReturn. destruct (return_addr val) as [addr|]; [|done].
  destruct (return_type val) as [[]|];
    try (destruct (truthy error); apply access_view_send_or_throw).
  destruct (truthy error); [apply access_view_send_or_throw|].
  destruct (send_or_throw c addr _) as [c1 [msg|]] eqn:H1;
    pose proof (access_view_send_or_throw c addr
      [data; undefined; DPrimitive (PBoolean false)]) as E1;
    rewrite H1 in E1; simpl in E1; [done|].
  destruct (send_or_throw c1 addr _) as [c2 [msg|]] eqn:H2;
    pose proof (access_view_send_or_throw c1 addr
      [undefined; undefined; DPrimitive (PBoolean true)]) as E2;
    rewrite H2 in E2; cbn [fst] in *; [congruence|].
  change (access_view (set_reg ?x _)) with (access_view x). congruence.
Qed.

Lemma access_view_call c to args :
  access_view (call c to args).2 = access_view c.
Proof.
  unfold call. cbn [nextSeqAddr].
  destruct (send _ to args _ promise) as [c'|] eqn:Hsend; cbn [snd].
  - by apply access_view_send in Hsend.
  - by rewrite access_view_settle.
Qed.

Lemma denies_all_view c c' :
  access_view c' = access_view c -> denies_all c -> denies_all c'.
Proof.
  unfold access_view. intros Hv Hd addr opts.
  rewrite (can_policy_view c c'); [apply Hd | congruence].
Qed.

(** A channel that denies every message calls no handler. *)
Lemma access_view_receive c val :
  denies_all c -> access_view (receive c val).1 = access_view c.
Proof.
  intros H. unfold receive. destruct (_state c); [| |done].
  all: destruct (lookup_handler _ _) as [[func to'] wc].
  all: assert (access_view (emit_rawmessage c) = access_view c) as Hr
    by (unfold emit_rawmessage, release_start;
        change (access_view (set_start ?x _ _)) with (access_view x);
        apply access_view_resetTimeout).
  all: rewrite (denies_all_view c (emit_rawmessage c) Hr H).
  all: rewrite decide_True by done.
  all: by rewrite access_view_maybeReturn.
Qed.

Lemma access_view_step c op :
  denies_all c -> access_view (step c op) = access_view c.
Proof.
  intros H.
  destruct op as [| |notify|val| | |to args|to args|address func|address
                 |t k|should]; cbn [step].
  - unfold start. destruct (_state c); try done.
    destruct (r_await_first_msg _); [done|].
    apply access_view_start_continue.
  - unfold resume_start. destruct (start_ready c); [done|].
    by rewrite access_view_start_continue.
  - apply access_view_close.
  - by apply access_view_receive.
  - destruct (active_timeout c); [|done].
    change (access_view (set_active_timeout ?x _)) with (access_view x).
    apply access_view_close.
  - destruct (active_keepalive c); [|done]. apply access_view_sendKeepAlive.
  - apply access_view_call.
  - apply access_view_send_or_throw.
  - done.
  - done.
  - unfold setTimeout.
    by rewrite access_view_resetKeepAlive, access_view_resetTimeout.
  - done.
Qed.

Lemma access_view_run ops : forall c,
  denies_all c -> access_view (run c ops) = access_view c.
Proof.
  unfold run. induction ops as [|op ops IH]; intros c H; simpl; [done|].
  rewrite IH.
  - by apply access_view_step.
  - eapply denies_all_view; [|done]. by apply access_view_step.
Qed.
End DenyFacts.

(** X24.  Denial is total and permanent.  On a channel whose access
    decision is DENY for every address (as on a channel constructed with
    the default policy DENY and no deciding controller), no sequence of
    operations ever calls a handler: not an application function, not the
    return handler of the channel's own calls, not the handler of the
    peer's close notice; and after any such sequence the channel still
    denies every address. *)
Theorem X24_denying_channel_never_invokes :
  forall (this : Registry.RpcChannel) (ops : list Registry.Op),
    ChannelSpec.denies_all this ->
    ChannelSpec.invoked (Registry.run this ops) = ChannelSpec.invoked this
    ∧ ChannelSpec.denies_all (Registry.run this ops).
Proof.
  intros c ops H. pose proof (access_view_run ops c H) as Hv. split.
  - by injection Hv.
  - by eapply denies_all_view.
Qed.

Lemma X24_denying_channel_never_invokes_witness :
  ChannelSpec.invoked
    (Registry.run
       (Registry.new_channel AccessControl.DENY Registry.new_registry
          Registry.no_opts)
       [Registry.OpStart;
        Registry.OpRegister [Some "net"; Some "x"; Some "f"] Fixtures.answer;
        Registry.OpReceive (ChannelSpec.request ["net"; "x"; "f"] [] 0);
        Registry.OpReceive (ChannelSpec.message ["_"; "close"] [])])
  = ChannelSpec.invoked
      (Registry.new_channel AccessControl.DENY Registry.new_registry
         Registry.no_opts).
Proof.
  refine (proj1 (X24_denying_channel_never_invokes
    (Registry.new_channel AccessControl.DENY Registry.new_registry
       Registry.no_opts) _ _)).
  intros addr opts. reflexivity.
Defined.

Section StartFacts.
Import AccessControl Serializer Registry ChannelSpec.
Implicit Types (c : RpcChannel).

Lemma ready_send_or_throw c to args :
  start_ready (send_or_throw c to args).1 = start_ready c.
Proof.
  unfold send_or_throw, send.
  by destruct (rpcSerialize_all args []) as [[sargs xfer]|].
Qed.

Lemma ready_settle c id r : start_ready (settle c id r) = start_ready c.
Proof. unfold settle. by destruct (decide _). Qed.

Lemma ready_fold_onChannelClose ids : forall c,
  start_ready (fold_left onChannelClose ids c) = start_ready c.
Proof.
  induction ids as [|id ids IH]; intros c; simpl; [done|].
  rewrite IH. unfold onChannelClose. by rewrite ready_settle.
Qed.

Lemma ready_close c (notify : bool) :
  start_ready c <= start_ready (close c notify).
Proof.
  unfold close. destruct (_state c); [| |done]; destruct notify;
    cbn [start_ready set_active_keepalive set_active_timeout set_i_reg
         _stateChange emit_close release_start set_start];
    rewrite ready_fold_onChannelClose; cbn; lia.
Qed.

Lemma ready_call_return c id args :
  start_ready (call_return c id args) = start_ready c.
Proof.
  unfold call_return, onDone.
  cbn [start_ready set_close_listeners set_reg].
  destruct (is_truthy (args !! 1%nat)); [destruct (is_truthy _)|];
    apply ready_settle.
Qed.

Lemma ready_invoke c f wc args :
  start_ready c <= start_ready (invoke c f wc args).1.
Proof.
  unfold invoke. destruct f as [|id|body r]; cbn [fst].
  - apply (ready_close (emit c _)).
  - by rewrite ready_call_return.
  - done.
Qed.

Lemma ready_maybeReturn c val data error :
  start_ready (maybeReturn c val data error).1 = start_ready c.
Proof.
  unfold maybeReturn. destruct (return_addr val) as [addr|]; [|done].
  destruct (return_type val) as [[]|];
    try (destruct (truthy error); apply ready_send_or_throw).
  destruct (truthy error); [apply ready_send_or_throw|].
  destruct (send_or_throw c addr _) as [c1 [msg|]] eqn:H1;
    pose proof (ready_send_or_throw c addr
      [data; undefined; DPrimitive (PBoolean false)]) as E1;
    rewrite H1 in E1; simpl in E1; [done|].
  destruct (send_or_throw c1 addr _) as [c2 [msg|]] eqn:H2;
    pose proof (ready_send_or_throw c1 addr
      [undefined; undefined; DPrimitive (PBoolean true)]) as E2;
    rewrite H2 in E2; cbn [fst start_ready set_reg] in *; congruence.
Qed.

(** A message ends the wait of every [start()] that is waiting. *)
Lemma ready_receive c val :
  _state c ≠ CLOSED ->
  start_ready c + start_waiting c <= start_ready (receive c val).1.
Proof.
  intros Hs. rewrite receive_open by done. cbn zeta.
  assert (start_ready (emit_rawmessage c) = start_ready c + start_waiting c)
    as Hr.
  { unfold emit_rawmessage, release_start, resetTimeout.
    cbn [_state set_active_timeout start_ready set_start].
    destruct (_state c); try done; by destruct (truthy _). }
  destruct (lookup_handler _ _) as [[func to'] wc].
  destruct (decide _); [by rewrite ready_maybeReturn, Hr|].
  destruct func as [f|]; [|by rewrite ready_maybeReturn, Hr].
  pose proof (ready_invoke (emit_rawmessage c) f wc (args val)) as Hi.
  destruct (invoke _ f wc (args val)) as [c' [d|e]];
    rewrite ready_maybeReturn; cbn [fst] in Hi; lia.
Qed.

(** [receive] changes the state only by closing the channel. *)
Lemma state_receive_same_or_closed c val :
  _state (receive c val).1 = _state c ∨ _state (receive c val).1 = CLOSED.
Proof.
  unfold receive. destruct (_state c) eqn:Hs; [| |by left].
  all: destruct (lookup_handler _ _) as [[func to'] wc].
  all: destruct (decide _);
    [left; by rewrite state_maybeReturn, state_emit_rawmessage|].
  all: destruct func as [f|];
    [|left; by rewrite state_maybeReturn, state_emit_rawmessage].
  all: unfold invoke; destruct f as [|id|body r].
  all: try (right; by rewrite state_maybeReturn, state_close).
  all: try (left; rewrite state_maybeReturn, state_call_return;
            by rewrite state_emit, state_emit_rawmessage).
  all: left; destruct (body wc (args val));
    by rewrite state_maybeReturn, state_emit, state_emit_rawmessage.
Qed.
End StartFacts.

(** X25.  [start()] with [await_first_msg].  On an INACTIVE channel whose
    options ask to await the first message, [start()] changes nothing
    that can be observed: the channel stays INACTIVE and no event
    happens.  The first message received ends the wait; when [start()]
    resumes, the channel becomes ACTIVE, unless that message closed the
    channel, in which case it stays CLOSED. *)
Theorem X25_start_awaits_first_message :
  forall (this : Registry.RpcChannel) (val : Registry.RpcMessage),
    Registry._state this = Registry.INACTIVE ->
    Registry.r_await_first_msg (Registry.opts this) = true ->
    Registry._state (Registry.start this) = Registry.INACTIVE
    ∧ Registry.events (Registry.start this) = Registry.events this
    ∧ Registry._state
        (Registry.run this
           [Registry.OpStart; Registry.OpReceive val; Registry.OpResumeStart])
      = match Registry._state
                (Registry.run this [Registry.OpStart; Registry.OpReceive val])
        with
        | Registry.CLOSED => Registry.CLOSED
        | _ => Registry.ACTIVE
        end.
Proof.
  intros c val Hs Hw.
  assert (Registry.start c
          = Registry.set_start c (S (Registry.start_waiting c))
              (Registry.start_ready c)) as Hst.
  { unfold Registry.start. by rewrite Hs, Hw. }
  split_and!; [by rewrite Hst | by rewrite Hst |].
  unfold Registry.run. cbn [fold_left Registry.step]. rewrite Hst.
  set (d := Registry.set_start c _ _).
  assert (Registry._state d ≠ Registry.CLOSED) as Hd
    by (subst d; cbn; by rewrite Hs).
  pose proof (ready_receive d val Hd) as Hr.
  pose proof (state_receive_same_or_closed d val) as Hsc.
  assert (Registry._state d = Registry.INACTIVE) as Hdi by done.
  unfold Registry.resume_start.
  destruct (Registry.start_ready (Registry.receive d val).1) as [|n] eqn:Hn.
  { subst d. cbn in Hr. lia. }
  unfold Registry.start_continue. cbn [Registry._state Registry.set_start].
  destruct Hsc as [Hsc|Hsc]; rewrite Hsc in *.
  - rewrite Hdi. by rewrite state_resetTimeout, state_stateChange.
  - done.
Qed.

Lemma X25_start_awaits_first_message_witness :
  Registry._state
    (Registry.run
       (Registry.setAwaitFirstMsg Fixtures.fresh_channel true)
       [Registry.OpStart;
        Registry.OpReceive (ChannelSpec.message ["net"; "x"; "f"] []);
        Registry.OpResumeStart])
  = Registry.ACTIVE.
Proof.
  refine (proj2 (proj2 (X25_start_awaits_first_message
    (Registry.setAwaitFirstMsg Fixtures.fresh_channel true)
    (ChannelSpec.message ["net"; "x"; "f"] []) _ _))).
  - reflexivity.
  - reflexivity.
Defined.

(** * Further properties of the handler registry *)

Section RegistryFacts.
Import Registry.

(** [register] stores the end of the chain of [RpcRemappedFunction]
    pointers: a function without such a pointer. *)
Fixpoint resolve_remapped_final (func : RpcFunction) :
  match resolve_remapped func with
  | UserFunction _ (Some _) => False
  | _ => True
  end :=
  match func with
  | UserFunction _ (Some target) => resolve_remapped_final target
  | _ => I
  end.
End RegistryFacts.

(** X26.  Registration and lookup.  After [register(address, func)] with
    an address of non-empty segments, a lookup of that address in the
    registry gives the function at the end of [func]'s chain of remapped
    functions, which has no remapped function itself; this holds whatever
    was registered before, at this address or under wildcard patterns
    that match it.  A later [unregister] of the address leaves the
    registry as if the function had never been registered. *)
Theorem X26_register_then_lookup :
  forall (this : Registry.RpcHandlerRegistry) (A : list string)
         (func : Registry.RpcFunction) (wc : option (list string)),
    NoEmpty A ->
    @get _ Registry.function_truthy
      (Registry.map (Registry.register this (Some <$> A) func)) A wc
    = (Some (Registry.resolve_remapped func), A, wc)
    ∧ match Registry.resolve_remapped func with
      | Registry.UserFunction _ (Some _) => False
      | _ => True
      end
    ∧ Registry.unregister (Registry.register this (Some <$> A) func)
        (Some <$> A)
      = Registry.unregister this (Some <$> A).
Proof.
  intros this A func wc HA. split_and!.
  - apply get_literal; [done| |done].
    unfold Registry.register. cbn [Registry.map put table].
    rewrite <- (NoEmpty_key_of A) at 2 by done.
    by rewrite stored_at_put_flat_same.
  - apply resolve_remapped_final.
  - unfold Registry.unregister, Registry.register, put.
    cbn [Registry.map Registry.chain Registry.return_seq_id table].
    by rewrite put_flat_put_flat.
Qed.

Lemma X26_register_then_lookup_witness :
  @get _ Registry.function_truthy
    (Registry.map
       (Registry.register Registry.new_registry
          (Some <$> ["net"; "x"; "f"])
          (Registry.UserFunction
             (fun _ _ => Registry.Returns Registry.undefined)
             (Some Fixtures.answer))))
    ["net"; "x"; "f"] None
  = (Some (Registry.resolve_remapped
             (Registry.UserFunction
                (fun _ _ => Registry.Returns Registry.undefined)
                (Some Fixtures.answer))),
     ["net"; "x"; "f"], None).
Proof.
  refine (proj1 (X26_register_then_lookup Registry.new_registry
    ["net"; "x"; "f"] _ None _)).
  unfold NoEmpty. by repeat constructor.
Defined.

(** X27.  Internal handlers take precedence.  [receive] looks a handler
    up in the internal registry of the channel first and in the
    application registry only when that gives nothing: when the internal
    registry holds a handler at exactly the address of the message (as
    for [_.close] and for the return addresses of calls), that handler is
    the one found, with no wildcard values, whatever the application has
    registered at the address or under patterns that match it. *)
Theorem X27_internal_handlers_take_precedence :
  forall (this : Registry.RpcChannel) (A : list string)
         (func : Registry.RpcFunction),
    NoEmpty A ->
    stored_at (table (Registry.map (Registry._i_reg this))) (Some <$> A)
      = Some func ->
    Registry.lookup_handler this A = (Some func, A, []).
Proof.
  intros c A func HA Hst. unfold Registry.lookup_handler.
  by rewrite (get_literal _ _ func) by done.
Qed.

Lemma X27_internal_handlers_take_precedence_witness :
  Registry.lookup_handler
    (Registry.step Fixtures.fresh_channel
       (Registry.OpRegister [Some "_"; Some "close"] Fixtures.answer))
    ["_"; "close"]
  = (Some Registry.CloseHandler, ["_"; "close"], []).
Proof.
  refine (X27_internal_handlers_take_precedence _ ["_"; "close"]
            Registry.CloseHandler _ _).
  - unfold NoEmpty. by repeat constructor.
  - vm_compute. reflexivity.
Defined.
